(** * Sentence-Transformers in TensorFlow: masked mean pooling and L2 normalisation

    Embedding of [TFSentenceTransformer] (inference/sentence-transformers.ipynb):
    [call], [mean_pooling] and [normalize], together with the TensorFlow
    operations they are written with.

    Tensors are rectangular nested lists tagged with their dtype.  The scalar
    arithmetic is an interface ([Arith]) whose instances are the IEEE-754
    binary formats of TensorFlow's float dtypes, given by the specification
    of floating-point arithmetic of the Standard Library ([SpecFloat], round
    to nearest even), with or without flushing of subnormal numbers;
    [float32] is the one the notebook computes in.

    The program is embedded twice.  [mean_pooling], [normalize] and [call]
    add the entries of a reduction in index order.  [mean_pooling_by],
    [normalize_by] and [call_by] take the order of each reduction as a
    parameter, since TensorFlow does not fix it; the first are the second in
    the index order ([mean_pooling_index_order], [normalize_index_order]).
    The properties that depend on rounding are proved for every order, with
    and without flushing. *)

From Stdlib Require Import ZArith Zpower List Bool Lia Permutation.
From Stdlib Require Import Reals Lra.
From Stdlib Require Import Floats.SpecFloat.
Import ListNotations.

Set Implicit Arguments.

(** ** Errors raised by TensorFlow operations *)

Inductive TFError : Type :=
| InvalidArgument_dtype   (* operands of a binary op have different dtypes *)
| InvalidArgument_shape.  (* shapes cannot be broadcast *)

Inductive result (A : Type) : Type :=
| Ok (a : A)
| Err (e : TFError).

Arguments Ok {A} a.
Arguments Err {A} e.

Definition bind {A B : Type} (r : result A) (k : A -> result B) : result B :=
  match r with
  | Ok a => k a
  | Err e => Err e
  end.

Notation "x <- r ;; k" := (bind r (fun x => k))
  (at level 61, r at next level, right associativity).

Fixpoint mapM {A B : Type} (f : A -> result B) (l : list A) : result (list B) :=
  match l with
  | [] => Ok []
  | a :: l' => b <- f a ;; bs <- mapM f l' ;; Ok (b :: bs)
  end.

(** ** Dtypes *)

Inductive DType : Type := float16 | bfloat16 | float32 | float64.

Definition dtype_eqb (a b : DType) : bool :=
  match a, b with
  | float16, float16 | bfloat16, bfloat16
  | float32, float32 | float64, float64 => true
  | _, _ => false
  end.

(** Precision and exponent bound of each format. *)
Definition prec_of (dt : DType) : Z :=
  match dt with
  | float16 => 11 | bfloat16 => 8 | float32 => 24 | float64 => 53
  end%Z.

Definition emax_of (dt : DType) : Z :=
  match dt with
  | float16 => 16 | bfloat16 => 128 | float32 => 128 | float64 => 1024
  end%Z.

(** ** Scalar arithmetic of a dtype *)

Class Arith (F : Type) : Type := {
  f_cast : Z -> F;                 (* tf.cast of an integer *)
  f_of_pyfloat : spec_float -> F;  (* a Python float (binary64) converted to the dtype *)
  f_add : F -> F -> F;
  f_mul : F -> F -> F;
  f_div : F -> F -> F;
  f_sqrt : F -> F;
  f_minimum : F -> F -> F;
  f_maximum : F -> F -> F
}.

(** The Python literals of [mean_pooling], as binary64 values:
    [1e-9] is 0x3E112E0BE826D695 and [tf.float32.max] is (2^24 - 1) * 2^104. *)
Definition py_1e_9 : spec_float := S754_finite false 4835703278458517 (-82).
Definition py_float32_max : spec_float := S754_finite false 9007198717870080 75.

(** *** IEEE-754 binary formats *)

Module IEEE.
Section Format.
Variables prec emax : Z.

Definition cast (z : Z) : spec_float := binary_normalize prec emax z 0 false.

Definition of_pyfloat (x : spec_float) : spec_float :=
  match x with
  | S754_finite s m e => binary_round prec emax s m e
  | _ => x
  end.

(** [tf.minimum x y] is [x < y ? x : y], [tf.maximum x y] is [x > y ? x : y]. *)
Definition minimum (x y : spec_float) : spec_float :=
  if SFltb x y then x else y.
Definition maximum (x y : spec_float) : spec_float :=
  if SFltb y x then x else y.

Definition arith : Arith spec_float := {|
  f_cast := cast;
  f_of_pyfloat := of_pyfloat;
  f_add := SFadd prec emax;
  f_mul := SFmul prec emax;
  f_div := SFdiv prec emax;
  f_sqrt := SFsqrt prec emax;
  f_minimum := minimum;
  f_maximum := maximum
|}.
End Format.

Definition of_dtype (dt : DType) : Arith spec_float :=
  arith (prec_of dt) (emax_of dt).
End IEEE.

(** *** Real values *)

Module Exact.
(** The real number 2^e. *)
Definition pow2 (e : Z) : R :=
  match e with
  | Zneg p => (/ IZR (Z.pow_pos 2 p))%R
  | _ => IZR (2 ^ e)
  end.

(** The real number a finite binary64 value stands for. *)
Definition of_pyfloat (x : spec_float) : R :=
  match x with
  | S754_finite s m e =>
      ((if s then -1 else 1) * IZR (Zpos m) * pow2 e)%R
  | _ => 0%R
  end.
End Exact.

(** ** Tensors *)

Record Tensor3 (F : Type) : Type := mkT3 {
  dtype3 : DType;
  data3 : list (list (list F))      (* shape (B, T, H) *)
}.

Record Tensor2 (F : Type) : Type := mkT2 {
  dtype2 : DType;
  data2 : list (list F)             (* shape (B, H) *)
}.

(** Integer tensors (the attention mask and its expansions). *)
Definition IntTensor2 := list (list Z).
Definition IntTensor3 := list (list (list Z)).

Definition zip_with {A B C : Type} (f : A -> B -> C) : list A -> list B -> list C :=
  fix go (l : list A) (l' : list B) : list C :=
    match l, l' with
    | a :: t, b :: t' => f a b :: go t t'
    | _, _ => []
    end.

(** A nested list is a tensor of shape (B, T, H) when it is rectangular. *)
Definition rect2 {A : Type} (B T : nat) (d : list (list A)) : Prop :=
  length d = B /\ Forall (fun row => length row = T) d.

Definition rect3 {A : Type} (B T H : nat) (d : list (list (list A))) : Prop :=
  length d = B /\ Forall (fun row => rect2 T H row) d.

(** [tf.shape] of a rank-3 tensor with B, T, H >= 1. *)
Definition tf_shape {A : Type} (d : list (list (list A))) : nat * nat * nat :=
  (length d, length (hd [] d), length (hd [] (hd [] d))).

(** ** The TensorFlow operations used by the notebook *)

(** [tf.expand_dims(t, -1)]: shape (B, T) to (B, T, 1). *)
Definition expand_dims (t : IntTensor2) : IntTensor3 :=
  map (map (fun x => [x])) t.

(** Broadcasting of one axis: its size is the target size, or 1. *)
Definition broadcast_axis {A : Type} (n : nat) (l : list A) : result (list A) :=
  if Nat.eqb (length l) n then Ok l
  else match l with
       | [x] => Ok (repeat x n)
       | _ => Err InvalidArgument_shape
       end.

(** [tf.broadcast_to(t, shape)] for rank 3. *)
Definition broadcast_to (t : IntTensor3) (shape : nat * nat * nat)
  : result IntTensor3 :=
  let '(B, T, H) := shape in
  rows <- mapM (fun row => mapM (broadcast_axis H) row) t ;;
  rows' <- mapM (broadcast_axis T) rows ;;
  broadcast_axis B rows'.

Section Ops.
Variable F : Type.
Variable arith : DType -> Arith F.

Definition tf_cast (t : IntTensor3) (dt : DType) : Tensor3 F :=
  mkT3 dt (map (map (map (@f_cast F (arith dt)))) t).

(** [a * b] on tensors of equal shape; TensorFlow does not promote dtypes. *)
Definition tf_mul3 (a b : Tensor3 F) : result (Tensor3 F) :=
  if dtype_eqb (dtype3 a) (dtype3 b)
  then Ok (mkT3 (dtype3 a)
             (zip_with (zip_with (zip_with (@f_mul F (arith (dtype3 a)))))
                (data3 a) (data3 b)))
  else Err InvalidArgument_dtype.

Definition tf_mul2 (a b : Tensor2 F) : result (Tensor2 F) :=
  if dtype_eqb (dtype2 a) (dtype2 b)
  then Ok (mkT2 (dtype2 a)
             (zip_with (zip_with (@f_mul F (arith (dtype2 a))))
                (data2 a) (data2 b)))
  else Err InvalidArgument_dtype.

(** [a / b] on tensors of shape (B, H) and (B, H) or (B, 1); an axis 1 of
    size 1 in [b] is broadcast. *)
Definition div_row (A : Arith F) (row nrow : list F) : list F :=
  match nrow with
  | [n] => map (fun x => f_div x n) row
  | _ => zip_with f_div row nrow
  end.

Definition tf_div2 (a b : Tensor2 F) : result (Tensor2 F) :=
  if dtype_eqb (dtype2 a) (dtype2 b)
  then Ok (mkT2 (dtype2 a)
             (zip_with (div_row (arith (dtype2 a))) (data2 a) (data2 b)))
  else Err InvalidArgument_dtype.

(** Sum of the T vectors of one batch row: the accumulator starts at zero
    and the vectors are added in index order. *)
Definition sum_rows (A : Arith F) (row : list (list F)) : list F :=
  fold_left (zip_with f_add) row (repeat (f_cast 0) (length (hd [] row))).

(** [tf.math.reduce_sum(t, axis=1)]: shape (B, T, H) to (B, H). *)
Definition reduce_sum_axis1 (t : Tensor3 F) : Tensor2 F :=
  mkT2 (dtype3 t) (map (sum_rows (arith (dtype3 t))) (data3 t)).

(** Sum of the entries of one row, accumulated from zero in index order. *)
Definition sum_list (A : Arith F) (row : list F) : F :=
  fold_left f_add row (f_cast 0).

(** [tf.math.reduce_sum(t, axis=1, keepdims=True)]: shape (B, H) to (B, 1). *)
Definition reduce_sum_keepdims (t : Tensor2 F) : Tensor2 F :=
  mkT2 (dtype2 t) (map (fun row => [sum_list (arith (dtype2 t)) row]) (data2 t)).

(** [tf.clip_by_value(t, lo, hi)] is [maximum(minimum(t, hi), lo)], the
    Python floats [lo] and [hi] being converted to the dtype of [t]. *)
Definition clip (A : Arith F) (lo hi : spec_float) (x : F) : F :=
  f_maximum (f_minimum x (f_of_pyfloat hi)) (f_of_pyfloat lo).

Definition tf_clip_by_value (t : Tensor2 F) (lo hi : spec_float) : Tensor2 F :=
  mkT2 (dtype2 t) (map (map (clip (arith (dtype2 t)) lo hi)) (data2 t)).

Definition tf_sqrt (t : Tensor2 F) : Tensor2 F :=
  mkT2 (dtype2 t) (map (map (@f_sqrt F (arith (dtype2 t)))) (data2 t)).

(** [tf.linalg.normalize(t, 2, axis=1)]:
    [norm = sqrt(reduce_sum(t * conj(t), axis=1, keepdims=True))] and the
    result is the pair [(t / norm, norm)]. *)
Definition tf_linalg_normalize (t : Tensor2 F)
  : result (Tensor2 F * Tensor2 F) :=
  sq <- tf_mul2 t t ;;
  let norm := tf_sqrt (reduce_sum_keepdims sq) in
  normalized <- tf_div2 t norm ;;
  Ok (normalized, norm).

(** ** TFSentenceTransformer *)

(** The output of the transformer: [model_output[0]] holds the token
    embeddings. *)
Record ModelOutput : Type := mkOut {
  last_hidden_state : Tensor3 F
}.

Record Inputs : Type := mkIn {
  input_ids : IntTensor2;
  attention_mask : IntTensor2
}.

(** [tf.cast(tf.broadcast_to(tf.expand_dims(attention_mask, -1),
    tf.shape(token_embeddings)), tf.float32)], the first statement of
    [mean_pooling]. *)
Definition input_mask_expanded (token_embeddings : Tensor3 F)
    (attention_mask : IntTensor2) : result (Tensor3 F) :=
  expanded <- broadcast_to (expand_dims attention_mask)
                (tf_shape (data3 token_embeddings)) ;;
  Ok (tf_cast expanded float32).

Definition mean_pooling (model_output : ModelOutput) (attention_mask : IntTensor2)
  : result (Tensor2 F) :=
  let token_embeddings := last_hidden_state model_output in
  mask_expanded <- input_mask_expanded token_embeddings attention_mask ;;
  prod <- tf_mul3 token_embeddings mask_expanded ;;
  tf_div2 (reduce_sum_axis1 prod)
    (tf_clip_by_value (reduce_sum_axis1 mask_expanded)
       py_1e_9 py_float32_max).

Definition normalize (embeddings : Tensor2 F) : result (Tensor2 F) :=
  r <- tf_linalg_normalize embeddings ;;
  Ok (fst r).

Section Layer.
(** [self.model], the pretrained transformer. *)
Variable model : Inputs -> ModelOutput.

Definition call (inputs : Inputs) (normalize_flag : bool)
  : result (Tensor2 F) :=
  let model_output := model inputs in
  embeddings <- mean_pooling model_output (attention_mask inputs) ;;
  if normalize_flag then normalize embeddings else Ok embeddings.
End Layer.
End Ops.

(** ** One batch row

    The operations of [mean_pooling] and [normalize] act on each batch row
    separately; these are the values they compute for one row. *)

Section Rows.
Variable F : Type.
Variable A : Arith F.

(** The row of [input_mask_expanded]: every mask value repeated H times. *)
Definition mask_row (H : nat) (mrow : list Z) : list (list F) :=
  map (map f_cast) (map (fun x => repeat x H) mrow).

(** The row of the result of [mean_pooling]. *)
Definition pool_row (H : nat) (row : list (list F)) (mrow : list Z) : list F :=
  div_row A (sum_rows A (zip_with (zip_with f_mul) row (mask_row H mrow)))
    (map (clip A py_1e_9 py_float32_max) (sum_rows A (mask_row H mrow))).


(** The row of the result of [normalize]. *)
Definition normalize_row (row : list F) : list F :=
  div_row A row (map f_sqrt [sum_list A (zip_with f_mul row row)]).

(** The token vectors of a row at the positions where the mask is 1. *)
Definition unmasked (row : list (list F)) (mrow : list Z) : list (list F) :=
  map fst (filter (fun p => Z.eqb (snd p) 1) (combine row mrow)).

(** The arithmetic mean of a list of vectors: their sum divided by their
    number. *)
Definition arithmetic_mean (vs : list (list F)) : list F :=
  map (fun s => f_div s (f_cast (Z.of_nat (length vs)))) (sum_rows A vs).
End Rows.

Definition count_ones (mrow : list Z) : nat :=
  length (filter (fun m => Z.eqb m 1) mrow).

Definition binary_mask (mrow : list Z) : Prop :=
  Forall (fun m => m = 0%Z \/ m = 1%Z) mrow.

(** ** binary32 values *)

Module F32.
Definition A : Arith spec_float := IEEE.of_dtype float32.

Definition cast (z : Z) : spec_float := IEEE.cast 24 128 z.
Definition add : spec_float -> spec_float -> spec_float := SFadd 24 128.
Definition mul : spec_float -> spec_float -> spec_float := SFmul 24 128.
Definition div : spec_float -> spec_float -> spec_float := SFdiv 24 128.

(** Well-formed binary32 value: the mantissa and exponent are those of a
    number of the format. *)
Definition valid (x : spec_float) : Prop := valid_binary 24 128 x = true.

Definition is_finite (x : spec_float) : bool :=
  match x with
  | S754_zero _ | S754_finite _ _ _ => true
  | _ => false
  end.

Definition is_zero (x : spec_float) : bool :=
  match x with
  | S754_zero _ => true
  | _ => false
  end.

(** Every value of the row is a well-formed binary32 value. *)
Definition well_formed (row : list (list spec_float)) : Prop :=
  Forall (Forall valid) row.

(** The values at the masked positions (mask 0) are finite. *)
Definition masked_finite (row : list (list spec_float)) (mrow : list Z) : Prop :=
  Forall (fun p => snd p = 0%Z -> Forall (fun x => is_finite x = true) (fst p))
    (combine row mrow).

(** The real number a finite value stands for. *)
Definition real_value (x : spec_float) : R := Exact.of_pyfloat x.

(** Literals. *)
Definition pos_zero : spec_float := S754_zero false.
Definition inf : spec_float := S754_infinity false.
Definition f_0_5 : spec_float := S754_finite false 8388608 (-24).
Definition f_1_5 : spec_float := S754_finite false 12582912 (-23).
End F32.

(** The exponent of a finite value is not below the least exponent of the
    format. *)
Definition exp_ok (prec emax : Z) (x : spec_float) : Prop :=
  match x with
  | S754_finite _ _ e => (emin prec emax <= e)%Z
  | _ => True
  end.

Definition not_neg_zero (x : spec_float) : Prop := x <> S754_zero true.

(** The invariant of a binary32 accumulator of [reduce_sum]: no entry is the
    negative zero. *)
Definition acc_ok (acc : list spec_float) : Prop :=
  Forall (fun a => not_neg_zero a /\ exp_ok 24 128 a) acc.

(** Two rows that hold the same token vectors wherever the mask is 1. *)
Definition agree_unmasked {F : Type} (row row' : list (list F)) (mrow : list Z)
  : Prop :=
  length row = length row'
  /\ forall t, nth_error mrow t = Some 1%Z -> nth_error row t = nth_error row' t.

(** ** Concrete inputs *)

Module Examples.
(** A transformer that returns the given token embeddings. *)
Definition const_model (te : Tensor3 spec_float) : Inputs -> ModelOutput spec_float :=
  fun _ => mkOut te.

Definition vec4 (z : Z) : list spec_float := repeat (F32.cast z) 4.

(** Token vectors [1,1,1,1], [2,2,2,2], [9,9,9,9] with mask [1,1,0]. *)
Definition te_scenario : Tensor3 spec_float :=
  mkT3 float32 [[vec4 1; vec4 2; vec4 9]].
Definition inputs_scenario : Inputs := mkIn [[101; 102; 0]%Z] [[1; 1; 0]%Z].

(** One unmasked token 1.0 followed by a masked token. *)
Definition te_masked_inf : Tensor3 spec_float :=
  mkT3 float32 [[[F32.cast 1]; [F32.inf]]].
Definition te_masked_zero : Tensor3 spec_float :=
  mkT3 float32 [[[F32.cast 1]; [F32.cast 0]]].
Definition mask_1_0 : IntTensor2 := [[1; 0]%Z].


(** A pooled tensor with a zero row. *)
Definition zero_row : Tensor2 spec_float :=
  mkT2 float32 [[F32.pos_zero; F32.pos_zero]].

(** float64 token embeddings. *)
Definition te_float64 : Tensor3 spec_float :=
  mkT3 float64 [[[IEEE.cast 53 1024 1]; [IEEE.cast 53 1024 2]]].
Definition mask_1_1 : IntTensor2 := [[1; 1]%Z].



End Examples.


(** ** E2ESentenceTransformer *)

Section E2E.
Variable F : Type.
Variable arith : DType -> Arith F.
(** The raw text given to the model. *)
Variable Text : Type.
(** [self.tokenizer], the in-graph tokenizer, and the transformer inside
    [self.model]. *)
Variable tokenizer : Text -> Inputs.
Variable model : Inputs -> ModelOutput F.

(** [E2ESentenceTransformer.call]: tokenize, then call the
    [TFSentenceTransformer] with its default [normalize=True]. *)
Definition e2e_call (inputs : Text) : result (Tensor2 F) :=
  let tokenized := tokenizer inputs in
  call arith model tokenized true.
End E2E.

(** The denominator of [mean_pooling]:
    [tf.clip_by_value(tf.math.reduce_sum(input_mask_expanded, axis=1), 1e-9,
    tf.float32.max)]. *)
Definition pooling_denominator {F : Type} (arith : DType -> Arith F)
    (token_embeddings : Tensor3 F) (attention_mask : IntTensor2)
  : result (Tensor2 F) :=
  mask_expanded <- input_mask_expanded arith token_embeddings attention_mask ;;
  Ok (tf_clip_by_value arith (reduce_sum_axis1 arith mask_expanded)
        py_1e_9 py_float32_max).

(** Further concrete inputs. *)
Module MoreExamples.
(** Two sequences of two tokens; the second one has one padding position. *)
Definition te_pair : Tensor3 spec_float :=
  mkT3 float32 [[[F32.cast 1]; [F32.cast 3]]; [[F32.cast 5]; [F32.cast 7]]].
Definition mask_pair : IntTensor2 := [[1; 1]; [1; 0]]%Z.
Definition inputs_pair : Inputs := mkIn [[101; 102]; [101; 0]]%Z mask_pair.


(** A NaN at a masked position. *)
Definition te_nan : Tensor3 spec_float :=
  mkT3 float32 [[[F32.cast 1]; [S754_nan]]].

(** A pooled row that holds a NaN. *)
Definition pooled_nan : Tensor2 spec_float :=
  mkT2 float32 [[F32.cast 1; S754_nan; F32.cast 2]].

(** A tokenizer that returns the given tensors. *)
Definition const_tokenizer (inputs : Inputs) : unit -> Inputs := fun _ => inputs.
End MoreExamples.

(** ** Subnormal numbers

    A processor can be set to replace subnormal numbers by zero, in the
    operands of an operation ([daz]) and in its result ([ftz]); TensorFlow
    sets both in the threads that run its CPU kernels.  The arithmetic below
    has the two settings as parameters; with both off it is [IEEE.arith]. *)

Record FlushMode : Type := mkMode {
  daz : bool;    (* subnormal operands are read as zero *)
  ftz : bool     (* subnormal results are replaced by zero *)
}.

Module Flushed.
Section Format.
Variable md : FlushMode.
Variables prec emax : Z.

(** A finite value with fewer than [prec] digits is subnormal. *)
Definition flush (x : spec_float) : spec_float :=
  match x with
  | S754_finite s m e =>
      if Z.ltb (Zpos (digits2_pos m)) prec then S754_zero s else x
  | _ => x
  end.

Definition flush_in (x : spec_float) : spec_float :=
  if daz md then flush x else x.
Definition flush_out (x : spec_float) : spec_float :=
  if ftz md then flush x else x.

Definition add (x y : spec_float) : spec_float :=
  flush_out (SFadd prec emax (flush_in x) (flush_in y)).
Definition mul (x y : spec_float) : spec_float :=
  flush_out (SFmul prec emax (flush_in x) (flush_in y)).
Definition div (x y : spec_float) : spec_float :=
  flush_out (SFdiv prec emax (flush_in x) (flush_in y)).
Definition sqrt (x : spec_float) : spec_float :=
  flush_out (SFsqrt prec emax (flush_in x)).

Definition arith : Arith spec_float := {|
  f_cast := IEEE.cast prec emax;
  f_of_pyfloat := IEEE.of_pyfloat prec emax;
  f_add := add;
  f_mul := mul;
  f_div := div;
  f_sqrt := sqrt;
  f_minimum := fun x y => IEEE.minimum (flush_in x) (flush_in y);
  f_maximum := fun x y => IEEE.maximum (flush_in x) (flush_in y)
|}.
End Format.

Definition of_dtype (md : FlushMode) (dt : DType) : Arith spec_float :=
  arith md (prec_of dt) (emax_of dt).
End Flushed.

(** ** The order of a reduction

    [tf.math.reduce_sum] adds the entries along the reduced axis in an order
    that TensorFlow does not fix: it depends on the shape of the tensor (the
    kernel adds in several lanes, each with its own accumulator, and copies
    the operand when the reduced axis has size 1).  An order of summation is
    a binary tree whose leaves are the indices along the reduced axis, each
    exactly once, and accumulators that start at zero. *)

Inductive SumTree : Type :=
| Leaf (i : nat)             (* the entry at index [i] *)
| Zero                       (* an accumulator initialised to zero *)
| Plus (l r : SumTree).      (* the sum of two partial sums *)

Fixpoint leaves (t : SumTree) : list nat :=
  match t with
  | Leaf i => [i]
  | Zero => []
  | Plus l r => leaves l ++ leaves r
  end.

(** The tree adds each of the [n] entries exactly once. *)
Definition covers (n : nat) (t : SumTree) : Prop :=
  Permutation (leaves t) (seq 0 n).

Fixpoint sum_by {F : Type} (A : Arith F) (t : SumTree) (xs : list F) : F :=
  match t with
  | Leaf i => nth i xs (f_cast 0)
  | Zero => f_cast 0
  | Plus l r => f_add (sum_by A l xs) (sum_by A r xs)
  end.

(** The index order: the accumulator starts at zero and the entries are
    added one after the other. *)
Fixpoint chain (n : nat) : SumTree :=
  match n with
  | O => Zero
  | S k => Plus (chain k) (Leaf k)
  end.

(** The order of every reduction of the program: for each shape and each
    entry of the output, the tree over the reduced axis. *)
Record ReductionOrder : Type := mkOrder {
  (* reduce_sum(axis=1) of a (B, T, H) tensor, entry (b, h) *)
  order3 : nat -> nat -> nat -> nat -> nat -> SumTree;
  (* reduce_sum(axis=1, keepdims=True) of a (B, H) tensor, entry (b, 0) *)
  order2 : nat -> nat -> nat -> SumTree
}.

Definition order_ok (R : ReductionOrder) : Prop :=
  (forall B T H b h, covers T (order3 R B T H b h))
  /\ (forall B H b, covers H (order2 R B H b)).

Definition index_order : ReductionOrder :=
  mkOrder (fun _ T _ _ _ => chain T) (fun _ H _ => chain H).

(** Four lanes: entry [i] goes to accumulator [i mod 4]; the accumulators are
    added pairwise at the end.  An axis of size 1 is copied. *)
Fixpoint lane (k : nat) (n : nat) : SumTree :=
  match n with
  | O => Zero
  | S j => if Nat.eqb (j mod 4) k then Plus (lane k j) (Leaf j) else lane k j
  end.

Definition lanes4 (n : nat) : SumTree :=
  match n with
  | 1 => Leaf 0
  | _ => Plus (Plus (lane 0 n) (lane 1 n)) (Plus (lane 2 n) (lane 3 n))
  end.

Definition lanes4_order : ReductionOrder :=
  mkOrder (fun _ T _ _ _ => lanes4 T) (fun _ H _ => lanes4 H).

Section OpsBy.
Variable F : Type.
Variable arith : DType -> Arith F.
Variable R : ReductionOrder.

(** The entries at index [h] of the vectors of a batch row. *)
Definition column (A : Arith F) (h : nat) (row : list (list F)) : list F :=
  map (fun v => nth h v (f_cast 0)) row.

(** [tf.math.reduce_sum(t, axis=1)] in the order [R]. *)
Definition reduce_sum_axis1_by (t : Tensor3 F) : Tensor2 F :=
  let '(B, T, H) := tf_shape (data3 t) in
  let A := arith (dtype3 t) in
  mkT2 (dtype3 t)
    (map (fun br =>
            map (fun h => sum_by A (order3 R B T H (fst br) h) (column A h (snd br)))
              (seq 0 H))
       (combine (seq 0 B) (data3 t))).

(** [tf.math.reduce_sum(t, axis=1, keepdims=True)] in the order [R]. *)
Definition reduce_sum_keepdims_by (t : Tensor2 F) : Tensor2 F :=
  let B := length (data2 t) in
  let H := length (hd [] (data2 t)) in
  let A := arith (dtype2 t) in
  mkT2 (dtype2 t)
    (map (fun br => [sum_by A (order2 R B H (fst br)) (snd br)])
       (combine (seq 0 B) (data2 t))).

Definition tf_linalg_normalize_by (t : Tensor2 F)
  : result (Tensor2 F * Tensor2 F) :=
  sq <- tf_mul2 arith t t ;;
  let norm := tf_sqrt arith (reduce_sum_keepdims_by sq) in
  normalized <- tf_div2 arith t norm ;;
  Ok (normalized, norm).

Definition mean_pooling_by (model_output : ModelOutput F)
    (attention_mask : IntTensor2) : result (Tensor2 F) :=
  let token_embeddings := last_hidden_state model_output in
  mask_expanded <- input_mask_expanded arith token_embeddings attention_mask ;;
  prod <- tf_mul3 arith token_embeddings mask_expanded ;;
  tf_div2 arith (reduce_sum_axis1_by prod)
    (tf_clip_by_value arith (reduce_sum_axis1_by mask_expanded)
       py_1e_9 py_float32_max).

Definition normalize_by (embeddings : Tensor2 F) : result (Tensor2 F) :=
  r <- tf_linalg_normalize_by embeddings ;;
  Ok (fst r).

End OpsBy.

(** One batch row in a given order. *)
Section RowsBy.
Variable F : Type.
Variable A : Arith F.

(** The sums of the columns of a row, column [h] in the order [ts h]. *)
Definition sum_columns (ts : nat -> SumTree) (H : nat) (row : list (list F))
  : list F :=
  map (fun h => sum_by A (ts h) (column A h row)) (seq 0 H).

Definition pool_row_by (ts : nat -> SumTree) (H : nat) (row : list (list F))
    (mrow : list Z) : list F :=
  div_row A (sum_columns ts H (zip_with (zip_with f_mul) row (mask_row A H mrow)))
    (map (clip A py_1e_9 py_float32_max) (sum_columns ts H (mask_row A H mrow))).

Definition normalize_row_by (t : SumTree) (row : list F) : list F :=
  div_row A row (map f_sqrt [sum_by A t (zip_with f_mul row row)]).
End RowsBy.

(** ** Sums of selected entries *)

(** The position of index [i] among the indices at which the mask is 1. *)
Definition rank (mrow : list Z) (i : nat) : nat := count_ones (firstn i mrow).

(** The order of summation with the masked indices left out: a leaf at a
    masked index becomes a zero, the other leaves are renumbered. *)
Fixpoint restrict (mrow : list Z) (t : SumTree) : SumTree :=
  match t with
  | Leaf i => if Z.eqb (nth i mrow 0%Z) 1 then Leaf (rank mrow i) else Zero
  | Zero => Zero
  | Plus l r => Plus (restrict mrow l) (restrict mrow r)
  end.

(** The mean of a list of vectors, the sum of column [h] being taken in the
    order [ts h]: the sum divided by the number of vectors. *)
Definition mean_in_order {F : Type} (A : Arith F) (ts : nat -> SumTree) (H : nat)
    (vs : list (list F)) : list F :=
  map (fun s => f_div s (f_cast (Z.of_nat (length vs)))) (sum_columns A ts H vs).

(** ** binary32 with flushing *)

Module F32m.
Definition A (md : FlushMode) : Arith spec_float := Flushed.of_dtype md float32.

(** A value as an operation with flushing delivers it. *)
Definition flushed (md : FlushMode) (x : spec_float) : spec_float :=
  Flushed.flush_out md 24 (Flushed.flush_in md 24 x).

(** Equality up to the sign of a zero. *)
Definition feq (x y : spec_float) : Prop :=
  x = y \/ (F32.is_zero x = true /\ F32.is_zero y = true).
End F32m.

(** ** Permutations of the positions *)



(** The number of unmasked leaves of a tree. *)
Definition ones_under (mrow : list Z) (t : SumTree) : nat :=
  length (filter (fun i => Z.eqb (nth i mrow 0%Z) 1) (leaves t)).

(** ** Real values and rounding errors in binary32 *)

Module F32Err.
(** A normal number: a full mantissa of 24 digits. *)
Definition normal (x : spec_float) : Prop :=
  match x with
  | S754_finite s m e =>
      bounded 24 128 m e = true /\ Zpos (digits2_pos m) = 24%Z
  | _ => False
  end.

Definition sgn (s : bool) : R := if s then (-1)%R else 1%R.

(** The unit of relative error: one unit in the last place of a number of
    [1, 2). *)
Definition u : R := Exact.pow2 (-23).
End F32Err.

(** The exact sum of a list of real numbers. *)
Definition sumR (l : list R) : R := fold_right Rplus 0%R l.

(** The exact sum of the entries that a tree adds. *)
Fixpoint tsum (vals : list R) (t : SumTree) : R :=
  match t with
  | Leaf i => nth i vals 0%R
  | Zero => 0%R
  | Plus l r => (tsum vals l + tsum vals r)%R
  end.

Definition nleaves (t : SumTree) : nat := length (leaves t).

Module F32Tree.
End F32Tree.

Module F32Norm.
(** A zero, or a normal number of magnitude between 2^-p and 2^q. *)
Definition in_range (p q : Z) (x : spec_float) : Prop :=
  F32.is_zero x = true
  \/ (F32Err.normal x
      /\ (Exact.pow2 (- p) <= Rabs (F32.real_value x) <= Exact.pow2 q)%R).

End F32Norm.

Module F32Unit.
End F32Unit.

(** Decidable ranges of binary32 values. *)
Module F32Range.
(** A normal number. *)
Definition normalb (x : spec_float) : bool :=
  match x with
  | S754_finite s m e => bounded 24 128 m e && Z.eqb (Zpos (digits2_pos m)) 24
  | _ => false
  end.

(** A zero, or a normal number of magnitude at least 2^-p and below 2^q. *)
Definition in_rangeb (p q : Z) (x : spec_float) : bool :=
  match x with
  | S754_zero _ => true
  | S754_finite s m e =>
      normalb x && Z.leb (- p) (e + 23) && Z.leb (e + 24) q
  | _ => false
  end.

End F32Range.

(** Zeros and normal numbers of both signs. *)
Module F32Signed.
(** A zero or a normal number. *)
Definition zn (x : spec_float) : Prop :=
  F32.is_zero x = true \/ F32Err.normal x.

(** A multiple of 2^g. *)
Definition on_grid (g : Z) (x : spec_float) : Prop :=
  exists N : Z, F32.real_value x = (IZR N * Exact.pow2 g)%R.
End F32Signed.

(** The absolute values of a list of binary32 numbers. *)
Definition abs_values (xs : list spec_float) : list R :=
  map (fun x => Rabs (F32.real_value x)) xs.

(** The arithmetic mean of the components [h] of a list of binary32
    vectors, as a real number, and the mean of their absolute values. *)
Definition real_mean (h : nat) (vs : list (list spec_float)) : R :=
  (sumR (map (fun v => F32.real_value (nth h v (F32.cast 0))) vs)
   / INR (length vs))%R.

Definition real_mean_abs (h : nat) (vs : list (list spec_float)) : R :=
  (sumR (map (fun v => Rabs (F32.real_value (nth h v (F32.cast 0)))) vs)
   / INR (length vs))%R.

(** Concrete inputs for the reductions in a given order. *)
Module RowExamples.
(** Subnormal numbers flushed to zero in the operands and in the results. *)
Definition flushing : FlushMode := mkMode true true.


End RowExamples.

(** * Properties *)

Ltac eval_float t := let v := eval vm_compute in t in change t with v.
Ltac eval_Z t := let v := eval vm_compute in t in change t with v.

(** ** Lists and the error monad *)

Lemma zip_with_length {A B C : Type} (f : A -> B -> C) (l : list A) (l' : list B) :
  length (zip_with f l l') = Nat.min (length l) (length l').
Proof.
  revert l'. induction l as [|a l IH]; intros [|b l']; cbn; auto.
Qed.

Lemma zip_with_repeat_r {A B C : Type} (f : A -> B -> C) (l : list A) (b : B) (n : nat) :
  (length l <= n)%nat -> zip_with f l (repeat b n) = map (fun a => f a b) l.
Proof.
  revert n. induction l as [|a l IH]; intros [|n] Hn; cbn in *; try reflexivity; try lia.
  f_equal. apply IH. lia.
Qed.

Lemma zip_with_repeat {A B C : Type} (f : A -> B -> C) (a : A) (b : B) (n : nat) :
  zip_with f (repeat a n) (repeat b n) = repeat (f a b) n.
Proof. induction n as [|n IH]; cbn; [reflexivity | now f_equal]. Qed.

Lemma zip_with_combine {A B C : Type} (f : A -> B -> C) (l : list A) (l' : list B) :
  zip_with f l l' = map (fun p => f (fst p) (snd p)) (combine l l').
Proof.
  revert l'. induction l as [|a l IH]; intros [|b l']; cbn; try reflexivity.
  now f_equal.
Qed.

Lemma zip_with_self {A C : Type} (f : A -> A -> C) (l : list A) :
  zip_with f l l = map (fun a => f a a) l.
Proof. induction l as [|a l IH]; cbn; [reflexivity | now f_equal]. Qed.

Lemma nth_error_zip_with {A B C : Type} (f : A -> B -> C) (l : list A) (l' : list B)
    (i : nat) (a : A) (b : B) :
  nth_error l i = Some a -> nth_error l' i = Some b ->
  nth_error (zip_with f l l') i = Some (f a b).
Proof.
  revert l' i. induction l as [|x l IH]; intros [|y l'] [|i]; cbn;
    try discriminate; try congruence.
  apply IH.
Qed.

Lemma map_repeat_eq {A B : Type} (f : A -> B) (a : A) (n : nat) :
  map f (repeat a n) = repeat (f a) n.
Proof. induction n as [|n IH]; cbn; [reflexivity | now f_equal]. Qed.

Lemma mapM_ok {A B : Type} (f : A -> result B) (g : A -> B) (l : list A) :
  (forall a, In a l -> f a = Ok (g a)) -> mapM f l = Ok (map g l).
Proof.
  induction l as [|a l IH]; intros Hf; cbn; [reflexivity|].
  rewrite (Hf a) by (left; reflexivity). cbn.
  rewrite IH by (intros x Hx; apply Hf; right; exact Hx). reflexivity.
Qed.

Lemma bind_ok_r {A : Type} (r : result A) : (x <- r ;; Ok x) = r.
Proof. destruct r; reflexivity. Qed.

Lemma dtype_eqb_refl (dt : DType) : dtype_eqb dt dt = true.
Proof. destruct dt; reflexivity. Qed.

Lemma dtype_eqb_eq (a b : DType) : dtype_eqb a b = true <-> a = b.
Proof. destruct a, b; cbn; split; congruence. Qed.

Lemma broadcast_axis_same {A : Type} (n : nat) (l : list A) :
  length l = n -> broadcast_axis n l = Ok l.
Proof. intros <-. unfold broadcast_axis. now rewrite Nat.eqb_refl. Qed.

Lemma broadcast_axis_singleton {A : Type} (n : nat) (x : A) :
  broadcast_axis n [x] = Ok (repeat x n).
Proof.
  unfold broadcast_axis. cbn [length].
  destruct (Nat.eqb_spec 1 n) as [<-|]; reflexivity.
Qed.

Lemma mapM_broadcast_hidden (H : nat) (mrow : list Z) :
  mapM (broadcast_axis H) (map (fun x => [x]) mrow)
  = Ok (map (fun x => repeat x H) mrow).
Proof.
  induction mrow as [|x mrow IH]; cbn [map mapM]; [reflexivity|].
  rewrite broadcast_axis_singleton, IH. reflexivity.
Qed.

(** Broadcasting a mask of shape (B, T) along the hidden axis. *)
Lemma broadcast_to_mask (B T H : nat) (mask : IntTensor2) :
  rect2 B T mask ->
  broadcast_to (expand_dims mask) (B, T, H)
  = Ok (map (fun mrow => map (fun x => repeat x H) mrow) mask).
Proof.
  intros [HB HT]. unfold broadcast_to, expand_dims.
  assert (E1 : mapM (fun row => mapM (broadcast_axis H) row)
                 (map (map (fun x => [x])) mask)
               = Ok (map (fun mrow => map (fun x => repeat x H) mrow) mask)).
  { clear. induction mask as [|mrow mask IH]; cbn [map mapM]; [reflexivity|].
    rewrite mapM_broadcast_hidden, IH. reflexivity. }
  rewrite E1. cbn [bind].
  rewrite (@mapM_ok _ _ _ (fun row => row)).
  - cbn [bind]. rewrite map_id. apply broadcast_axis_same.
    now rewrite length_map.
  - intros row Hin. apply in_map_iff in Hin as (mrow & <- & Hin).
    apply broadcast_axis_same. rewrite length_map.
    rewrite Forall_forall in HT. now apply HT.
Qed.

(** ** The tensor operations, row by row *)

Lemma tf_shape_rect {A : Type} (B T H : nat) (d : list (list (list A))) :
  rect3 B T H d -> (1 <= B)%nat -> (1 <= T)%nat -> tf_shape d = (B, T, H).
Proof.
  intros [HB HF] H1 H2. unfold tf_shape.
  destruct d as [|row d]; cbn in HB; [lia|].
  apply Forall_inv in HF. destruct HF as [HT HF'].
  destruct row as [|v row]; cbn in HT; [lia|].
  apply Forall_inv in HF'. cbn [hd]. cbn [length]. congruence.
Qed.

Section RowWise.
Variable F : Type.
Variable arith : DType -> Arith F.

Lemma input_mask_expanded_rows (B T H : nat) (te : Tensor3 F) (mask : IntTensor2) :
  rect3 B T H (data3 te) -> rect2 B T mask -> (1 <= B)%nat -> (1 <= T)%nat ->
  input_mask_expanded arith te mask
  = Ok (mkT3 float32 (map (mask_row (arith float32) H) mask)).
Proof.
  intros Hte Hmask HB HT. unfold input_mask_expanded.
  rewrite (tf_shape_rect Hte HB HT), (broadcast_to_mask H Hmask).
  cbn [bind]. unfold tf_cast, mask_row. now rewrite map_map.
Qed.

Lemma pool_rows_eq (H : nat) (d : list (list (list F))) (mask : IntTensor2) :
  let A := arith float32 in
  zip_with (div_row A)
    (map (sum_rows A)
       (zip_with (zip_with (zip_with f_mul)) d (map (mask_row A H) mask)))
    (map (map (clip A py_1e_9 py_float32_max))
       (map (sum_rows A) (map (mask_row A H) mask)))
  = zip_with (pool_row A H) d mask.
Proof.
  intros A. revert mask.
  induction d as [|row d IH]; intros [|mrow mask]; cbn [map zip_with];
    try reflexivity.
  rewrite IH. reflexivity.
Qed.

(** [mean_pooling] on float32 token embeddings of shape (B, T, H) and a mask
    of shape (B, T). *)
Lemma mean_pooling_rows (B T H : nat) (te : Tensor3 F) (mask : IntTensor2) :
  dtype3 te = float32 ->
  rect3 B T H (data3 te) -> rect2 B T mask -> (1 <= B)%nat -> (1 <= T)%nat ->
  mean_pooling arith (mkOut te) mask
  = Ok (mkT2 float32 (zip_with (pool_row (arith float32) H) (data3 te) mask)).
Proof.
  intros Hdt Hte Hmask HB HT. unfold mean_pooling. cbn [last_hidden_state].
  rewrite (input_mask_expanded_rows te Hte Hmask HB HT). cbn [bind].
  unfold tf_mul3. cbn [dtype3 data3]. rewrite Hdt. cbn [dtype_eqb bind].
  unfold tf_div2, tf_clip_by_value, reduce_sum_axis1.
  cbn [dtype2 dtype3 data2 data3 dtype_eqb].
  now rewrite pool_rows_eq.
Qed.

(** On token embeddings of another dtype the product with the float32 mask
    is refused. *)
Lemma mean_pooling_dtype_error (B T H : nat) (te : Tensor3 F) (mask : IntTensor2) :
  dtype3 te <> float32 ->
  rect3 B T H (data3 te) -> rect2 B T mask -> (1 <= B)%nat -> (1 <= T)%nat ->
  mean_pooling arith (mkOut te) mask = Err InvalidArgument_dtype.
Proof.
  intros Hdt Hte Hmask HB HT. unfold mean_pooling. cbn [last_hidden_state].
  rewrite (input_mask_expanded_rows te Hte Hmask HB HT). cbn [bind].
  unfold tf_mul3. cbn [dtype3].
  destruct (dtype_eqb (dtype3 te) float32) eqn:E; [|reflexivity].
  apply dtype_eqb_eq in E. contradiction.
Qed.

(** [normalize] never fails and acts on each row. *)
Lemma normalize_rows (t : Tensor2 F) :
  normalize arith t
  = Ok (mkT2 (dtype2 t) (map (normalize_row (arith (dtype2 t))) (data2 t))).
Proof.
  unfold normalize, tf_linalg_normalize, tf_mul2.
  rewrite dtype_eqb_refl. cbn [bind].
  unfold tf_div2, tf_sqrt, reduce_sum_keepdims. cbn [dtype2 data2].
  rewrite dtype_eqb_refl. cbn [bind fst]. do 2 f_equal.
  induction (data2 t) as [|row d IH]; cbn [map zip_with]; [reflexivity|].
  fold (@zip_with (list F) (list F) (list F)).
  rewrite <- IH. reflexivity.
Qed.

Lemma sum_rows_acc_length (A : Arith F) (H : nat) (l : list (list F)) (acc : list F) :
  Forall (fun v => length v = H) l -> length acc = H ->
  length (fold_left (zip_with f_add) l acc) = H.
Proof.
  revert acc. induction l as [|v l IH]; intros acc Hl Hacc; cbn; [assumption|].
  inversion Hl; subst. apply IH; [assumption|].
  rewrite zip_with_length. lia.
Qed.

Lemma sum_rows_length (A : Arith F) (H : nat) (l : list (list F)) :
  Forall (fun v => length v = H) l -> l <> [] -> length (sum_rows A l) = H.
Proof.
  intros Hl Hne. unfold sum_rows. apply sum_rows_acc_length; [assumption|].
  destruct l as [|v l]; [contradiction|]. cbn [hd].
  rewrite repeat_length. now inversion Hl.
Qed.
End RowWise.

(** ** Rounding in the binary formats *)

Open Scope Z_scope.

Lemma digits2_pos_size (m : positive) : digits2_pos m = Pos.size m.
Proof. induction m; simpl; congruence. Qed.

Lemma digits2_bounds (m : positive) :
  2 ^ (Zpos (digits2_pos m) - 1) <= Zpos m < 2 ^ Zpos (digits2_pos m).
Proof.
  rewrite digits2_pos_size. split.
  - pose proof (Pos.size_le m) as Hle.
    assert (H2 : 2 ^ Zpos (Pos.size m) <= 2 * Zpos m).
    { change 2 with (Zpos 2) at 1. rewrite <- Pos2Z.inj_pow. 
      change (2 * Z.pos m) with (Zpos (m~0)). apply Pos2Z.pos_le_pos. exact Hle. }
    replace (Zpos (Pos.size m)) with (Z.succ (Zpos (Pos.size m) - 1)) in H2 by lia.
    rewrite Z.pow_succ_r in H2 by lia. lia.
  - pose proof (Pos.size_gt m) as Hgt.
    change 2 with (Zpos 2). rewrite <- Pos2Z.inj_pow. apply Pos2Z.pos_lt_pos. exact Hgt.
Qed.

Lemma digits2_unique (m : positive) (d : Z) :
  2 ^ (d - 1) <= Zpos m < 2 ^ d -> Zpos (digits2_pos m) = d.
Proof.
  intros [Hlo Hhi]. pose proof (digits2_bounds m) as [Hlo' Hhi'].
  assert (0 < d). { destruct (Z_lt_le_dec 0 d); auto. 
    assert (2 ^ d <= 1). { destruct (Z.eq_dec d 0). subst. simpl. lia. rewrite Z.pow_neg_r by lia. lia. } lia. }
  destruct (Z_lt_le_dec (Zpos (digits2_pos m)) d) as [Hlt|Hge].
  - assert (2 ^ Zpos (digits2_pos m) <= 2 ^ (d - 1)) by (apply Z.pow_le_mono_r; lia). lia.
  - destruct (Z_lt_le_dec d (Zpos (digits2_pos m))) as [Hlt|Hge']; [|lia].
    assert (2 ^ d <= 2 ^ (Zpos (digits2_pos m) - 1)) by (apply Z.pow_le_mono_r; lia). lia.
Qed.

Lemma iter_pos_nat {A} (f : A -> A) (p : positive) (x : A) :
  iter_pos f p x = Nat.iter (Pos.to_nat p) f x.
Proof.
  revert x. induction p; intros x; cbn [iter_pos].
  - rewrite !IHp, Pos2Nat.inj_xI, <- Nat.iter_succ_r.
    replace (S (2 * Pos.to_nat p))%nat with (Pos.to_nat p + S (Pos.to_nat p))%nat by lia.
    rewrite Nat.iter_add, !Nat.iter_succ_r. reflexivity.
  - rewrite !IHp, Pos2Nat.inj_xO.
    replace (2 * Pos.to_nat p)%nat with (Pos.to_nat p + Pos.to_nat p)%nat by lia.
    rewrite Nat.iter_add. reflexivity.
  - reflexivity.
Qed.

(** Shifting the mantissa right by one digit and by [n] digits. *)
Lemma shr_1_m (r : shr_record) :
  0 <= shr_m r -> shr_m (shr_1 r) = shr_m r / 2.
Proof.
  destruct r as [m r s]. cbn [shr_m]. intros Hm.
  destruct m as [|p|p]; [reflexivity| |lia].
  destruct p; cbn [shr_1 shr_m].
  - rewrite Pos2Z.inj_xI. apply Z.div_unique with 1; lia.
  - rewrite Pos2Z.inj_xO. apply Z.div_unique with 0; lia.
  - reflexivity.
Qed.

Lemma shr_iter_m (n : nat) (r : shr_record) :
  0 <= shr_m r -> shr_m (Nat.iter n shr_1 r) = shr_m r / 2 ^ Z.of_nat n.
Proof.
  revert r. induction n as [|n IH]; intros r Hr.
  - cbn [Nat.iter]. change (2 ^ Z.of_nat 0) with 1. now rewrite Z.div_1_r.
  - rewrite Nat.iter_succ_r, IH by (rewrite shr_1_m by assumption; apply Z.div_pos; lia).
    rewrite shr_1_m by assumption.
    rewrite Nat2Z.inj_succ, Z.pow_succ_r by lia.
    rewrite Z.div_div by lia. reflexivity.
Qed.

Lemma shr_1_even (z : Z) :
  0 < z -> shr_1 (Build_shr_record (2 * z) false false) = Build_shr_record z false false.
Proof. destruct z; try lia. reflexivity. Qed.

Lemma shr_iter_exact (n : nat) (z : Z) :
  0 < z ->
  Nat.iter n shr_1 (Build_shr_record (z * 2 ^ Z.of_nat n) false false)
  = Build_shr_record z false false.
Proof.
  intros Hz. induction n as [|n IH].
  - cbn [Nat.iter]. change (2 ^ Z.of_nat 0) with 1. now rewrite Z.mul_1_r.
  - rewrite Nat.iter_succ_r, Nat2Z.inj_succ, Z.pow_succ_r by lia.
    replace (z * (2 * 2 ^ Z.of_nat n)) with (2 * (z * 2 ^ Z.of_nat n)) by ring.
    rewrite shr_1_even by (apply Z.mul_pos_pos; [lia | apply Z.pow_pos_nonneg; lia]).
    exact IH.
Qed.

Lemma shr_exact (z e j : Z) :
  0 < z -> 0 <= j ->
  shr (Build_shr_record (z * 2 ^ j) false false) e j
  = (Build_shr_record z false false, e + j).
Proof.
  intros Hz Hj. destruct j as [|p|p]; [| |lia].
  - cbn [shr]. change (2 ^ 0) with 1. rewrite Z.mul_1_r, Z.add_0_r. reflexivity.
  - cbn [shr]. rewrite iter_pos_nat.
    rewrite <- (positive_nat_Z p) at 1. rewrite shr_iter_exact by assumption. reflexivity.
Qed.

Section Rounding.
Variables prec emax : Z.
Hypothesis prec_pos : 0 < prec.

Lemma Zdigits2_mul_pow2 (m : positive) (j : Z) :
  0 <= j -> Zdigits2 (Zpos m * 2 ^ j) = Zpos (digits2_pos m) + j.
Proof.
  intros Hj. pose proof (digits2_bounds m) as [Hlo Hhi].
  assert (Hp : 0 < 2 ^ j) by (apply Z.pow_pos_nonneg; lia).
  destruct (Zpos m * 2 ^ j) as [|q|q] eqn:Hq; try lia.
  cbn [Zdigits2]. apply digits2_unique. rewrite <- Hq.
  replace (Zpos (digits2_pos m) + j - 1) with ((Zpos (digits2_pos m) - 1) + j) by lia.
  assert (0 <= Zpos (digits2_pos m) - 1) by lia.
  rewrite !Z.pow_add_r by lia. split.
  - apply Z.mul_le_mono_nonneg_r; lia.
  - apply Z.mul_lt_mono_pos_r; lia.
Qed.

(** A value that is representable is left unchanged by rounding. *)
Lemma binary_round_aux_exact (s : bool) (m : positive) (e j : Z) :
  bounded prec emax m e = true -> 0 <= j ->
  binary_round_aux prec emax s (Zpos m * 2 ^ j) (e - j) loc_Exact
  = S754_finite s m e.
Proof.
  intros Hb Hj. unfold bounded, canonical_mantissa in Hb.
  apply andb_true_iff in Hb as [Hc He]. apply Z.eqb_eq in Hc.
  unfold binary_round_aux, shr_fexp.
  rewrite Zdigits2_mul_pow2 by assumption.
  replace (Zpos (digits2_pos m) + j + (e - j)) with (Zpos (digits2_pos m) + e) by lia.
  rewrite Hc. replace (e - (e - j)) with j by lia.
  cbn [shr_record_of_loc]. rewrite shr_exact by lia.
  cbn [shr_m loc_of_shr_record round_nearest_even Zdigits2 shr_record_of_loc].
  replace (e - j + j) with e by lia.
  rewrite Hc, Z.sub_diag. cbn [shr shr_m]. rewrite He. reflexivity.
Qed.

Lemma shr_record_of_loc_m (m : Z) (l : location) :
  shr_m (shr_record_of_loc m l) = m.
Proof. destruct l as [|[]]; reflexivity. Qed.

Lemma shl_align_fst (m : positive) (e e' : Z) :
  e' <= e -> Zpos (fst (shl_align m e e')) = Zpos m * 2 ^ (e - e').
Proof.
  intros Hle. unfold shl_align.
  destruct (e' - e) as [|p|p] eqn:Hd; cbn [fst]; try lia.
  - replace (e - e') with 0 by lia. change (2 ^ 0) with 1. lia.
  - replace (e - e') with (Zpos p) by lia.
    change (Pos.iter xO m p) with (shift_pos p m).
    rewrite shift_pos_correct, Z.pow_pos_fold. lia.
Qed.

Lemma shl_align_snd (m : positive) (e e' : Z) :
  snd (shl_align m e e') = Z.min e e'.
Proof.
  unfold shl_align. destruct (e' - e) eqn:Hd; cbn [snd]; lia.
Qed.

Lemma SFadd_zero_r (a : spec_float) (s : bool) :
  not_neg_zero a -> SFadd prec emax a (S754_zero s) = a.
Proof.
  unfold not_neg_zero. intros Hnz.
  destruct a as [sa|sa| |sa ma ea]; try reflexivity.
  destruct sa, s; try reflexivity. congruence.
Qed.

End Rounding.

(** ** binary32 *)

Module F32Facts.
Import F32.

Lemma cast_0 : cast 0 = S754_zero false.
Proof. reflexivity. Qed.

Lemma cast_1 : cast 1 = S754_finite false 8388608 (-23).
Proof. reflexivity. Qed.

(** [x * 1.0] is [x]. *)
Lemma mul_one_r (x : spec_float) : valid x -> mul x (cast 1) = x.
Proof.
  unfold valid, mul. rewrite cast_1. intros Hv.
  destruct x as [s|s| |s m e]; cbn [SFmul]; rewrite ?xorb_false_r; try reflexivity.
  cbn [valid_binary] in Hv.
  rewrite Pos2Z.inj_mul. change (Zpos 8388608) with (2 ^ 23).
  replace (e + -23) with (e - 23) by lia.
  apply binary_round_aux_exact; [assumption | lia].
Qed.

(** [x * 0.0] is a zero when [x] is finite. *)
Lemma mul_zero_r (x : spec_float) :
  is_finite x = true -> exists s, mul x (cast 0) = S754_zero s.
Proof.
  destruct x as [s|s| |s m e]; cbn [is_finite]; try discriminate; intros _;
    eexists; reflexivity.
Qed.

(** The float of a positive integer below 2^24 is that integer. *)
Lemma cast_repr (q : positive) :
  Zpos q < 2 ^ 24 ->
  exists m,
    cast (Zpos q) = S754_finite false m (Zpos (digits2_pos q) - 24)
    /\ Zpos m = Zpos q * 2 ^ (24 - Zpos (digits2_pos q))
    /\ bounded 24 128 m (Zpos (digits2_pos q) - 24) = true.
Proof.
  intros Hq. pose proof (digits2_bounds q) as [Hlo Hhi].
  set (d := Zpos (digits2_pos q)) in *.
  assert (Hd : 1 <= d <= 24).
  { split; [unfold d; lia|].
    destruct (Z_lt_le_dec 24 d) as [Hgt|]; [|assumption].
    assert (2 ^ 24 <= 2 ^ (d - 1)) by (apply Z.pow_le_mono_r; lia). lia. }
  unfold cast, IEEE.cast, binary_normalize, binary_round.
  replace (Zpos (digits2_pos q) + 0) with d by (unfold d; lia).
  assert (Hf : fexp 24 128 d = d - 24) by (unfold fexp, emin; lia).
  rewrite Hf.
  pose proof (@shl_align_fst q 0 (d - 24)) as Hfst.
  pose proof (shl_align_snd q 0 (d - 24)) as Hsnd.
  destruct (shl_align q 0 (d - 24)) as [mz ez]. cbn [fst snd] in Hfst, Hsnd.
  specialize (Hfst ltac:(lia)).
  replace (0 - (d - 24)) with (24 - d) in Hfst by lia.
  assert (Hez : ez = d - 24) by lia. clear Hsnd. subst ez.
  assert (Hb : bounded 24 128 mz (d - 24) = true).
  { unfold bounded, canonical_mantissa. apply andb_true_iff. split.
    - apply Z.eqb_eq.
      assert (Hdm : Zpos (digits2_pos mz) = 24).
      { apply digits2_unique. rewrite Hfst.
        assert (E1 : 2 ^ (24 - 1) = 2 ^ (d - 1) * 2 ^ (24 - d))
          by (rewrite <- Z.pow_add_r by lia; f_equal; lia).
        assert (E2 : 2 ^ 24 = 2 ^ d * 2 ^ (24 - d))
          by (rewrite <- Z.pow_add_r by lia; f_equal; lia).
        assert (0 < 2 ^ (24 - d)) by (apply Z.pow_pos_nonneg; lia).
        rewrite E1, E2.
        split; [apply Z.mul_le_mono_nonneg_r; lia | apply Z.mul_lt_mono_pos_r; lia]. }
      rewrite Hdm. unfold fexp, emin. lia.
    - apply Z.leb_le. lia. }
  exists mz. split; [|split; assumption].
  pose proof (@binary_round_aux_exact 24 128 false mz (d - 24) 0 Hb ltac:(lia)) as Hr.
  change (2 ^ 0) with 1 in Hr. rewrite Z.mul_1_r, Z.sub_0_r in Hr. exact Hr.
Qed.

Lemma cast_2p24 : cast (2 ^ 24) = S754_finite false 8388608 1.
Proof. reflexivity. Qed.

(** Counting saturates at 2^24: the next integer is not a binary32 value. *)
Lemma count_saturates : add (cast (2 ^ 24)) (cast 1) = cast (2 ^ 24).
Proof. reflexivity. Qed.

Lemma cast_pos_shape (n : Z) :
  1 <= n <= 2 ^ 24 ->
  exists m e, cast n = S754_finite false m e /\ -23 <= e <= 1.
Proof.
  intros Hn. destruct (Z.eq_dec n (2 ^ 24)) as [->|Hne].
  - rewrite cast_2p24. eexists _, _. split; [reflexivity | lia].
  - destruct n as [|q|q]; try lia.
    destruct (@cast_repr q ltac:(lia)) as (m & Hc & _ & _).
    eexists _, _. split; [exact Hc|].
    pose proof (digits2_bounds q) as [Hlo Hhi].
    destruct (Z_lt_le_dec 24 (Zpos (digits2_pos q))) as [Hgt|]; [|lia].
    assert (2 ^ 24 <= 2 ^ (Zpos (digits2_pos q) - 1)) by (apply Z.pow_le_mono_r; lia). lia.
Qed.

(** Counting in binary32 is exact up to 2^24. *)
Lemma cast_succ (n : Z) :
  0 <= n < 2 ^ 24 -> add (cast n) (cast 1) = cast (n + 1).
Proof.
  intros Hn. destruct n as [|q|q]; try lia; [reflexivity|].
  destruct (Z.eq_dec (Zpos q) (2 ^ 24 - 1)) as [Heq|Hne].
  { rewrite Heq. vm_compute. reflexivity. }
  destruct (@cast_repr q ltac:(lia)) as (m & Hc & Hm & Hb).
  pose proof (digits2_bounds q) as [Hlo Hhi].
  set (d := Zpos (digits2_pos q)) in *.
  assert (Hd : 1 <= d <= 24).
  { split; [unfold d; lia|].
    destruct (Z_lt_le_dec 24 d) as [Hgt|]; [|assumption].
    assert (2 ^ 24 <= 2 ^ (d - 1)) by (apply Z.pow_le_mono_r; lia). lia. }
  unfold add. rewrite Hc, cast_1. cbn [SFadd cond_Zopp].
  replace (Z.min (d - 24) (-23)) with (-23) by lia.
  rewrite (@shl_align_fst m (d - 24) (-23)) by lia.
  change (fst (shl_align 8388608 (-23) (-23))) with 8388608%positive.
  replace (d - 24 - -23) with (d - 1) by lia.
  rewrite Hm, <- Z.mul_assoc, <- Z.pow_add_r by lia.
  replace (24 - d + (d - 1)) with 23 by lia.
  change (Zpos 8388608) with (2 ^ 23).
  replace (Zpos q * 2 ^ 23 + 2 ^ 23) with (Zpos (q + 1) * 2 ^ 23) by lia.
  (* the float of q + 1 *)
  destruct (@cast_repr (q + 1) ltac:(lia)) as (m' & Hc' & Hm' & Hb').
  pose proof (digits2_bounds (q + 1)) as [Hlo' Hhi'].
  set (d' := Zpos (digits2_pos (q + 1))) in *.
  assert (Hd' : 1 <= d' <= 24).
  { split; [unfold d'; lia|].
    destruct (Z_lt_le_dec 24 d') as [Hgt|]; [|assumption].
    assert (2 ^ 24 <= 2 ^ (d' - 1)) by (apply Z.pow_le_mono_r; lia). lia. }
  replace (Zpos q + 1) with (Zpos (q + 1)) by lia. rewrite Hc'.
  assert (Hz : Zpos (q + 1) * 2 ^ 23 = Zpos m' * 2 ^ (d' - 1)).
  { rewrite Hm', <- Z.mul_assoc, <- Z.pow_add_r by lia. f_equal. f_equal. lia. }
  destruct (Zpos (q + 1) * 2 ^ 23) as [|r|r] eqn:Hr; try lia.
  unfold binary_normalize, binary_round.
  assert (Hdr : Zpos (digits2_pos r) = d' + 23).
  { pose proof (@Zdigits2_mul_pow2 (q + 1) 23 ltac:(lia)) as Hdg.
    rewrite Hr in Hdg. exact Hdg. }
  rewrite Hdr.
  assert (Hf : fexp 24 128 (d' + 23 + -23) = d' - 24) by (unfold fexp, emin; lia).
  rewrite Hf.
  assert (Hsh : shl_align r (-23) (d' - 24) = (r, -23)).
  { unfold shl_align. destruct (d' - 24 - -23) eqn:Hs; try reflexivity; lia. }
  rewrite Hsh, Hz.
  replace (-23) with ((d' - 24) - (d' - 1)) by lia.
  apply binary_round_aux_exact; [assumption | lia].
Qed.
End F32Facts.

(** ** Masked mean pooling of one row in binary32 *)

Module F32Pool.
Import F32 F32Facts.

Lemma not_neg_zero_cast (n : Z) : 0 <= n <= 2 ^ 24 -> not_neg_zero (cast n).
Proof.
  intros Hn. unfold not_neg_zero.
  destruct (Z.eq_dec n 0) as [->|Hne]; [discriminate|].
  destruct (@cast_pos_shape n ltac:(lia)) as (m & e & -> & _). discriminate.
Qed.

Lemma add_cast_0 (n : Z) : 0 <= n <= 2 ^ 24 -> add (cast n) (cast 0) = cast n.
Proof. intros Hn. apply SFadd_zero_r. now apply not_neg_zero_cast. Qed.

Lemma mask_row_cons (H : nat) (m : Z) (mrow : list Z) :
  mask_row A H (m :: mrow) = repeat (cast m) H :: mask_row A H mrow.
Proof. unfold mask_row. cbn [map]. now rewrite map_repeat_eq. Qed.

Lemma count_ones_cons (m : Z) (mrow : list Z) :
  count_ones (m :: mrow)
  = ((if Z.eqb m 1 then 1 else 0) + count_ones mrow)%nat.
Proof. unfold count_ones. cbn [filter]. now destruct (Z.eqb m 1). Qed.

(** The sum of the mask is the number of its ones. *)
Lemma mask_sum_acc (H : nat) (mrow : list Z) (j : Z) :
  binary_mask mrow -> 0 <= j -> j + Z.of_nat (count_ones mrow) <= 2 ^ 24 ->
  fold_left (zip_with add) (mask_row A H mrow) (repeat (cast j) H)
  = repeat (cast (j + Z.of_nat (count_ones mrow))) H.
Proof.
  revert j. induction mrow as [|m mrow IH]; intros j Hm Hj Hk.
  - cbn. now rewrite Z.add_0_r.
  - rewrite mask_row_cons. cbn [fold_left]. rewrite zip_with_repeat.
    rewrite count_ones_cons in *. inversion Hm as [|? ? [-> | ->] Hm']; subst.
    + cbn [Z.eqb Nat.add] in *. rewrite add_cast_0 by lia. now apply IH.
    + cbn [Z.eqb Pos.eqb] in *. rewrite cast_succ by lia.
      rewrite IH by (trivial; lia). f_equal. f_equal. lia.
Qed.

Lemma mask_sum (H : nat) (mrow : list Z) :
  binary_mask mrow -> mrow <> [] -> Z.of_nat (count_ones mrow) <= 2 ^ 24 ->
  sum_rows A (mask_row A H mrow) = repeat (cast (Z.of_nat (count_ones mrow))) H.
Proof.
  intros Hm Hne Hk. unfold sum_rows.
  destruct mrow as [|m mrow]; [contradiction|].
  rewrite mask_row_cons at 2. cbn [hd]. rewrite repeat_length.
  change (@f_cast _ A 0) with (cast 0). change (@f_add _ A) with add.
  now rewrite mask_sum_acc by (trivial; lia).
Qed.

(** A count between 1 and 2^24 is inside the clipping range. *)
Lemma clip_cast (k : Z) :
  1 <= k <= 2 ^ 24 -> clip A py_1e_9 py_float32_max (cast k) = cast k.
Proof.
  intros Hk. destruct (cast_pos_shape Hk) as (m & e & -> & He).
  unfold clip.
  change (@f_of_pyfloat _ A py_float32_max) with (S754_finite false 16777215 104).
  change (@f_of_pyfloat _ A py_1e_9) with (S754_finite false 9007199 (-53)).
  change (@f_minimum _ A) with IEEE.minimum.
  change (@f_maximum _ A) with IEEE.maximum.
  unfold IEEE.minimum, IEEE.maximum, SFltb. cbn [SFcompare].
  assert (E1 : (e ?= 104) = Lt) by (apply Z.compare_lt_iff; lia).
  rewrite E1.
  assert (E2 : (-53 ?= e) = Lt) by (apply Z.compare_lt_iff; lia).
  cbn [SFcompare]. rewrite E2. reflexivity.
Qed.

Lemma clip_zero :
  clip A py_1e_9 py_float32_max (cast 0) = S754_finite false 9007199 (-53).
Proof. reflexivity. Qed.

Lemma mul_mask_zero (H : nat) (v : list spec_float) :
  length v = H -> Forall (fun x => is_finite x = true) v ->
  length (zip_with mul v (repeat (cast 0) H)) = H
  /\ Forall (fun z => is_zero z = true) (zip_with mul v (repeat (cast 0) H)).
Proof.
  intros Hl Hv. rewrite zip_with_repeat_r by lia. split.
  - now rewrite length_map.
  - clear Hl. induction Hv as [|x v Hx Hv IH]; cbn [map]; constructor; trivial.
    destruct (mul_zero_r x Hx) as [s ->]. reflexivity.
Qed.

(** Adding zeros leaves an accumulator without negative zero unchanged. *)
Lemma add_zeros (acc zs : list spec_float) :
  length acc = length zs -> acc_ok acc ->
  Forall (fun z => is_zero z = true) zs -> zip_with add acc zs = acc.
Proof.
  revert zs. induction acc as [|a acc IH]; intros [|z zs] Hl Hacc Hz;
    cbn in Hl; try discriminate; [reflexivity|].
  inversion Hacc as [|? ? [Ha _] Hacc']; subst.
  inversion Hz as [|? ? Hz0 Hz']; subst.
  cbn [zip_with]. fold (@zip_with spec_float spec_float spec_float).
  destruct z; try discriminate.
  unfold add at 1. rewrite SFadd_zero_r by assumption.
  f_equal. apply IH; trivial. lia.
Qed.

Lemma unmasked_length {F : Type} (row : list (list F)) (mrow : list Z) :
  length row = length mrow -> length (unmasked row mrow) = count_ones mrow.
Proof.
  revert mrow. induction row as [|v row IH]; intros [|m mrow] Hl;
    cbn in Hl; try discriminate; [reflexivity|].
  rewrite count_ones_cons. unfold unmasked. cbn [combine filter snd].
  destruct (Z.eqb m 1); cbn [map length]; rewrite <- (IH mrow) by lia; reflexivity.
Qed.

Lemma acc_ok_zeros (H : nat) : acc_ok (repeat (cast 0) H).
Proof.
  apply Forall_forall. intros x Hx. apply repeat_spec in Hx. subst.
  split; [discriminate | exact I].
Qed.

End F32Pool.

Module F32PoolZero.
Import F32 F32Facts F32Pool.

Lemma count_ones_zero (mrow : list Z) :
  Forall (fun m => m = 0) mrow -> count_ones mrow = 0%nat.
Proof.
  induction 1 as [|m mrow -> _ IH]; [reflexivity|].
  rewrite count_ones_cons, IH. reflexivity.
Qed.

Lemma numerator_all_masked (H : nat) (row : list (list spec_float))
    (mrow : list Z) (acc : list spec_float) :
  Forall (fun v => length v = H) row ->
  Forall (Forall (fun x => is_finite x = true)) row ->
  Forall (fun m => m = 0) mrow ->
  length acc = H -> acc_ok acc ->
  fold_left (zip_with add) (zip_with (zip_with mul) row (mask_row A H mrow)) acc
  = acc.
Proof.
  revert mrow. induction row as [|v row IH]; intros [|m mrow]
    Hlen Hfin Hmask Hacc Hok; try reflexivity.
  rewrite mask_row_cons. cbn [zip_with fold_left].
  fold (@zip_with (list spec_float) (list spec_float) (list spec_float)).
  pose proof (Forall_inv Hlen) as Hv. cbn beta in Hv.
  rewrite (Forall_inv Hmask).
  destruct (mul_mask_zero Hv (Forall_inv Hfin)) as [Hzl Hzz].
  rewrite add_zeros by (trivial; lia).
  apply IH; trivial; eapply Forall_inv_tail; eassumption.
Qed.

(** The pooled row of a fully masked row of finite values. *)
Lemma pool_row_all_masked (H : nat) (row : list (list spec_float)) (mrow : list Z) :
  Forall (fun v => length v = H) row -> length row = length mrow ->
  mrow <> [] ->
  Forall (Forall (fun x => is_finite x = true)) row ->
  Forall (fun m => m = 0) mrow ->
  pool_row A H row mrow = repeat pos_zero H.
Proof.
  intros Hlen Hl Hne Hfin Hmask.
  assert (Hbin : binary_mask mrow)
    by (eapply Forall_impl; [|exact Hmask]; intros m ->; now left).
  unfold pool_row.
  rewrite mask_sum by (trivial; rewrite count_ones_zero by assumption; cbn; lia).
  rewrite count_ones_zero by assumption.
  rewrite map_repeat_eq. change (Z.of_nat 0) with 0. rewrite clip_zero.
  assert (Hnum : sum_rows A (zip_with (zip_with (@f_mul _ A)) row (mask_row A H mrow))
                 = repeat pos_zero H).
  { unfold sum_rows.
    change (@f_cast _ A 0) with (cast 0). change (@f_add _ A) with add.
    change (@f_mul _ A) with mul.
    destruct row as [|v row]; [destruct mrow; [contradiction | discriminate]|].
    destruct mrow as [|m mrow]; [contradiction|].
    assert (Hv : length v = H) by now inversion Hlen.
    assert (Hh1 : length (hd [] (zip_with (zip_with mul) (v :: row)
                                   (mask_row A H (m :: mrow)))) = H).
    { rewrite mask_row_cons. cbn [zip_with hd].
      rewrite zip_with_length, repeat_length. lia. }
    rewrite Hh1.
    apply numerator_all_masked; trivial.
    - now rewrite repeat_length.
    - apply acc_ok_zeros. }
  rewrite Hnum. unfold div_row.
  destruct (repeat (S754_finite false 9007199 (-53)) H) as [|c [|c' cs]] eqn:E.
  - destruct H; [reflexivity | discriminate].
  - destruct H as [|[|H]]; try discriminate. cbn in E. inversion E. reflexivity.
  - rewrite <- E, zip_with_repeat. reflexivity.
Qed.
End F32PoolZero.

Close Scope Z_scope.

(** ** Rows agreeing at the unmasked positions *)

Lemma agree_unmasked_eq {F : Type} (row row' : list (list F)) (mrow : list Z) :
  agree_unmasked row row' mrow -> unmasked row mrow = unmasked row' mrow.
Proof.
  revert row' mrow. induction row as [|v row IH]; intros [|v' row'] mrow [Hl Hn];
    cbn in Hl; try discriminate; [reflexivity|].
  destruct mrow as [|m mrow]; [reflexivity|].
  unfold unmasked. cbn [combine filter snd].
  assert (Htl : unmasked row mrow = unmasked row' mrow).
  { apply IH. split; [lia|]. intros t Ht. exact (Hn (S t) Ht). }
  unfold unmasked in Htl.
  destruct (Z.eqb_spec m 1) as [->|Hm]; cbn [map fst].
  - specialize (Hn 0%nat eq_refl). cbn in Hn. inversion Hn. now rewrite Htl.
  - exact Htl.
Qed.

(** ** Normalising a zero row in a binary format *)

Section ZeroRow.
Variables prec emax : Z.

Lemma sum_zeros (zs : list spec_float) :
  Forall (fun z => F32.is_zero z = true) zs ->
  fold_left (SFadd prec emax) zs (S754_zero false) = S754_zero false.
Proof.
  induction 1 as [|z zs Hz _ IH]; [reflexivity|].
  destruct z as [[|]| | |]; try discriminate; exact IH.
Qed.

Lemma squares_zeros (zs : list spec_float) :
  Forall (fun z => F32.is_zero z = true) zs ->
  Forall (fun z => F32.is_zero z = true) (zip_with (SFmul prec emax) zs zs).
Proof.
  induction 1 as [|z zs Hz _ IH]; cbn [zip_with]; constructor; [|exact IH].
  destruct z; try discriminate. reflexivity.
Qed.

Lemma normalize_row_zeros (zs : list spec_float) :
  Forall (fun z => F32.is_zero z = true) zs ->
  normalize_row (IEEE.arith prec emax) zs = map (fun _ => S754_nan) zs.
Proof.
  intros Hz. unfold normalize_row, sum_list, div_row. cbn [map].
  change (@f_add _ (IEEE.arith prec emax)) with (SFadd prec emax).
  change (@f_mul _ (IEEE.arith prec emax)) with (SFmul prec emax).
  change (@f_cast _ (IEEE.arith prec emax) 0%Z) with (S754_zero false).
  rewrite (sum_zeros (squares_zeros Hz)).
  change (@f_sqrt _ (IEEE.arith prec emax) (S754_zero false)) with (S754_zero false).
  induction Hz as [|z zs Hz0 _ IH]; cbn [map]; [reflexivity|].
  rewrite IH. destruct z; try discriminate. reflexivity.
Qed.
End ZeroRow.

(** ** Shapes of the results *)

Lemma div_row_length {F : Type} (A : Arith F) (a b : list F) :
  length a = length b -> length (div_row A a b) = length a.
Proof.
  intros Hl. unfold div_row. destruct b as [|n [|n' b]].
  - rewrite zip_with_length. cbn in *. lia.
  - now rewrite length_map.
  - rewrite zip_with_length. lia.
Qed.

Lemma mask_row_rect {F : Type} (A : Arith F) (H : nat) (mrow : list Z) :
  rect2 (length mrow) H (mask_row A H mrow).
Proof.
  unfold mask_row. split; [now rewrite !length_map|].
  rewrite map_map. apply Forall_forall. intros v Hv.
  apply in_map_iff in Hv as (m & <- & _). now rewrite length_map, repeat_length.
Qed.

Lemma pool_row_length {F : Type} (A : Arith F) (T H : nat)
    (row : list (list F)) (mrow : list Z) :
  rect2 T H row -> length mrow = T -> (1 <= T)%nat ->
  length (pool_row A H row mrow) = H.
Proof.
  intros [Hl Hv] Hm HT. unfold pool_row.
  destruct (mask_row_rect A H mrow) as [Hml Hmv].
  assert (H1 : length (sum_rows A (zip_with (zip_with f_mul) row (mask_row A H mrow))) = H).
  { apply sum_rows_length.
    - rewrite zip_with_combine. apply Forall_forall. intros v Hin.
      apply in_map_iff in Hin as ([x y] & <- & Hxy). cbn [fst snd].
      rewrite zip_with_length.
      rewrite Forall_forall in Hv, Hmv.
      rewrite (Hv x (in_combine_l _ _ _ _ Hxy)), (Hmv y (in_combine_r _ _ _ _ Hxy)).
      lia.
    - intros E. apply (f_equal (@length _)) in E.
      rewrite zip_with_length, Hml in E. cbn in E. lia. }
  assert (H2 : length (sum_rows A (mask_row A H mrow)) = H).
  { apply sum_rows_length; [exact Hmv|].
    intros E. apply (f_equal (@length _)) in E. rewrite Hml in E. cbn in E. lia. }
  rewrite div_row_length by (rewrite length_map; congruence). exact H1.
Qed.

Lemma pool_rows_rect {F : Type} (A : Arith F) (B T H : nat)
    (d : list (list (list F))) (mask : IntTensor2) :
  rect3 B T H d -> rect2 B T mask -> (1 <= T)%nat ->
  rect2 B H (zip_with (pool_row A H) d mask).
Proof.
  intros [HB Hd] [HB' Hm] HT. split.
  - rewrite zip_with_length. lia.
  - rewrite zip_with_combine. apply Forall_forall. intros r Hin.
    apply in_map_iff in Hin as ([row mrow] & <- & Hxy). cbn [fst snd].
    rewrite Forall_forall in Hd, Hm.
    apply pool_row_length with (T := T); trivial.
    + apply Hd. eapply in_combine_l; eassumption.
    + apply Hm. eapply in_combine_r; eassumption.
Qed.

(** ** Reductions in a given order, row by row *)

Lemma nth_error_combine_seq {A : Type} (l : list A) (n b : nat) (x : A) :
  length l = n -> nth_error l b = Some x ->
  nth_error (combine (seq 0 n) l) b = Some (b, x).
Proof.
  intros Hl Hx.
  assert (Hb : (b < n)%nat) by (rewrite <- Hl; apply nth_error_Some; congruence).
  assert (G : forall (s : nat) (l : list A) (b : nat) (x : A),
            nth_error l b = Some x ->
            nth_error (combine (seq s (length l)) l) b = Some ((s + b)%nat, x)).
  { clear. intros s l. revert s. induction l as [|a l IH]; intros s [|b] x Hx;
      cbn in *; try discriminate.
    - inversion Hx. now rewrite Nat.add_0_r.
    - rewrite (IH (S s) b x Hx). f_equal. f_equal. lia. }
  subst n. now rewrite (G 0%nat l b x Hx).
Qed.

Lemma zip3_rect {F : Type} (f : F -> F -> F) (B T H : nat)
    (d d' : list (list (list F))) :
  rect3 B T H d -> rect3 B T H d' ->
  rect3 B T H (zip_with (zip_with (zip_with f)) d d').
Proof.
  intros [HB Hd] [HB' Hd']. split; [rewrite zip_with_length; lia|].
  rewrite zip_with_combine. apply Forall_forall. intros r Hin.
  apply in_map_iff in Hin as ([x y] & <- & Hxy). cbn [fst snd].
  rewrite Forall_forall in Hd, Hd'.
  destruct (Hd x (in_combine_l _ _ _ _ Hxy)) as [HT Hx].
  destruct (Hd' y (in_combine_r _ _ _ _ Hxy)) as [HT' Hy].
  split; [rewrite zip_with_length; lia|].
  rewrite zip_with_combine. apply Forall_forall. intros v Hin.
  apply in_map_iff in Hin as ([u w] & <- & Huw). cbn [fst snd].
  rewrite Forall_forall in Hx, Hy.
  rewrite zip_with_length, (Hx u (in_combine_l _ _ _ _ Huw)),
    (Hy w (in_combine_r _ _ _ _ Huw)). lia.
Qed.

Lemma mask_rect3 {F : Type} (A : Arith F) (B T H : nat) (mask : IntTensor2) :
  rect2 B T mask -> rect3 B T H (map (mask_row A H) mask).
Proof.
  intros [HB Hm]. split; [now rewrite length_map|].
  apply Forall_forall. intros r Hin.
  apply in_map_iff in Hin as (mrow & <- & Hin).
  rewrite Forall_forall in Hm. rewrite <- (Hm mrow Hin).
  apply mask_row_rect.
Qed.

Section RowWiseBy.
Variable F : Type.
Variable arith : DType -> Arith F.
Variable R : ReductionOrder.

Lemma reduce_sum_axis1_by_row (B T H b : nat) (t : Tensor3 F)
    (row : list (list F)) :
  rect3 B T H (data3 t) -> (1 <= B)%nat -> (1 <= T)%nat ->
  nth_error (data3 t) b = Some row ->
  nth_error (data2 (reduce_sum_axis1_by arith R t)) b
  = Some (sum_columns (arith (dtype3 t)) (order3 R B T H b) H row).
Proof.
  intros Hr HB HT Hb. unfold reduce_sum_axis1_by.
  rewrite (tf_shape_rect Hr HB HT). cbn [data2].
  rewrite nth_error_map.
  rewrite (@nth_error_combine_seq _ (data3 t) B b row (proj1 Hr) Hb).
  reflexivity.
Qed.

Lemma reduce_sum_axis1_by_dtype (t : Tensor3 F) :
  dtype2 (reduce_sum_axis1_by arith R t) = dtype3 t.
Proof.
  unfold reduce_sum_axis1_by. now destruct (tf_shape (data3 t)) as [[B T] H].
Qed.

Lemma reduce_sum_axis1_by_length (B T H : nat) (t : Tensor3 F) :
  rect3 B T H (data3 t) -> (1 <= B)%nat -> (1 <= T)%nat ->
  length (data2 (reduce_sum_axis1_by arith R t)) = B.
Proof.
  intros Hr HB HT. unfold reduce_sum_axis1_by.
  rewrite (tf_shape_rect Hr HB HT). cbn [data2].
  rewrite length_map, length_combine, length_seq, (proj1 Hr). lia.
Qed.

(** A row of the result of [mean_pooling_by] on float32 token embeddings of
    shape (B, T, H) and a mask of shape (B, T). *)
Lemma mean_pooling_by_row (B T H b : nat) (te : Tensor3 F) (mask : IntTensor2)
    (row : list (list F)) (mrow : list Z) :
  dtype3 te = float32 ->
  rect3 B T H (data3 te) -> rect2 B T mask -> (1 <= T)%nat ->
  nth_error (data3 te) b = Some row -> nth_error mask b = Some mrow ->
  exists out,
    mean_pooling_by arith R (mkOut te) mask = Ok out
    /\ dtype2 out = float32
    /\ length (data2 out) = B
    /\ nth_error (data2 out) b
       = Some (pool_row_by (arith float32) (order3 R B T H b) H row mrow).
Proof.
  intros Hdt Hte Hmask HT Hrow Hmrow.
  assert (HB : (1 <= B)%nat).
  { rewrite <- (proj1 Hte). assert (b < length (data3 te))%nat; [|lia].
    apply nth_error_Some. congruence. }
  unfold mean_pooling_by. cbn [last_hidden_state].
  rewrite (input_mask_expanded_rows arith te Hte Hmask HB HT). cbn [bind].
  unfold tf_mul3. cbn [dtype3 data3]. rewrite Hdt. cbn [dtype_eqb bind].
  set (A := arith float32).
  set (prod := mkT3 float32 (zip_with (zip_with (zip_with f_mul)) (data3 te)
                               (map (mask_row A H) mask))).
  set (ime := mkT3 float32 (map (mask_row A H) mask)).
  assert (Hprod : rect3 B T H (data3 prod))
    by (apply zip3_rect; [exact Hte | now apply mask_rect3]).
  assert (Hime : rect3 B T H (data3 ime)) by now apply mask_rect3.
  unfold tf_div2, tf_clip_by_value. cbn [dtype2 data2].
  rewrite !reduce_sum_axis1_by_dtype. cbn [dtype3 prod ime dtype_eqb].
  eexists. split; [reflexivity|]. cbn [dtype2 data2].
  split; [reflexivity|]. split.
  - rewrite zip_with_length, length_map,
      (reduce_sum_axis1_by_length prod Hprod HB HT),
      (reduce_sum_axis1_by_length ime Hime HB HT). lia.
  - unfold pool_row_by. apply nth_error_zip_with.
    + rewrite (@reduce_sum_axis1_by_row B T H b prod
                 (zip_with (zip_with f_mul) row (mask_row A H mrow))); trivial.
      cbn [data3 prod]. apply nth_error_zip_with; [exact Hrow|].
      rewrite nth_error_map, Hmrow. reflexivity.
    + rewrite nth_error_map.
      rewrite (@reduce_sum_axis1_by_row B T H b ime (mask_row A H mrow)); trivial.
      cbn [data3 ime]. rewrite nth_error_map, Hmrow. reflexivity.
Qed.

(** [normalize_by] never fails and acts on each row. *)
Lemma normalize_by_row (t : Tensor2 F) (b : nat) (row : list F) :
  nth_error (data2 t) b = Some row ->
  exists out,
    normalize_by arith R t = Ok out
    /\ dtype2 out = dtype2 t
    /\ length (data2 out) = length (data2 t)
    /\ nth_error (data2 out) b
       = Some (normalize_row_by (arith (dtype2 t))
                 (order2 R (length (data2 t)) (length (hd [] (data2 t))) b) row).
Proof.
  intros Hrow.
  unfold normalize_by, tf_linalg_normalize_by, tf_mul2.
  rewrite dtype_eqb_refl. cbn [bind].
  unfold tf_div2, tf_sqrt, reduce_sum_keepdims_by. cbn [dtype2 data2].
  rewrite dtype_eqb_refl. cbn [bind fst].
  eexists. split; [reflexivity|]. cbn [dtype2 data2].
  split; [reflexivity|].
  set (A := arith (dtype2 t)).
  set (sq := zip_with (zip_with f_mul) (data2 t) (data2 t)).
  assert (Hsq : length sq = length (data2 t))
    by (unfold sq; rewrite zip_with_length; lia).
  split.
  - rewrite zip_with_length, !length_map, length_combine, length_seq, Hsq. lia.
  - unfold normalize_row_by. apply nth_error_zip_with; [exact Hrow|].
    rewrite nth_error_map, nth_error_map.
    rewrite (@nth_error_combine_seq _ sq (length sq) b (zip_with f_mul row row)
               eq_refl).
    + cbn [option_map fst snd map]. rewrite Hsq.
      assert (Hh : length (hd [] sq) = length (hd [] (data2 t))).
      { unfold sq. destruct (data2 t) as [|r d]; [reflexivity|].
        cbn [zip_with hd]. rewrite zip_with_length. lia. }
      rewrite Hh. reflexivity.
    + unfold sq. now apply nth_error_zip_with.
Qed.
End RowWiseBy.

Open Scope Z_scope.

Module F32Sum.
Import F32 F32Facts F32Pool.

(** The float of an integer between 1 and 2^24. *)
Lemma cast_normal (n : positive) :
  Zpos n <= 2 ^ 24 ->
  exists m e,
    cast (Zpos n) = S754_finite false m e
    /\ bounded 24 128 m e = true
    /\ e = Zpos (digits2_pos n) - 24
    /\ -23 <= e <= 1
    /\ forall j, 0 <= j -> 0 <= e + j -> Zpos n * 2 ^ j = Zpos m * 2 ^ (e + j).
Proof.
  intros Hn. destruct (Z.eq_dec (Zpos n) (2 ^ 24)) as [Heq|Hne].
  - change (2 ^ 24) with 16777216 in Heq.
    assert (n = 16777216%positive) by (clear - Heq; congruence). subst n.
    exists 8388608%positive, 1. repeat split; try reflexivity; try lia.
    intros j Hj0 Hj. rewrite Z.pow_add_r by lia.
    change (2 ^ 1) with 2. lia.
  - destruct (@cast_repr n ltac:(lia)) as (m & Hc & Hm & Hb).
    pose proof (digits2_bounds n) as [Hlo Hhi].
    set (d := Zpos (digits2_pos n)) in *.
    assert (Hd : 1 <= d <= 24).
    { split; [unfold d; lia|].
      destruct (Z_lt_le_dec 24 d) as [Hgt|]; [|assumption].
      assert (2 ^ 24 <= 2 ^ (d - 1)) by (apply Z.pow_le_mono_r; lia). lia. }
    exists m, (d - 24). repeat split; trivial; try lia.
    intros j Hj0 Hj. rewrite Hm, <- Z.mul_assoc, <- Z.pow_add_r by lia.
    f_equal. f_equal. lia.
Qed.

(** An integer up to 2^24 written with a larger mantissa is rounded to its
    float. *)
Lemma normalize_shifted (n : positive) (j : Z) :
  Zpos n <= 2 ^ 24 -> 0 <= j -> 24 - Zpos (digits2_pos n) <= j ->
  binary_normalize 24 128 (Zpos n * 2 ^ j) (- j) false = cast (Zpos n).
Proof.
  intros Hn Hj Hd.
  destruct (cast_normal Hn) as (m & e & Hc & Hb & He & Hr & Hz).
  rewrite Hc. specialize (Hz j Hj ltac:(lia)).
  assert (Hp : 0 < 2 ^ j) by (apply Z.pow_pos_nonneg; lia).
  destruct (Zpos n * 2 ^ j) as [|r|r] eqn:Hrr; try lia.
  unfold binary_normalize, binary_round.
  assert (Hdr : Zpos (digits2_pos r) = Zpos (digits2_pos n) + j).
  { pose proof (@Zdigits2_mul_pow2 n j Hj) as Hdg. rewrite Hrr in Hdg. exact Hdg. }
  rewrite Hdr.
  assert (Hf : fexp 24 128 (Zpos (digits2_pos n) + j + - j) = e)
    by (unfold fexp, emin; lia).
  rewrite Hf.
  assert (Hsh : shl_align r (- j) e = (r, - j)).
  { unfold shl_align. destruct (e - - j) eqn:Hs; try reflexivity; lia. }
  rewrite Hsh, Hz.
  replace (- j) with (e - (e + j)) by lia.
  apply binary_round_aux_exact; [assumption | lia].
Qed.

(** Adding integers in binary32 is exact up to 2^24. *)
Lemma cast_add (a b : Z) :
  0 <= a -> 0 <= b -> a + b <= 2 ^ 24 -> add (cast a) (cast b) = cast (a + b).
Proof.
  intros Ha Hb Hab.
  destruct a as [|p|p]; try lia.
  { destruct b as [|q|q]; try lia; [reflexivity|].
    destruct (@cast_normal q ltac:(lia)) as (m & e & Hc & _).
    cbn [Z.add]. rewrite Hc. reflexivity. }
  destruct b as [|q|q]; try lia.
  { rewrite Z.add_0_r. apply add_cast_0. lia. }
  destruct (@cast_normal p ltac:(lia)) as (ma & ea & Hca & Hba & Hea & Hra & Hza).
  destruct (@cast_normal q ltac:(lia)) as (mb & eb & Hcb & Hbb & Heb & Hrb & Hzb).
  assert (Hsmall : forall x : positive, Zpos x < 2 ^ 24 ->
            Zpos (digits2_pos x) - 24 <= 0).
  { intros x Hx. pose proof (digits2_bounds x) as [Hlx Hhx].
    destruct (Z_lt_le_dec 24 (Zpos (digits2_pos x))) as [Hgt|]; [|lia].
    assert (2 ^ 24 <= 2 ^ (Zpos (digits2_pos x) - 1))
      by (apply Z.pow_le_mono_r; lia). lia. }
  pose proof (Hsmall p ltac:(lia)) as Hpa.
  pose proof (Hsmall q ltac:(lia)) as Hqb.
  unfold add. rewrite Hca, Hcb. cbn [SFadd cond_Zopp].
  set (ez := Z.min ea eb).
  rewrite (@shl_align_fst ma ea ez) by (unfold ez; lia).
  rewrite (@shl_align_fst mb eb ez) by (unfold ez; lia).
  specialize (Hza (- ez) ltac:(unfold ez; lia) ltac:(unfold ez; lia)).
  specialize (Hzb (- ez) ltac:(unfold ez; lia) ltac:(unfold ez; lia)).
  replace (ea - ez) with (ea + - ez) by lia.
  replace (eb - ez) with (eb + - ez) by lia.
  rewrite <- Hza, <- Hzb, <- Z.mul_add_distr_r.
  change (Zpos p + Zpos q) with (Zpos (p + q)).
  replace ez with (- - ez) at 2 by lia.
  apply normalize_shifted; try lia.
  pose proof (digits2_bounds p) as [Hlp Hhp].
  pose proof (digits2_bounds q) as [Hlq Hhq].
  pose proof (digits2_bounds (p + q)) as [Hls Hhs].
  assert (Hmono : forall x y : positive, Zpos x <= Zpos y ->
            Zpos (digits2_pos x) <= Zpos (digits2_pos y)).
  { intros x y Hxy. pose proof (digits2_bounds x) as [Hlx Hhx].
    pose proof (digits2_bounds y) as [Hly Hhy].
    destruct (Z_lt_le_dec (Zpos (digits2_pos y)) (Zpos (digits2_pos x))); [|lia].
    assert (2 ^ Zpos (digits2_pos y) <= 2 ^ (Zpos (digits2_pos x) - 1))
      by (apply Z.pow_le_mono_r; lia). lia. }
  pose proof (Hmono p (p + q)%positive ltac:(lia)).
  unfold ez. lia.
Qed.
End F32Sum.

(** ** Orders of summation *)

Lemma chain_leaves (n : nat) : leaves (chain n) = seq 0 n.
Proof.
  induction n as [|n IH]; [reflexivity|].
  cbn [chain leaves]. now rewrite IH, seq_S.
Qed.

Lemma chain_covers (n : nat) : covers n (chain n).
Proof. unfold covers. now rewrite chain_leaves. Qed.

Lemma index_order_ok : order_ok index_order.
Proof. split; intros; apply chain_covers. Qed.

Lemma Permutation_filter {A : Type} (f : A -> bool) (l l' : list A) :
  Permutation l l' -> Permutation (filter f l) (filter f l').
Proof.
  induction 1 as [|x l l' _ IH|x y l|l l' l'' _ IH1 _ IH2]; cbn [filter].
  - constructor.
  - destruct (f x); [now constructor | assumption].
  - destruct (f x), (f y); try apply Permutation_refl. apply perm_swap.
  - now transitivity (filter f l').
Qed.

Lemma count_ones_app (l l' : list Z) :
  count_ones (l ++ l') = (count_ones l + count_ones l')%nat.
Proof. unfold count_ones. now rewrite filter_app, length_app. Qed.

Lemma restrict_leaves (mrow : list Z) (t : SumTree) :
  leaves (restrict mrow t)
  = map (rank mrow) (filter (fun i => Z.eqb (nth i mrow 0%Z) 1) (leaves t)).
Proof.
  induction t as [i| |l IHl r IHr]; cbn [restrict leaves filter map].
  - destruct (Z.eqb (nth i mrow 0%Z) 1); reflexivity.
  - reflexivity.
  - now rewrite IHl, IHr, filter_app, map_app.
Qed.

(** The unmasked indices, renumbered, are 0 .. k-1. *)
Lemma rank_unmasked_seq (mrow : list Z) :
  map (rank mrow) (filter (fun i => Z.eqb (nth i mrow 0%Z) 1) (seq 0 (length mrow)))
  = seq 0 (count_ones mrow).
Proof.
  induction mrow as [|m mrow IH] using rev_ind; [reflexivity|].
  rewrite length_app. cbn [length]. rewrite Nat.add_1_r, seq_S, filter_app, map_app.
  cbn [Nat.add filter].
  assert (E1 : filter (fun i => Z.eqb (nth i (mrow ++ [m]) 0%Z) 1) (seq 0 (length mrow))
               = filter (fun i => Z.eqb (nth i mrow 0%Z) 1) (seq 0 (length mrow))).
  { apply filter_ext_in. intros i Hi. apply in_seq in Hi.
    rewrite app_nth1 by lia. reflexivity. }
  rewrite E1.
  assert (E2 : map (rank (mrow ++ [m]))
                 (filter (fun i => Z.eqb (nth i mrow 0%Z) 1) (seq 0 (length mrow)))
               = map (rank mrow)
                   (filter (fun i => Z.eqb (nth i mrow 0%Z) 1) (seq 0 (length mrow)))).
  { apply map_ext_in. intros i Hi. apply filter_In in Hi as [Hi _].
    apply in_seq in Hi. unfold rank. rewrite firstn_app.
    replace (i - length mrow)%nat with 0%nat by lia.
    cbn [firstn]. now rewrite app_nil_r. }
  rewrite E2, IH, count_ones_app.
  rewrite app_nth2, Nat.sub_diag by lia. cbn [nth].
  unfold count_ones at 3. cbn [filter].
  destruct (Z.eqb m 1); cbn [map length].
  - rewrite Nat.add_1_r, seq_S. cbn [Nat.add]. do 2 f_equal.
    unfold rank. rewrite firstn_app, Nat.sub_diag. cbn [firstn].
    now rewrite app_nil_r, firstn_all.
  - now rewrite Nat.add_0_r, app_nil_r.
Qed.

Lemma restrict_covers (mrow : list Z) (t : SumTree) :
  covers (length mrow) t -> covers (count_ones mrow) (restrict mrow t).
Proof.
  unfold covers. intros Hc. rewrite restrict_leaves, <- rank_unmasked_seq.
  apply Permutation_map, Permutation_filter, Hc.
Qed.

(** The vector at an unmasked index is found at its rank among the unmasked
    vectors. *)
Lemma nth_unmasked {F : Type} (row : list (list F)) (mrow : list Z) (i : nat)
    (d : list F) :
  length row = length mrow -> nth i mrow 0%Z = 1%Z ->
  nth (rank mrow i) (unmasked row mrow) d = nth i row d.
Proof.
  revert mrow i. induction row as [|v row IH]; intros [|m mrow] i Hl Hm;
    cbn in Hl; try discriminate.
  - destruct i; discriminate.
  - destruct i as [|i].
    + cbn in Hm. subst m. reflexivity.
    + cbn [nth] in Hm. unfold rank. cbn [firstn]. rewrite F32Pool.count_ones_cons.
      unfold unmasked. cbn [combine filter snd nth].
      destruct (Z.eqb m 1); cbn [map fst Nat.add nth];
        apply (IH mrow i); trivial; lia.
Qed.

Lemma ones_under_covers (mrow : list Z) (t : SumTree) :
  covers (length mrow) t -> ones_under mrow t = count_ones mrow.
Proof.
  intros Hc. unfold ones_under.
  rewrite (Permutation_length (Permutation_filter _ Hc)).
  rewrite <- (length_map (rank mrow)), rank_unmasked_seq. apply length_seq.
Qed.

Section SumBy.
Variable F : Type.
Variable A : Arith F.

(** The sum over the unmasked entries is the sum over all entries in which
    the masked ones are replaced by zero. *)
Lemma sum_by_restrict (mrow : list Z) (t : SumTree) (us : list F) :
  sum_by A (restrict mrow t) us
  = sum_by A t
      (map (fun i => if Z.eqb (nth i mrow 0%Z) 1
                     then nth (rank mrow i) us (f_cast 0) else f_cast 0)
         (seq 0 (length mrow))).
Proof.
  induction t as [i| |l IHl r IHr]; cbn [restrict sum_by].
  - destruct (Nat.lt_ge_cases i (length mrow)) as [Hi|Hi].
    + set (f := fun i => if Z.eqb (nth i mrow 0%Z) 1
                         then nth (rank mrow i) us (f_cast 0) else f_cast 0).
      rewrite (nth_indep _ (f_cast 0) (f 0%nat)) by now rewrite length_map, length_seq.
      rewrite map_nth, seq_nth by assumption. cbn [Nat.add]. unfold f.
      destruct (Z.eqb (nth i mrow 0%Z) 1); reflexivity.
    + rewrite (nth_overflow mrow) by assumption. cbn [Z.eqb sum_by].
      rewrite nth_overflow by now rewrite length_map, length_seq. reflexivity.
  - reflexivity.
  - now rewrite IHl, IHr.
Qed.

(** Sums of entries that are pairwise related are related. *)
Lemma sum_by_rel (P : F -> F -> Prop) (t : SumTree) (xs ys : list F) :
  P (f_cast 0) (f_cast 0) ->
  (forall a a' b b', P a a' -> P b b' -> P (f_add a b) (f_add a' b')) ->
  (forall i, P (nth i xs (f_cast 0)) (nth i ys (f_cast 0))) ->
  P (sum_by A t xs) (sum_by A t ys).
Proof.
  intros H0 Hadd Hxy. induction t as [i| |l IHl r IHr]; cbn [sum_by]; auto.
Qed.

(** The sum in index order is the fold from zero. *)
Lemma sum_by_chain (xs : list F) (n : nat) :
  sum_by A (chain n) xs = fold_left f_add (firstn n xs) (f_cast 0) \/ (length xs < n)%nat.
Proof.
  induction n as [|n IH]; [left; reflexivity|].
  destruct (Nat.lt_ge_cases (length xs) (S n)) as [Hlt|Hge]; [right; exact Hlt|].
  left. destruct IH as [IH|IH]; [|lia].
  cbn [chain sum_by]. rewrite IH.
  assert (E : firstn (S n) xs = firstn n xs ++ [nth n xs (f_cast 0)]).
  { clear - Hge. revert n Hge. induction xs as [|x xs IHx]; intros n Hge;
      cbn in Hge; [lia|].
    destruct n as [|n]; [reflexivity|].
    cbn [firstn nth app]. f_equal. apply IHx. lia. }
  rewrite E, fold_left_app. reflexivity.
Qed.
End SumBy.

Open Scope Z_scope.

(** ** binary32 with flushing *)

Module F32mFacts.
Import F32 F32Facts F32Pool F32Sum F32m.

Section Mode.
Variable md : FlushMode.

Local Notation "'flush'" := (Flushed.flush 24).
Local Notation "'flush_in'" := (Flushed.flush_in md 24).
Local Notation "'flush_out'" := (Flushed.flush_out md 24).
Local Notation "'addm'" := (Flushed.add md 24 128).
Local Notation "'mulm'" := (Flushed.mul md 24 128).
Local Notation "'divm'" := (Flushed.div md 24 128).

Lemma flush_cases (x : spec_float) :
  flush x = x \/ (exists s m e, x = S754_finite s m e /\ flush x = S754_zero s).
Proof.
  destruct x as [s|s| |s m e]; cbn [Flushed.flush]; auto.
  destruct (Z.ltb (Zpos (digits2_pos m)) 24); [right; eauto | left; reflexivity].
Qed.

Lemma flush_in_cases (x : spec_float) :
  flush_in x = x \/ (exists s m e, x = S754_finite s m e /\ flush_in x = S754_zero s).
Proof.
  unfold Flushed.flush_in. destruct (daz md); [apply flush_cases | now left].
Qed.

Lemma flush_out_cases (x : spec_float) :
  flush_out x = x \/ (exists s m e, x = S754_finite s m e /\ flush_out x = S754_zero s).
Proof.
  unfold Flushed.flush_out. destruct (ftz md); [apply flush_cases | now left].
Qed.

Lemma flush_in_zero (s : bool) : flush_in (S754_zero s) = S754_zero s.
Proof. unfold Flushed.flush_in. now destruct (daz md). Qed.

Lemma flush_out_zero (s : bool) : flush_out (S754_zero s) = S754_zero s.
Proof. unfold Flushed.flush_out. now destruct (ftz md). Qed.

Lemma flush_in_nan : flush_in S754_nan = S754_nan.
Proof. unfold Flushed.flush_in. now destruct (daz md). Qed.

Lemma flush_out_nan : flush_out S754_nan = S754_nan.
Proof. unfold Flushed.flush_out. now destruct (ftz md). Qed.

Lemma flush_in_valid (x : spec_float) : valid x -> valid (flush_in x).
Proof.
  intros Hv. destruct (flush_in_cases x) as [->|(s & m & e & _ & ->)];
    [assumption | reflexivity].
Qed.

Lemma flush_in_finite (x : spec_float) :
  is_finite x = true -> is_finite (flush_in x) = true.
Proof.
  intros Hv. destruct (flush_in_cases x) as [->|(s & m & e & _ & ->)];
    [assumption | reflexivity].
Qed.

(** A number with a full mantissa is not flushed. *)
Lemma flush_normal (s : bool) (m : positive) (e : Z) :
  bounded 24 128 m e = true -> -149 < e ->
  flush (S754_finite s m e) = S754_finite s m e.
Proof.
  intros Hb He. unfold bounded, canonical_mantissa in Hb.
  apply andb_true_iff in Hb as [Hc _]. apply Z.eqb_eq in Hc.
  unfold fexp, emin in Hc. cbn [Flushed.flush].
  destruct (Z.ltb_spec (Zpos (digits2_pos m)) 24) as [Hlt|]; [lia | reflexivity].
Qed.

Lemma flush_cast (n : Z) : 0 <= n <= 2 ^ 24 -> flush (cast n) = cast n.
Proof.
  intros Hn. destruct n as [|p|p]; try lia; [reflexivity|].
  destruct (@cast_normal p ltac:(lia)) as (m & e & -> & Hb & _ & He & _).
  apply flush_normal; [assumption | lia].
Qed.

Lemma flush_in_cast (n : Z) : 0 <= n <= 2 ^ 24 -> flush_in (cast n) = cast n.
Proof.
  intros Hn. unfold Flushed.flush_in.
  destruct (daz md); [now apply flush_cast | reflexivity].
Qed.

Lemma flush_out_cast (n : Z) : 0 <= n <= 2 ^ 24 -> flush_out (cast n) = cast n.
Proof.
  intros Hn. unfold Flushed.flush_out.
  destruct (ftz md); [now apply flush_cast | reflexivity].
Qed.

(** [x * 1.0] is [x], flushed. *)
Lemma mulm_one_r (x : spec_float) : valid x -> mulm x (cast 1) = flushed md x.
Proof.
  intros Hv. unfold Flushed.mul, flushed.
  rewrite (@flush_in_cast 1) by (cbn; lia).
  change (SFmul 24 128) with mul.
  now rewrite mul_one_r by now apply flush_in_valid.
Qed.

(** [x * 0.0] is a zero when [x] is finite. *)
Lemma mulm_zero_r (x : spec_float) :
  is_finite x = true -> is_zero (mulm x (cast 0)) = true.
Proof.
  intros Hf. unfold Flushed.mul.
  rewrite (@flush_in_cast 0) by (cbn; lia).
  change (SFmul 24 128) with mul.
  destruct (mul_zero_r (flush_in x) (flush_in_finite x Hf)) as [s ->].
  now rewrite flush_out_zero.
Qed.

(** Adding integers is exact up to 2^24. *)
Lemma addm_cast (a b : Z) :
  0 <= a -> 0 <= b -> a + b <= 2 ^ 24 -> addm (cast a) (cast b) = cast (a + b).
Proof.
  intros Ha Hb Hab. unfold Flushed.add.
  rewrite !flush_in_cast by lia. change (SFadd 24 128) with add.
  rewrite cast_add by assumption. apply flush_out_cast. lia.
Qed.

Lemma feq_refl (x : spec_float) : feq x x.
Proof. now left. Qed.

Lemma feq_sym (x y : spec_float) : feq x y -> feq y x.
Proof. intros [->|[H1 H2]]; [now left | now right]. Qed.

Lemma feq_trans (x y z : spec_float) : feq x y -> feq y z -> feq x z.
Proof.
  intros [->|[H1 H2]] [->|[H3 H4]]; try (now left); try (right; now split).
Qed.

Lemma feq_zero (x y : spec_float) : is_zero x = true -> is_zero y = true -> feq x y.
Proof. intros; right; now split. Qed.

Lemma flush_in_feq (x y : spec_float) : feq x y -> feq (flush_in x) (flush_in y).
Proof.
  intros [->|[H1 H2]]; [apply feq_refl|].
  destruct x, y; try discriminate. rewrite !flush_in_zero. now apply feq_zero.
Qed.

Lemma flush_out_feq (x y : spec_float) : feq x y -> feq (flush_out x) (flush_out y).
Proof.
  intros [->|[H1 H2]]; [apply feq_refl|].
  destruct x, y; try discriminate. rewrite !flush_out_zero. now apply feq_zero.
Qed.

Lemma SFadd_feq (x x' y y' : spec_float) :
  feq x x' -> feq y y' -> feq (SFadd 24 128 x y) (SFadd 24 128 x' y').
Proof.
  intros [->|[H1 H2]] [->|[H3 H4]]; try apply feq_refl.
  - destruct y as [sy| | |], y' as [sy'| | |]; try discriminate.
    destruct x' as [sx| | |]; cbn [SFadd]; try apply feq_refl.
    destruct sx, sy, sy'; now apply feq_zero.
  - destruct x as [sx| | |], x' as [sx'| | |]; try discriminate.
    destruct y' as [sy| | |]; cbn [SFadd]; try apply feq_refl.
    destruct sx, sx', sy; now apply feq_zero.
  - destruct x as [sx| | |], x' as [sx'| | |], y as [sy| | |], y' as [sy'| | |];
      try discriminate.
    cbn [SFadd]. destruct sx, sx', sy, sy'; now apply feq_zero.
Qed.

Lemma addm_feq (x x' y y' : spec_float) :
  feq x x' -> feq y y' -> feq (addm x y) (addm x' y').
Proof.
  intros Hx Hy. unfold Flushed.add.
  apply flush_out_feq, SFadd_feq; now apply flush_in_feq.
Qed.

Lemma divm_feq (x x' y : spec_float) : feq x x' -> feq (divm x y) (divm x' y).
Proof.
  intros [->|[H1 H2]]; [apply feq_refl|].
  unfold Flushed.div. apply flush_out_feq.
  destruct x, x'; try discriminate. rewrite !flush_in_zero.
  destruct (flush_in y); cbn [SFdiv]; try apply feq_refl; now apply feq_zero.
Qed.


(** The clamp of a count. *)
Lemma clipm_cast (k : Z) :
  1 <= k <= 2 ^ 24 -> clip (F32m.A md) py_1e_9 py_float32_max (cast k) = cast k.
Proof.
  intros Hk. unfold clip.
  change (@f_of_pyfloat _ (F32m.A md) py_float32_max) with (S754_finite false 16777215 104).
  change (@f_of_pyfloat _ (F32m.A md) py_1e_9) with (S754_finite false 9007199 (-53)).
  change (@f_minimum _ (F32m.A md))
    with (fun x y => IEEE.minimum (flush_in x) (flush_in y)).
  change (@f_maximum _ (F32m.A md))
    with (fun x y => IEEE.maximum (flush_in x) (flush_in y)).
  cbv beta.
  assert (Hhi : flush_in (S754_finite false 16777215 104) = S754_finite false 16777215 104)
    by (unfold Flushed.flush_in; now destruct (daz md)).
  assert (Hlo : flush_in (S754_finite false 9007199 (-53)) = S754_finite false 9007199 (-53))
    by (unfold Flushed.flush_in; now destruct (daz md)).
  rewrite Hhi, Hlo, (@flush_in_cast k) by lia.
  pose proof (@clip_cast k Hk) as Hc. unfold clip in Hc.
  change (@f_of_pyfloat _ F32.A py_float32_max) with (S754_finite false 16777215 104) in Hc.
  change (@f_of_pyfloat _ F32.A py_1e_9) with (S754_finite false 9007199 (-53)) in Hc.
  change (@f_minimum _ F32.A) with IEEE.minimum in Hc.
  change (@f_maximum _ F32.A) with IEEE.maximum in Hc.
  assert (Hmin : IEEE.minimum (cast k) (S754_finite false 16777215 104) = cast k).
  { destruct (cast_pos_shape Hk) as (m & e & -> & He).
    unfold IEEE.minimum, SFltb. cbn [SFcompare].
    assert (E1 : (e ?= 104) = Lt) by (apply Z.compare_lt_iff; lia).
    now rewrite E1. }
  rewrite Hmin in *. rewrite (@flush_in_cast k) by lia. exact Hc.
Qed.


End Mode.
End F32mFacts.

Lemma nth_zip_with {A B C : Type} (f : A -> B -> C) (l : list A) (l' : list B)
    (i : nat) (a : A) (b : B) (c : C) :
  (i < length l)%nat -> (i < length l')%nat ->
  nth i (zip_with f l l') c = f (nth i l a) (nth i l' b).
Proof.
  revert l' i. induction l as [|x l IH]; intros [|y l'] [|i] Hl Hl';
    cbn in *; try lia; [reflexivity|].
  apply IH; lia.
Qed.

Lemma div_row_const {F : Type} (A : Arith F) (N D : list F) (c : F) :
  length N = length D -> Forall (fun x => x = c) D ->
  div_row A N D = map (fun x => f_div x c) N.
Proof.
  intros Hl Hc.
  assert (E : D = repeat c (length D)).
  { clear Hl. induction Hc as [|x D -> _ IH]; cbn; [reflexivity | now f_equal]. }
  unfold div_row. destruct D as [|n [|n' D']].
  - destruct N; [reflexivity | discriminate].
  - inversion Hc; subst. reflexivity.
  - rewrite E, zip_with_repeat_r by lia. reflexivity.
Qed.

Lemma Forall2_map_seq {A B : Type} (P : A -> B -> Prop) (f : nat -> A)
    (g : nat -> B) (n : nat) :
  (forall h, (h < n)%nat -> P (f h) (g h)) ->
  Forall2 P (map f (seq 0 n)) (map g (seq 0 n)).
Proof.
  intros Hfg.
  assert (G : forall s, (forall h, (s <= h < s + n)%nat -> P (f h) (g h)) ->
              Forall2 P (map f (seq s n)) (map g (seq s n))).
  { clear Hfg. induction n as [|n IH]; intros s Hs; cbn [seq map]; constructor.
    - apply Hs. lia.
    - apply IH. intros h Hh. apply Hs. lia. }
  apply G. intros h Hh. apply Hfg. lia.
Qed.

Lemma binary_mask_nth (mrow : list Z) (i : nat) :
  binary_mask mrow -> nth i mrow 0%Z = 0%Z \/ nth i mrow 0%Z = 1%Z.
Proof.
  intros Hm. destruct (Nat.lt_ge_cases i (length mrow)) as [Hi|Hi].
  - unfold binary_mask in Hm. rewrite Forall_forall in Hm.
    apply Hm, nth_In, Hi.
  - left. now apply nth_overflow.
Qed.

Open Scope Z_scope.

(** ** Masked mean pooling of one row in binary32, in any order *)

Module F32PoolBy.
Import F32 F32Facts F32Pool F32Sum F32m F32mFacts.

Section Mode.
Variable md : FlushMode.

Lemma mask_column (H h : nat) (mrow : list Z) :
  (h < H)%nat -> column (F32m.A md) h (mask_row (F32m.A md) H mrow) = map cast mrow.
Proof.
  intros Hh. unfold column, mask_row. rewrite !map_map.
  apply map_ext. intros m. rewrite map_repeat_eq.
  rewrite (nth_indep _ _ (cast m)) by now rewrite repeat_length.
  apply nth_repeat.
Qed.

(** The sum of the mask over a part of the row is the number of its ones
    there, whatever the order. *)
Lemma mask_sum_by (H h : nat) (mrow : list Z) (t : SumTree) :
  binary_mask mrow -> (h < H)%nat -> Z.of_nat (ones_under mrow t) <= 2 ^ 24 ->
  sum_by (F32m.A md) t (column (F32m.A md) h (mask_row (F32m.A md) H mrow))
  = cast (Z.of_nat (ones_under mrow t)).
Proof.
  intros Hm Hh. rewrite mask_column by assumption.
  induction t as [i| |l IHl r IHr]; intros Hk.
  - cbn [sum_by]. change (@f_cast _ (F32m.A md) 0) with (cast 0).
    rewrite map_nth. unfold ones_under. cbn [leaves filter].
    destruct (binary_mask_nth i Hm) as [-> | ->]; reflexivity.
  - reflexivity.
  - assert (E : ones_under mrow (Plus l r)
                = (ones_under mrow l + ones_under mrow r)%nat).
    { unfold ones_under. cbn [leaves]. now rewrite filter_app, length_app. }
    rewrite E in *. cbn [sum_by]. rewrite IHl, IHr by lia.
    change (@f_add _ (F32m.A md)) with (Flushed.add md 24 128).
    rewrite addm_cast by lia. f_equal. lia.
Qed.


(** An entry of a column of the products. *)
Lemma product_entry (H h i : nat) (row : list (list spec_float)) (mrow : list Z) :
  Forall (fun v => length v = H) row -> length row = length mrow ->
  (h < H)%nat -> (i < length row)%nat ->
  nth i (column (F32m.A md) h
           (zip_with (zip_with (@f_mul _ (F32m.A md))) row (mask_row (F32m.A md) H mrow)))
    (cast 0)
  = Flushed.mul md 24 128 (nth h (nth i row []) (cast 0)) (cast (nth i mrow 0)).
Proof.
  intros Hlen Hl Hh Hi. unfold column.
  set (g := fun v : list spec_float => nth h v (@f_cast _ (F32m.A md) 0)).
  rewrite (nth_indep _ (cast 0) (g [])).
  2:{ rewrite length_map, zip_with_length.
      destruct (mask_row_rect (F32m.A md) H mrow) as [-> _]. lia. }
  rewrite map_nth. unfold g.
  rewrite (@nth_zip_with _ _ _ _ row (mask_row (F32m.A md) H mrow) i [] [] []).
  2: lia.
  2:{ destruct (mask_row_rect (F32m.A md) H mrow) as [-> _]. lia. }
  assert (Em : nth i (mask_row (F32m.A md) H mrow) [] = repeat (cast (nth i mrow 0)) H).
  { unfold mask_row. rewrite map_map.
    rewrite (nth_indep _ [] ((fun x => map (@f_cast _ (F32m.A md)) (repeat x H)) 0))
      by (rewrite length_map; lia).
    rewrite (map_nth (fun x => map (@f_cast _ (F32m.A md)) (repeat x H)) mrow 0 i).
    now rewrite map_repeat_eq. }
  rewrite Em.
  assert (Hv : length (nth i row []) = H).
  { rewrite Forall_forall in Hlen. apply Hlen, nth_In, Hi. }
  rewrite zip_with_repeat_r by lia.
  change (@f_cast _ (F32m.A md) 0) with (cast 0).
  rewrite (nth_indep _ (cast 0)
             ((fun a => @f_mul _ (F32m.A md) a (cast (nth i mrow 0))) (cast 0)))
    by (rewrite length_map; lia).
  rewrite (map_nth (fun a => @f_mul _ (F32m.A md) a (cast (nth i mrow 0)))
             (nth i row []) (cast 0) h).
  reflexivity.
Qed.

(** The pooled row: each sum of products divided by the clamped count. *)
Lemma pool_row_by_eq (ts : nat -> SumTree) (H k : nat)
    (row : list (list spec_float)) (mrow : list Z) :
  binary_mask mrow ->
  (forall h, (h < H)%nat -> ones_under mrow (ts h) = k) ->
  Z.of_nat k <= 2 ^ 24 ->
  pool_row_by (F32m.A md) ts H row mrow
  = map (fun h =>
           Flushed.div md 24 128
             (sum_by (F32m.A md) (ts h)
                (column (F32m.A md) h
                   (zip_with (zip_with (@f_mul _ (F32m.A md))) row
                      (mask_row (F32m.A md) H mrow))))
             (clip (F32m.A md) py_1e_9 py_float32_max (cast (Z.of_nat k))))
      (seq 0 H).
Proof.
  intros Hm Hk Hk2. unfold pool_row_by, sum_columns.
  rewrite (@div_row_const _ (F32m.A md) _ _
             (clip (F32m.A md) py_1e_9 py_float32_max (cast (Z.of_nat k)))).
  - rewrite map_map. reflexivity.
  - now rewrite !length_map.
  - apply Forall_forall. intros x Hx. rewrite map_map in Hx.
    apply in_map_iff in Hx as (h & <- & Hh). apply in_seq in Hh.
    rewrite mask_sum_by by (trivial; try lia; rewrite Hk; lia).
    rewrite Hk by lia. reflexivity.
Qed.

(** The sum of a column of the products is the sum of the unmasked entries
    of the column. *)
Lemma numerator_by (H h : nat) (t : SumTree) (row : list (list spec_float))
    (mrow : list Z) :
  Forall (fun v => length v = H) row -> length row = length mrow ->
  well_formed row -> masked_finite row mrow -> binary_mask mrow ->
  (h < H)%nat ->
  feq (sum_by (F32m.A md) t
         (column (F32m.A md) h
            (zip_with (zip_with (@f_mul _ (F32m.A md))) row
               (mask_row (F32m.A md) H mrow))))
      (sum_by (F32m.A md) (restrict mrow t)
         (column (F32m.A md) h (map (map (flushed md)) (unmasked row mrow)))).
Proof.
  intros Hlen Hl Hwf Hfin Hm Hh. rewrite sum_by_restrict.
  apply sum_by_rel.
  - apply feq_refl.
  - intros a a' b b'. apply addm_feq.
  - intros i. change (@f_cast _ (F32m.A md) 0) with (cast 0).
    destruct (Nat.lt_ge_cases i (length row)) as [Hi|Hi].
    2:{ rewrite !nth_overflow; [apply feq_refl | |].
        - rewrite length_map, length_seq. lia.
        - unfold column. rewrite length_map, zip_with_length.
          destruct (mask_row_rect (F32m.A md) H mrow) as [-> _]. lia. }
    rewrite product_entry by assumption.
    set (f := fun i => if Z.eqb (nth i mrow 0) 1
                       then nth (rank mrow i)
                              (column (F32m.A md) h
                                 (map (map (flushed md)) (unmasked row mrow)))
                              (cast 0)
                       else cast 0).
    rewrite (nth_indep (map f (seq 0 (length mrow))) (cast 0) (f 0%nat))
      by (rewrite length_map, length_seq; lia).
    rewrite map_nth, seq_nth by lia. cbn [Nat.add]. unfold f.
    assert (Hv : length (nth i row []) = H).
    { rewrite Forall_forall in Hlen. apply Hlen, nth_In, Hi. }
    assert (Hin : In (nth h (nth i row []) (cast 0)) (nth i row []))
      by (apply nth_In; lia).
    destruct (binary_mask_nth i Hm) as [E | E]; rewrite E; cbn [Z.eqb Pos.eqb].
    + (* masked *)
      apply feq_zero; [|reflexivity]. apply mulm_zero_r.
      unfold masked_finite in Hfin. rewrite Forall_forall in Hfin.
      assert (Hp : In (nth i row [], nth i mrow 0) (combine row mrow)).
      { rewrite <- combine_nth by assumption. apply nth_In.
        rewrite length_combine. lia. }
      specialize (Hfin _ Hp E). cbn [fst] in Hfin.
      rewrite Forall_forall in Hfin. now apply Hfin.
    + (* unmasked *)
      left. symmetry. rewrite mulm_one_r.
      2:{ unfold well_formed in Hwf. rewrite Forall_forall in Hwf.
          specialize (Hwf (nth i row []) (nth_In _ _ Hi)).
          rewrite Forall_forall in Hwf. now apply Hwf. }
      assert (Hr : (rank mrow i < length (unmasked row mrow))%nat).
      { rewrite unmasked_length by assumption. unfold rank.
        rewrite <- (firstn_skipn i mrow) at 2. rewrite count_ones_app.
        assert (Hsk : skipn i mrow = nth i mrow 0 :: skipn (S i) mrow).
        { clear - Hi Hl. rewrite Hl in Hi. clear Hl. revert i Hi.
          induction mrow as [|m mrow IH]; intros [|i] Hi; cbn in *; try lia;
            [reflexivity|]. apply IH. lia. }
        rewrite Hsk, E, count_ones_cons. cbn [Z.eqb Pos.eqb]. lia. }
      set (g := fun v : list spec_float => nth h v (@f_cast _ (F32m.A md) 0)).
      set (U := map (map (flushed md)) (unmasked row mrow)).
      change (nth (rank mrow i) (map g U) (cast 0)
              = flushed md (nth h (nth i row []) (cast 0))).
      rewrite (nth_indep (map g U) (cast 0) (g []))
        by (unfold U; rewrite !length_map; exact Hr).
      rewrite (map_nth g U [] (rank mrow i)). unfold g, U.
      change (@nil spec_float) with (map (flushed md) []).
      rewrite (map_nth (map (flushed md)) (unmasked row mrow) [] (rank mrow i)).
      rewrite nth_unmasked by assumption.
      change (@f_cast _ (F32m.A md) 0) with (cast 0).
      rewrite (nth_indep (map (flushed md) (nth i row [])) (cast 0)
                 (flushed md (cast 0))) by (rewrite length_map; lia).
      now rewrite (map_nth (flushed md) (nth i row []) (cast 0) h).
Qed.

(** The pooled row is the mean of the unmasked vectors in the order of the
    reduction, up to the sign of a zero. *)
Lemma pool_row_by_mean (ts : nat -> SumTree) (H : nat)
    (row : list (list spec_float)) (mrow : list Z) :
  Forall (fun v => length v = H) row -> length row = length mrow ->
  well_formed row -> masked_finite row mrow -> binary_mask mrow ->
  (forall h, (h < H)%nat -> covers (length mrow) (ts h)) ->
  (1 <= count_ones mrow)%nat -> Z.of_nat (count_ones mrow) <= 2 ^ 24 ->
  Forall2 feq (pool_row_by (F32m.A md) ts H row mrow)
    (mean_in_order (F32m.A md) (fun h => restrict mrow (ts h)) H
       (map (map (flushed md)) (unmasked row mrow))).
Proof.
  intros Hlen Hl Hwf Hfin Hm Hc Hk1 Hk2.
  rewrite (@pool_row_by_eq ts H (count_ones mrow)); trivial.
  2:{ intros h Hh. apply ones_under_covers. now apply Hc. }
  unfold mean_in_order, sum_columns. rewrite map_map.
  rewrite length_map, unmasked_length by assumption.
  rewrite clipm_cast by lia.
  apply Forall2_map_seq. intros h Hh.
  change (@f_div _ (F32m.A md)) with (Flushed.div md 24 128).
  change (@f_cast _ (F32m.A md)) with cast.
  apply divm_feq. now apply numerator_by.
Qed.


End Mode.
End F32PoolBy.

Lemma Forall2_feq_trans_sym (l l1 l2 : list spec_float) :
  Forall2 F32m.feq l1 l -> Forall2 F32m.feq l2 l -> Forall2 F32m.feq l1 l2.
Proof.
  intros H1. revert l2. induction H1 as [|x y l1 l Hxy _ IH]; intros l2 H2;
    inversion H2; subst; constructor.
  - eapply F32mFacts.feq_trans; [eassumption | now apply F32mFacts.feq_sym].
  - now apply IH.
Qed.

(** ** Powers of two *)

Lemma pow2_powerRZ (e : Z) : Exact.pow2 e = powerRZ 2 e.
Proof.
  destruct e as [|p|p]; cbn [Exact.pow2 powerRZ].
  - reflexivity.
  - change (2 ^ Zpos p)%Z with (Z.pow_pos 2 p).
    rewrite Zpower_pos_powerRZ. reflexivity.
  - rewrite Zpower_pos_powerRZ. reflexivity.
Qed.

Lemma pow2_pos (e : Z) : (0 < Exact.pow2 e)%R.
Proof. rewrite pow2_powerRZ. apply powerRZ_lt. lra. Qed.

Lemma pow2_add (a b : Z) : Exact.pow2 (a + b) = (Exact.pow2 a * Exact.pow2 b)%R.
Proof. rewrite !pow2_powerRZ. apply powerRZ_add. lra. Qed.

Lemma pow2_IZR (n : Z) : (0 <= n)%Z -> Exact.pow2 n = IZR (2 ^ n).
Proof. intros Hn. destruct n; try lia; reflexivity. Qed.

Lemma pow2_ge_1 (n : Z) : (0 <= n)%Z -> (1 <= Exact.pow2 n)%R.
Proof.
  intros Hn. rewrite pow2_IZR by assumption. apply IZR_le.
  assert (0 < 2 ^ n)%Z by (apply Z.pow_pos_nonneg; lia). lia.
Qed.

Lemma pow2_le (a b : Z) : (a <= b)%Z -> (Exact.pow2 a <= Exact.pow2 b)%R.
Proof.
  intros Hab. replace b with (a + (b - a))%Z by lia. rewrite pow2_add.
  pose proof (pow2_pos a). pose proof (@pow2_ge_1 (b - a) ltac:(lia)). nra.
Qed.

Lemma pow2_lt (a b : Z) : (a < b)%Z -> (Exact.pow2 a < Exact.pow2 b)%R.
Proof.
  intros Hab. replace b with (a + 1 + (b - a - 1))%Z by lia. rewrite !pow2_add.
  pose proof (pow2_pos a). pose proof (@pow2_ge_1 (b - a - 1) ltac:(lia)).
  change (Exact.pow2 1) with 2%R. nra.
Qed.

Lemma pow2_0 : Exact.pow2 0 = 1%R.
Proof. reflexivity. Qed.

Lemma pow2_opp (a : Z) : (Exact.pow2 (- a) * Exact.pow2 a = 1)%R.
Proof. rewrite <- pow2_add. replace (- a + a)%Z with 0%Z by lia. reflexivity. Qed.

(** If 2^a <= x < 2^b then a < b. *)
Lemma pow2_lt_inv (a b : Z) : (Exact.pow2 a < Exact.pow2 b)%R -> (a < b)%Z.
Proof.
  intros H. destruct (Z_lt_le_dec a b) as [|Hle]; [assumption|].
  pose proof (pow2_le Hle). lra.
Qed.

Open Scope Z_scope.

(** ** Rounding a number of the normal range *)

Section RoundNormal.

Lemma shr_fexp_normal (m : positive) (e : Z) (l : location) :
  24 <= Zpos (digits2_pos m) -> -149 <= Zpos (digits2_pos m) + e - 24 ->
  shr_m (fst (shr_fexp 24 128 (Zpos m) e l))
  = Zpos m / 2 ^ (Zpos (digits2_pos m) - 24)
  /\ snd (shr_fexp 24 128 (Zpos m) e l) = Zpos (digits2_pos m) + e - 24.
Proof.
  intros Hd He. unfold shr_fexp. cbn [Zdigits2].
  set (d := Zpos (digits2_pos m)) in *.
  assert (Hf : fexp 24 128 (d + e) = d + e - 24) by (unfold fexp, emin; lia).
  rewrite Hf. replace (d + e - 24 - e) with (d - 24) by lia.
  destruct (d - 24) as [|p|p] eqn:Hn; try lia; cbn [shr fst snd].
  - rewrite shr_record_of_loc_m. change (2 ^ 0) with 1. rewrite Z.div_1_r. lia.
  - rewrite iter_pos_nat, shr_iter_m by (rewrite shr_record_of_loc_m; lia).
    rewrite shr_record_of_loc_m, positive_nat_Z. lia.
Qed.

Lemma round_nearest_even_cases (m : Z) (l : location) :
  round_nearest_even m l = m \/ round_nearest_even m l = m + 1.
Proof.
  destruct l as [|[]]; cbn [round_nearest_even]; auto.
  destruct (Z.even m); auto.
Qed.

Lemma div_pow2_bounds (m : positive) :
  24 <= Zpos (digits2_pos m) ->
  let n := Zpos (digits2_pos m) - 24 in
  2 ^ 23 <= Zpos m / 2 ^ n < 2 ^ 24
  /\ (Zpos m / 2 ^ n) * 2 ^ n <= Zpos m < (Zpos m / 2 ^ n + 1) * 2 ^ n.
Proof.
  intros Hd n. pose proof (digits2_bounds m) as [Hlo Hhi].
  set (d := Zpos (digits2_pos m)) in *.
  assert (Hp : 0 < 2 ^ n) by (apply Z.pow_pos_nonneg; lia).
  assert (E1 : 2 ^ (d - 1) = 2 ^ 23 * 2 ^ n)
    by (rewrite <- Z.pow_add_r by lia; f_equal; lia).
  assert (E2 : 2 ^ d = 2 ^ 24 * 2 ^ n)
    by (rewrite <- Z.pow_add_r by lia; f_equal; lia).
  pose proof (Z.div_mod (Zpos m) (2 ^ n) ltac:(lia)) as Hdm.
  pose proof (Z.mod_pos_bound (Zpos m) (2 ^ n) Hp) as Hmod.
  split; [split|split].
  - apply Z.div_le_lower_bound; lia.
  - apply Z.div_lt_upper_bound; lia.
  - lia.
  - lia.
Qed.

(** The result of rounding a mantissa of at least 24 digits, in the normal
    range and below the overflow threshold: a normal number whose mantissa,
    in units of the last place, is the truncated mantissa or the next
    integer. *)
Lemma binary_round_aux_normal (s : bool) (m : positive) (e : Z) (l : location) :
  24 <= Zpos (digits2_pos m) ->
  -149 <= Zpos (digits2_pos m) + e - 24 ->
  Zpos (digits2_pos m) + e <= 127 ->
  exists m' e',
    binary_round_aux 24 128 s (Zpos m) e l = S754_finite s m' e'
    /\ bounded 24 128 m' e' = true
    /\ Zpos (digits2_pos m') = 24
    /\ Zpos (digits2_pos m) + e - 24 <= e'
    /\ (Zpos m' * 2 ^ (e' - (Zpos (digits2_pos m) + e - 24))
        = Zpos m / 2 ^ (Zpos (digits2_pos m) - 24)
        \/ Zpos m' * 2 ^ (e' - (Zpos (digits2_pos m) + e - 24))
           = Zpos m / 2 ^ (Zpos (digits2_pos m) - 24) + 1).
Proof.
  intros Hd He Hov. unfold binary_round_aux.
  destruct (shr_fexp_normal m e l Hd He) as [Hm1 He1].
  destruct (shr_fexp 24 128 (Zpos m) e l) as [mrs' e1]. cbn [fst snd] in Hm1, He1.
  destruct (div_pow2_bounds m Hd) as [[Hlo Hhi] _]. cbv zeta in Hlo, Hhi.
  set (d := Zpos (digits2_pos m)) in *.
  set (t := Zpos m / 2 ^ (d - 24)) in *.
  rewrite Hm1. subst e1.
  set (mr := round_nearest_even t (loc_of_shr_record mrs')).
  assert (Hmr : mr = t \/ mr = t + 1) by apply round_nearest_even_cases.
  clearbody mr.
  destruct (Z.eq_dec mr (2 ^ 24)) as [Heq|Hne].
  - (* the rounded mantissa has one digit more *)
    subst mr. change (2 ^ 24) with (Zpos 16777216).
    unfold shr_fexp. cbn [Zdigits2].
    change (digits2_pos 16777216) with 25%positive.
    assert (Hf : fexp 24 128 (Zpos 25 + (d + e - 24)) = d + e - 24 + 1)
      by (unfold fexp, emin; lia).
    rewrite Hf. replace (d + e - 24 + 1 - (d + e - 24)) with 1 by lia.
    cbn [shr shr_record_of_loc iter_pos shr_1 shr_m].
    assert (Hle : (d + e - 24 + 1 <=? 128 - 24) = true) by (apply Z.leb_le; lia).
    rewrite Hle. exists 8388608%positive, (d + e - 24 + 1).
    split; [reflexivity|]. split.
    { unfold bounded, canonical_mantissa. apply andb_true_iff. split.
      - apply Z.eqb_eq. change (digits2_pos 8388608) with 24%positive.
        unfold fexp, emin. lia.
      - exact Hle. }
    split; [reflexivity|]. split; [lia|].
    replace (d + e - 24 + 1 - (d + e - 24)) with 1 by lia.
    change (Zpos 8388608 * 2 ^ 1) with (2 ^ 24).
    change (2 ^ 24) with 16777216 in *. change (2 ^ 23) with 8388608 in *. lia.
  - assert (Hr : 2 ^ 23 <= mr < 2 ^ 24) by lia.
    destruct mr as [|q|q]; try lia.
    assert (Hdq : Zpos (digits2_pos q) = 24).
    { apply digits2_unique. change (24 - 1) with 23. exact Hr. }
    unfold shr_fexp. cbn [Zdigits2]. rewrite Hdq.
    assert (Hf : fexp 24 128 (24 + (d + e - 24)) = d + e - 24)
      by (unfold fexp, emin; lia).
    rewrite Hf, Z.sub_diag. cbn [shr shr_record_of_loc shr_m].
    assert (Hle : (d + e - 24 <=? 128 - 24) = true) by (apply Z.leb_le; lia).
    rewrite Hle. exists q, (d + e - 24).
    split; [reflexivity|]. split.
    { unfold bounded, canonical_mantissa. apply andb_true_iff. split.
      - apply Z.eqb_eq. rewrite Hdq. exact Hf.
      - exact Hle. }
    split; [exact Hdq|]. split; [lia|].
    rewrite Z.sub_diag. change (2 ^ 0) with 1. rewrite Z.mul_1_r. exact Hmr.
Qed.
End RoundNormal.

(** ** Rounding errors in binary32 *)

Module F32ErrFacts.
Import F32 F32Err.

Lemma real_value_finite (s : bool) (m : positive) (e : Z) :
  real_value (S754_finite s m e) = (sgn s * (IZR (Zpos m) * Exact.pow2 e))%R.
Proof. unfold real_value, Exact.of_pyfloat, sgn. destruct s; ring. Qed.

Lemma sgn_xorb (a b : bool) : sgn (xorb a b) = (sgn a * sgn b)%R.
Proof. destruct a, b; unfold sgn; cbn; ring. Qed.

Lemma sgn_abs (s : bool) (x : R) : (0 <= x)%R -> Rabs (sgn s * x) = x.
Proof.
  intros Hx. unfold sgn. destruct s.
  - replace (-1 * x)%R with (- x)%R by ring. rewrite Rabs_Ropp. now apply Rabs_right, Rle_ge.
  - rewrite Rmult_1_l. now apply Rabs_right, Rle_ge.
Qed.

Lemma u_pos : (0 < u)%R.
Proof. apply pow2_pos. Qed.

(** The magnitude of a normal number. *)
Lemma normal_mantissa (m : positive) :
  Zpos (digits2_pos m) = 24%Z -> (2 ^ 23 <= Zpos m < 2 ^ 24)%Z.
Proof. intros Hd. pose proof (digits2_bounds m) as Hb. rewrite Hd in Hb. exact Hb. Qed.

Open Scope R_scope.

(** Rounding a positive real number of the normal range, given by a mantissa
    of at least 24 digits that truncates it: the result is a normal number
    within one unit in the last place. *)
Lemma round_normal (s : bool) (m : positive) (e : Z) (l : location) (x : R) :
  (24 <= Zpos (digits2_pos m))%Z ->
  IZR (Zpos m) * Exact.pow2 e <= x < IZR (Zpos m + 1) * Exact.pow2 e ->
  Exact.pow2 (-126) <= x -> x < Exact.pow2 127 ->
  normal (binary_round_aux 24 128 s (Zpos m) e l)
  /\ Rabs (real_value (binary_round_aux 24 128 s (Zpos m) e l) - sgn s * x)
     <= u * x.
Proof.
  intros Hd [Hlo Hhi] Hmin Hmax.
  pose proof (digits2_bounds m) as [Hdl Hdh].
  set (d := Zpos (digits2_pos m)) in *.
  assert (Hpe : 0 < Exact.pow2 e) by apply pow2_pos.
  (* the exponent range *)
  assert (He1 : (-149 <= d + e - 24)%Z).
  { assert (Hx : x < Exact.pow2 (d + e)).
    { rewrite pow2_add, (@pow2_IZR d) by lia.
      eapply Rlt_le_trans; [exact Hhi|].
      apply Rmult_le_compat_r; [lra|]. apply IZR_le. lia. }
    assert (-126 < d + e)%Z by (apply pow2_lt_inv; lra). lia. }
  assert (He2 : (d + e <= 127)%Z).
  { assert (Hx : Exact.pow2 (d - 1 + e) <= x).
    { rewrite pow2_add, (@pow2_IZR (d - 1)) by lia.
      eapply Rle_trans; [|exact Hlo].
      apply Rmult_le_compat_r; [lra|]. apply IZR_le. lia. }
    assert (d - 1 + e < 127)%Z by (apply pow2_lt_inv; lra). lia. }
  destruct (binary_round_aux_normal s m e l Hd He1 He2)
    as (m' & e' & -> & Hb & Hd' & Hee & Hval).
  fold d in Hee, Hval.
  split; [split; assumption|].
  destruct (div_pow2_bounds m Hd) as [[Htl Hth] [Hml Hmh]].
  cbv zeta in Htl, Hth, Hml, Hmh. fold d in Htl, Hth, Hml, Hmh.
  set (t := (Zpos m / 2 ^ (d - 24))%Z) in *.
  set (e1 := (d + e - 24)%Z) in *.
  (* the value in units of 2^e1 *)
  assert (Hv : IZR (Zpos m') * Exact.pow2 e'
               = IZR (Zpos m' * 2 ^ (e' - e1)) * Exact.pow2 e1).
  { rewrite mult_IZR, <- pow2_IZR by lia. rewrite Rmult_assoc, <- pow2_add.
    do 2 f_equal. lia. }
  assert (Hp1 : 0 < Exact.pow2 e1) by apply pow2_pos.
  assert (Hsplit : Exact.pow2 e1 = IZR (2 ^ (d - 24)) * Exact.pow2 e).
  { rewrite <- pow2_IZR, <- pow2_add by lia. f_equal. unfold e1. lia. }
  assert (Hxl : IZR t * Exact.pow2 e1 <= x).
  { rewrite Hsplit, <- Rmult_assoc, <- mult_IZR.
    eapply Rle_trans; [|exact Hlo].
    apply Rmult_le_compat_r; [lra|]. now apply IZR_le. }
  assert (Hxh : x <= IZR (t + 1) * Exact.pow2 e1).
  { rewrite Hsplit, <- Rmult_assoc, <- mult_IZR.
    eapply Rle_trans; [apply Rlt_le; exact Hhi|].
    apply Rmult_le_compat_r; [lra|]. apply IZR_le. lia. }
  assert (Ht23 : IZR (2 ^ 23) * Exact.pow2 e1 <= x).
  { eapply Rle_trans; [|exact Hxl].
    apply Rmult_le_compat_r; [lra|]. now apply IZR_le. }
  assert (Hu : Exact.pow2 e1 <= u * x).
  { unfold u. 
    assert (E : Exact.pow2 (-23) * IZR (2 ^ 23) = 1).
    { rewrite <- pow2_IZR by lia. exact (pow2_opp 23). }
    assert (0 < Exact.pow2 (-23)) by apply pow2_pos.
    replace (Exact.pow2 e1) with (Exact.pow2 (-23) * (IZR (2 ^ 23) * Exact.pow2 e1))
      by (rewrite <- Rmult_assoc, E; ring).
    apply Rmult_le_compat_l; lra. }
  rewrite real_value_finite, Hv.
  replace (sgn s * (IZR (Zpos m' * 2 ^ (e' - e1)) * Exact.pow2 e1) - sgn s * x)
    with (sgn s * (IZR (Zpos m' * 2 ^ (e' - e1)) * Exact.pow2 e1 - x)) by ring.
  rewrite Rabs_mult.
  assert (Hs : Rabs (sgn s) = 1).
  { unfold sgn. destruct s; unfold Rabs; destruct (Rcase_abs _); lra. }
  rewrite Hs, Rmult_1_l.
  rewrite plus_IZR in Hxh.
  destruct Hval as [-> | ->]; [|rewrite plus_IZR];
    apply Rabs_le; lra.
Qed.
End F32ErrFacts.

Module F32Ops.
Import F32 F32Err F32ErrFacts.

Lemma digits_ge_24 (m : positive) : (2 ^ 23 <= Zpos m)%Z -> (24 <= Zpos (digits2_pos m))%Z.
Proof.
  intros Hm. pose proof (digits2_bounds m) as [_ Hhi].
  destruct (Z_lt_le_dec (Zpos (digits2_pos m)) 24) as [Hlt|]; [|assumption].
  assert (2 ^ Zpos (digits2_pos m) <= 2 ^ 23)%Z by (apply Z.pow_le_mono_r; lia).
  lia.
Qed.

Lemma normal_exp (s : bool) (m : positive) (e : Z) :
  normal (S754_finite s m e) -> (-149 <= e <= 104)%Z.
Proof.
  intros [Hb Hd]. unfold bounded, canonical_mantissa in Hb.
  apply andb_true_iff in Hb as [Hc He]. apply Z.eqb_eq in Hc. apply Z.leb_le in He.
  rewrite Hd in Hc. unfold fexp, emin in Hc. lia.
Qed.


Open Scope R_scope.

(** The magnitude of a normal number. *)
Lemma normal_abs (s : bool) (m : positive) (e : Z) :
  Rabs (real_value (S754_finite s m e)) = IZR (Zpos m) * Exact.pow2 e.
Proof.
  rewrite real_value_finite. apply sgn_abs.
  apply Rmult_le_pos; [apply IZR_le; lia | apply Rlt_le, pow2_pos].
Qed.

Lemma normal_ge (x : spec_float) :
  normal x -> Exact.pow2 (-126) <= Rabs (real_value x).
Proof.
  destruct x as [| | |s m e]; try contradiction. intros Hn.
  pose proof (normal_exp Hn) as He. destruct Hn as [_ Hd].
  pose proof (normal_mantissa m Hd) as [Hlo _].
  rewrite normal_abs.
  replace (-126)%Z with (23 + -149)%Z by lia. rewrite pow2_add, (@pow2_IZR 23) by lia.
  pose proof (pow2_pos (-149)). pose proof (@pow2_le (-149) e ltac:(lia)).
  assert (IZR (2 ^ 23) <= IZR (Zpos m)) by now apply IZR_le.
  assert (0 < IZR (2 ^ 23)) by (apply IZR_lt; lia).
  nra.
Qed.



End F32Ops.

Module F32Ops2.
Import F32 F32Err F32ErrFacts F32Ops.

Open Scope R_scope.


(** The quotient of two normal numbers. *)
Lemma SFdiv_normal (x y : spec_float) :
  normal x -> normal y ->
  Exact.pow2 (-125) <= Rabs (real_value x / real_value y) ->
  Rabs (real_value x / real_value y) < Exact.pow2 126 ->
  normal (SFdiv 24 128 x y)
  /\ Rabs (real_value (SFdiv 24 128 x y) - real_value x / real_value y)
     <= u * Rabs (real_value x / real_value y).
Proof.
  destruct x as [| | |sx mx ex]; try contradiction.
  destruct y as [| | |sy my ey]; try contradiction.
  intros [_ Hdx] [_ Hdy].
  pose proof (normal_mantissa mx Hdx) as [Hxl Hxh].
  pose proof (normal_mantissa my Hdy) as [Hyl Hyh].
  set (X := IZR (Zpos mx) * Exact.pow2 ex / (IZR (Zpos my) * Exact.pow2 ey)).
  assert (Hpx : 0 < Exact.pow2 ex) by apply pow2_pos.
  assert (Hpy : 0 < Exact.pow2 ey) by apply pow2_pos.
  assert (Hmx : 0 < IZR (Zpos mx)) by (apply IZR_lt; lia).
  assert (Hmy : 0 < IZR (Zpos my)) by (apply IZR_lt; lia).
  assert (Hq : real_value (S754_finite sx mx ex) / real_value (S754_finite sy my ey)
               = sgn (xorb sx sy) * X).
  { rewrite !real_value_finite, sgn_xorb. unfold X, sgn.
    destruct sx, sy; field; split; lra. }
  rewrite Hq.
  assert (HX0 : 0 < X).
  { unfold X. apply Rdiv_lt_0_compat; nra. }
  rewrite sgn_abs by lra. intros Hmin Hmax.
  set (ed := (ex - ey)%Z).
  assert (HXe : X = IZR (Zpos mx) / IZR (Zpos my) * Exact.pow2 ed).
  { unfold X, ed. replace ex with (ex - ey + ey)%Z at 1 by lia.
    rewrite pow2_add. field. split; lra. }
  assert (H23 : IZR (2 ^ 23) <= IZR (Zpos mx)) by now apply IZR_le.
  assert (H24 : IZR (Zpos mx) < IZR (2 ^ 24)) by now apply IZR_lt.
  assert (H23' : IZR (2 ^ 23) <= IZR (Zpos my)) by now apply IZR_le.
  assert (H24' : IZR (Zpos my) < IZR (2 ^ 24)) by now apply IZR_lt.
  change (IZR (2 ^ 23)) with 8388608 in *. change (IZR (2 ^ 24)) with 16777216 in *.
  assert (Hped : 0 < Exact.pow2 ed) by apply pow2_pos.
  assert (Hratio : / 2 < IZR (Zpos mx) / IZR (Zpos my) < 2).
  { split.
    - apply Rmult_lt_reg_r with (IZR (Zpos my)); [lra|].
      unfold Rdiv. rewrite Rmult_assoc, Rinv_l by lra. lra.
    - apply Rmult_lt_reg_r with (IZR (Zpos my)); [lra|].
      unfold Rdiv. rewrite Rmult_assoc, Rinv_l by lra. lra. }
  assert (Hed : (-125 <= ed <= 126)%Z).
  { split.
    - assert (Exact.pow2 (-125) < Exact.pow2 (ed + 1)).
      { rewrite pow2_add. change (Exact.pow2 1) with 2. nra. }
      assert (-125 < ed + 1)%Z by now apply pow2_lt_inv. lia.
    - assert (Exact.pow2 (ed - 1) < Exact.pow2 126).
      { replace (ed - 1)%Z with (ed + -1)%Z by lia. rewrite pow2_add.
        change (Exact.pow2 (-1)) with (/ IZR (Z.pow_pos 2 1)).
        change (IZR (Z.pow_pos 2 1)) with 2. nra. }
      assert (ed - 1 < 126)%Z by now apply pow2_lt_inv. lia. }
  cbn [SFdiv]. unfold SFdiv_core_binary. cbn [Zdigits2]. rewrite Hdx, Hdy.
  replace (24 + ex - (24 + ey))%Z with ed by (unfold ed; lia).
  fold ed.
  assert (He' : Z.min (fexp 24 128 ed) ed = (ed - 24)%Z)
    by (unfold fexp, emin; lia).
  rewrite He'. replace (ed - (ed - 24))%Z with 24%Z by lia.
  rewrite Z.shiftl_mul_pow2 by lia.
  set (m' := (Zpos mx * 2 ^ 24)%Z).
  pose proof (Z_div_mod m' (Zpos my) ltac:(lia)) as Hdm.
  destruct (Z.div_eucl m' (Zpos my)) as [q r]. destruct Hdm as [Hm' Hr].
  assert (Hq23 : (2 ^ 23 <= q)%Z).
  { unfold m' in Hm'. change (2 ^ 23)%Z with 8388608%Z in *.
    change (2 ^ 24)%Z with 16777216%Z in *. nia. }
  destruct q as [|q|q]; try lia.
  assert (Hdq : (24 <= Zpos (digits2_pos q))%Z) by (apply digits_ge_24; lia).
  assert (HXq : X = IZR m' / IZR (Zpos my) * Exact.pow2 (ed - 24)).
  { rewrite HXe. unfold m'. rewrite mult_IZR, <- (@pow2_IZR 24) by lia.
    replace ed with (24 + (ed - 24))%Z at 1 by lia. rewrite pow2_add.
    field. lra. }
  assert (Hpe : 0 < Exact.pow2 (ed - 24)) by apply pow2_pos.
  assert (Hm'R : IZR m' = IZR (Zpos my) * IZR (Zpos q) + IZR r).
  { rewrite Hm', plus_IZR, mult_IZR. reflexivity. }
  assert (Hr0 : 0 <= IZR r < IZR (Zpos my)).
  { split; [apply IZR_le | apply IZR_lt]; lia. }
  assert (Hsand : IZR (Zpos q) <= IZR m' / IZR (Zpos my) < IZR (Zpos q + 1)).
  { rewrite plus_IZR. split.
    - apply Rmult_le_reg_r with (IZR (Zpos my)); [lra|].
      unfold Rdiv. rewrite Rmult_assoc, Rinv_l by lra. nra.
    - apply Rmult_lt_reg_r with (IZR (Zpos my)); [lra|].
      unfold Rdiv. rewrite Rmult_assoc, Rinv_l by lra. nra. }
  destruct (@round_normal (xorb sx sy) q (ed - 24) (new_location (Zpos my) r) X Hdq)
    as [Hn Herr].
  - rewrite HXq. split; nra.
  - assert (Exact.pow2 (-126) <= Exact.pow2 (-125)) by (apply pow2_le; lia). lra.
  - assert (Exact.pow2 126 <= Exact.pow2 127) by (apply pow2_le; lia). lra.
  - split; [exact Hn | exact Herr].
Qed.
End F32Ops2.

(** ** Exact sums *)

Open Scope R_scope.

Lemma Rabs_le_between (a b : R) : Rabs a <= b -> - b <= a <= b.
Proof. unfold Rabs. destruct (Rcase_abs a); lra. Qed.

Lemma sumR_app (l l' : list R) : sumR (l ++ l') = sumR l + sumR l'.
Proof.
  unfold sumR. induction l as [|x l IH]; cbn [app fold_right]; [lra | rewrite IH; lra].
Qed.

Lemma sumR_perm (l l' : list R) : Permutation l l' -> sumR l = sumR l'.
Proof.
  unfold sumR.
  induction 1 as [|x l l' _ IH|x y l|l l' l'' _ IH1 _ IH2]; cbn [fold_right]; lra.
Qed.

Lemma tsum_leaves (vals : list R) (t : SumTree) :
  tsum vals t = sumR (map (fun i => nth i vals 0) (leaves t)).
Proof.
  induction t as [i| |l IHl r IHr]; cbn [tsum leaves map sumR fold_right].
  - lra.
  - reflexivity.
  - rewrite map_app, sumR_app. lra.
Qed.

Lemma map_nth_seq {A : Type} (l : list A) (d : A) :
  map (fun i => nth i l d) (seq 0 (length l)) = l.
Proof.
  induction l as [|x l IH] using rev_ind; [reflexivity|].
  rewrite length_app. cbn [length]. rewrite Nat.add_1_r, seq_S, map_app.
  cbn [map Nat.add]. rewrite app_nth2, Nat.sub_diag by lia. cbn [nth].
  f_equal. rewrite <- IH at 2. apply map_ext_in. intros i Hi.
  apply in_seq in Hi. now rewrite app_nth1 by lia.
Qed.

(** A tree that covers the list adds all its entries. *)
Lemma tsum_covers (vals : list R) (t : SumTree) :
  covers (length vals) t -> tsum vals t = sumR vals.
Proof.
  intros Hc. rewrite tsum_leaves.
  rewrite (sumR_perm (Permutation_map (fun i => nth i vals 0) Hc)).
  now rewrite map_nth_seq.
Qed.

Lemma nleaves_covers (n : nat) (t : SumTree) : covers n t -> nleaves t = n.
Proof.
  intros Hc. unfold nleaves. rewrite (Permutation_length Hc). apply length_seq.
Qed.

Lemma tsum_nonneg (vals : list R) (t : SumTree) :
  (forall i, 0 <= nth i vals 0) -> 0 <= tsum vals t.
Proof.
  intros Hv. induction t as [i| |l IHl r IHr]; cbn [tsum]; [apply Hv | lra | lra].
Qed.

Lemma tsum_no_leaf (vals : list R) (t : SumTree) :
  nleaves t = 0%nat -> tsum vals t = 0.
Proof.
  unfold nleaves. induction t as [i| |l IHl r IHr]; cbn [leaves tsum];
    intros Hn; try discriminate; [reflexivity|].
  rewrite length_app in Hn. rewrite IHl, IHr by lia. lra.
Qed.



Lemma sumR_nonneg (l : list R) : Forall (fun a => 0 <= a) l -> 0 <= sumR l.
Proof. unfold sumR. induction 1 as [|a l Ha _ IH]; cbn [fold_right]; lra. Qed.

Lemma sumR_le_bound (c : R) (l : list R) :
  Forall (fun a => a <= c) l -> sumR l <= INR (length l) * c.
Proof.
  induction 1 as [|a l Ha _ IH]; [cbn; lra|].
  cbn [sumR fold_right length]. rewrite S_INR. fold (sumR l). lra.
Qed.


(** ** Powers of 1 + u and 1 - u *)

Lemma pow_1pu_ge_1 (x : R) (n : nat) : 0 <= x -> 1 <= (1 + x) ^ n.
Proof. intros Hx. apply pow_R1_Rle. lra. Qed.




Lemma pow_1pu_le (x : R) (n : nat) :
  0 <= x -> INR n * x <= / 2 -> (1 + x) ^ n <= 1 + 2 * INR n * x.
Proof.
  intros Hx. induction n as [|n IH]; intros Hn; [cbn; lra|].
  rewrite S_INR in *. cbn [pow]. pose proof (pos_INR n).
  assert (INR n * x <= / 2) by nra. specialize (IH H0). nra.
Qed.

Lemma pow_le_mono_1pu (x : R) (n m : nat) :
  0 <= x -> (n <= m)%nat -> (1 + x) ^ n <= (1 + x) ^ m.
Proof. intros Hx Hnm. apply Rle_pow; [lra | assumption]. Qed.


Module F32TreeFacts.
Import F32 F32Err F32ErrFacts F32Ops F32Ops2 F32m F32mFacts F32Tree.

Lemma u_val : u = (/ 8388608)%R.
Proof. reflexivity. Qed.

Lemma u_bounds : (0 < u < / 1000000)%R.
Proof. rewrite u_val. lra. Qed.

Lemma real_value_zero (x : spec_float) : is_zero x = true -> real_value x = 0%R.
Proof. destruct x; try discriminate. reflexivity. Qed.

Lemma nth_real_value (xs : list spec_float) (i : nat) :
  nth i (map real_value xs) 0%R = real_value (nth i xs (cast 0)).
Proof. exact (map_nth real_value xs (cast 0) i). Qed.

Section Mode.
Variable md : FlushMode.

Lemma flush_in_normal (x : spec_float) : normal x -> Flushed.flush_in md 24 x = x.
Proof.
  destruct x as [| | |s m e]; try contradiction. intros [_ Hd].
  unfold Flushed.flush_in, Flushed.flush. rewrite Hd.
  now destruct (daz md).
Qed.

Lemma flush_out_normal (x : spec_float) : normal x -> Flushed.flush_out md 24 x = x.
Proof.
  destruct x as [| | |s m e]; try contradiction. intros [_ Hd].
  unfold Flushed.flush_out, Flushed.flush. rewrite Hd.
  now destruct (ftz md).
Qed.


Open Scope R_scope.

End Mode.
End F32TreeFacts.

Module F32NormFacts.
Import F32 F32Err F32ErrFacts F32Ops F32Ops2 F32m F32mFacts F32Tree F32TreeFacts F32Norm.

Open Scope R_scope.







Section Mode.
Variable md : FlushMode.






End Mode.
End F32NormFacts.


Module F32UnitFacts.
Import F32 F32Err F32ErrFacts F32Ops F32Ops2 F32m F32mFacts F32Tree F32TreeFacts F32Norm F32NormFacts F32Unit.

Open Scope R_scope.



End F32UnitFacts.

Module F32Rows.
Import F32 F32Err F32ErrFacts F32Ops F32Ops2 F32m F32mFacts F32Tree F32TreeFacts F32Norm F32NormFacts F32Unit F32UnitFacts.

Open Scope R_scope.



Lemma small_length (n : nat) (k : nat) :
  (Z.of_nat n <= 2 ^ 20)%Z -> (k <= 8)%nat -> INR (n + k) * u <= / 2.
Proof.
  intros Hn Hk. rewrite INR_IZR_INZ, u_val.
  assert (IZR (Z.of_nat (n + k)) <= IZR (2 ^ 20 + 8)) by (apply IZR_le; lia).
  change (IZR (2 ^ 20 + 8)) with 1048584 in H. lra.
Qed.

Section Mode.
Variable md : FlushMode.


End Mode.
End F32Rows.

Module F32RangeFacts.
Import F32 F32Err F32ErrFacts F32Ops F32Tree F32TreeFacts F32Norm F32NormFacts F32Range.

Lemma normalb_normal (x : spec_float) : normalb x = true <-> normal x.
Proof.
  destruct x as [| | |s m e]; cbn [normalb normal]; try (split; [discriminate | contradiction]).
  rewrite andb_true_iff, Z.eqb_eq. reflexivity.
Qed.

Open Scope R_scope.

Lemma in_rangeb_in_range (p q : Z) (x : spec_float) :
  in_rangeb p q x = true -> in_range p q x.
Proof.
  destruct x as [s| | |s m e]; cbn [in_rangeb]; try discriminate.
  - intros _. now left.
  - intros Hb. apply andb_true_iff in Hb as [Hb Hq].
    apply andb_true_iff in Hb as [Hn Hp].
    apply Z.leb_le in Hp, Hq. apply normalb_normal in Hn.
    right. split; [exact Hn|]. destruct Hn as [_ Hd].
    pose proof (normal_mantissa m Hd) as [Hlo Hhi].
    rewrite normal_abs.
    assert (Hpe : 0 < Exact.pow2 e) by apply pow2_pos.
    assert (IZR (2 ^ 23) <= IZR (Zpos m)) by now apply IZR_le.
    assert (IZR (Zpos m) <= IZR (2 ^ 24)) by (apply IZR_le; lia).
    split.
    + apply Rle_trans with (Exact.pow2 (e + 23)); [apply pow2_le; lia|].
      rewrite Z.add_comm, pow2_add, (@pow2_IZR 23) by lia.
      apply Rmult_le_compat_r; lra.
    + apply Rle_trans with (Exact.pow2 (e + 24)); [|apply pow2_le; lia].
      rewrite Z.add_comm, pow2_add, (@pow2_IZR 24) by lia.
      apply Rmult_le_compat_r; lra.
Qed.


End F32RangeFacts.






(** ** Permuting the positions of a row *)






Section Permute.
Variable F : Type.
Variable A : Arith F.





End Permute.

(** ** The index order *)

Lemma no_flushing_arith (prec emax : Z) :
  Flushed.arith (mkMode false false) prec emax = IEEE.arith prec emax.
Proof. reflexivity. Qed.

Section IndexOrder.
Variable F : Type.
Variable A : Arith F.

Lemma fold_rows_nth (H h : nat) (row : list (list F)) (acc : list F) (d : F) :
  Forall (fun v => length v = H) row -> length acc = H -> (h < H)%nat ->
  nth h (fold_left (zip_with f_add) row acc) d
  = fold_left f_add (column A h row) (nth h acc d).
Proof.
  revert acc. induction row as [|v row IH]; intros acc Hrow Hacc Hh; [reflexivity|].
  cbn [fold_left column map]. fold (column A h row).
  pose proof (Forall_inv Hrow) as Hv. cbn beta in Hv.
  rewrite IH; [|now apply Forall_inv_tail in Hrow | rewrite zip_with_length; lia | exact Hh].
  f_equal. rewrite (@nth_zip_with _ _ _ f_add acc v h d (f_cast 0) d) by lia.
  reflexivity.
Qed.

(** The sum of the vectors of a row in index order is [sum_rows]. *)
Lemma sum_rows_chain (T H : nat) (row : list (list F)) :
  rect2 T H row -> (1 <= T)%nat ->
  sum_rows A row = sum_columns A (fun _ => chain T) H row.
Proof.
  intros [HT Hrow] H1.
  assert (Hhd : length (hd [] row) = H).
  { destruct row as [|v row]; [cbn in HT; lia|]. now inversion Hrow. }
  assert (Hlen : length (sum_rows A row) = H).
  { apply sum_rows_length; [exact Hrow|]. intros ->. cbn in HT. lia. }
  apply (nth_ext _ _ (f_cast 0) (f_cast 0)).
  - unfold sum_columns. now rewrite Hlen, length_map, length_seq.
  - rewrite Hlen. intros h Hh. unfold sum_columns.
    set (g := fun h => sum_by A (chain T) (column A h row)).
    rewrite (nth_indep (map g (seq 0 H)) (f_cast 0) (g 0%nat))
      by now rewrite length_map, length_seq.
    rewrite (map_nth g (seq 0 H) 0%nat h), seq_nth by exact Hh. cbn [Nat.add].
    unfold g, sum_rows. rewrite Hhd.
    rewrite (@fold_rows_nth H h row _ (f_cast 0) Hrow) by (trivial; apply repeat_length).
    rewrite nth_repeat_lt by exact Hh.
    destruct (sum_by_chain A (column A h row) T) as [-> | Hlt].
    + unfold column. now rewrite <- HT, <- (length_map (fun v => nth h v (f_cast 0)) row),
        firstn_all.
    + unfold column in Hlt. rewrite length_map in Hlt. lia.
Qed.
End IndexOrder.

Lemma map_snd_combine_seq {A B : Type} (g : list A -> B) (l : list (list A)) (s : nat) :
  map (fun br => g (snd br)) (combine (seq s (length l)) l) = map g l.
Proof.
  revert s. induction l as [|x l IH]; intro s; [reflexivity|].
  cbn [length seq combine map snd]. now rewrite IH.
Qed.

(** [reduce_sum] over the token axis, in index order. *)
Lemma reduce_sum_axis1_index_order {F : Type} (arith : DType -> Arith F)
    (B T H : nat) (t : Tensor3 F) :
  rect3 B T H (data3 t) -> (1 <= B)%nat -> (1 <= T)%nat ->
  reduce_sum_axis1 arith t = reduce_sum_axis1_by arith index_order t.
Proof.
  intros Hr HB HT. unfold reduce_sum_axis1, reduce_sum_axis1_by.
  rewrite (tf_shape_rect Hr HB HT). f_equal.
  destruct Hr as [Hlen Hrows]. cbn [index_order order3 fst].
  rewrite <- Hlen.
  rewrite (map_snd_combine_seq
    (fun row => map (fun h => sum_by (arith (dtype3 t)) (chain T)
                                (column (arith (dtype3 t)) h row)) (seq 0 H))).
  apply map_ext_in. intros row Hin.
  rewrite Forall_forall in Hrows.
  now apply sum_rows_chain; [apply Hrows|].
Qed.

Lemma map_snd_combine_seq1 {A B : Type} (g : A -> B) (l : list A) (s : nat) :
  map (fun br => g (snd br)) (combine (seq s (length l)) l) = map g l.
Proof.
  revert s. induction l as [|x l IH]; intro s; [reflexivity|].
  cbn [length seq combine map snd]. now rewrite IH.
Qed.

(** [reduce_sum] over the hidden axis, in index order. *)
Lemma reduce_sum_keepdims_index_order {F : Type} (arith : DType -> Arith F)
    (B H : nat) (t : Tensor2 F) :
  rect2 B H (data2 t) ->
  reduce_sum_keepdims arith t = reduce_sum_keepdims_by arith index_order t.
Proof.
  intros [HB Hrows]. unfold reduce_sum_keepdims, reduce_sum_keepdims_by.
  f_equal. cbn [index_order order2].
  rewrite (map_snd_combine_seq1
    (fun row => [sum_by (arith (dtype2 t)) (chain (length (hd [] (data2 t)))) row])).
  apply map_ext_in. intros row Hin. f_equal.
  assert (Hh : length (hd [] (data2 t)) = length row).
  { rewrite Forall_forall in Hrows. rewrite (Hrows row Hin).
    destruct (data2 t) as [|r d]; [destruct Hin|].
    cbn [hd]. apply Hrows. now left. }
  rewrite Hh. unfold sum_list.
  destruct (sum_by_chain (arith (dtype2 t)) row (length row)) as [-> | Hlt]; [|lia].
  now rewrite firstn_all.
Qed.

Section IndexOrderModel.
Variable F : Type.
Variable arith : DType -> Arith F.

(** On tensors of shape (B, T, H) and (B, T), [mean_pooling] is
    [mean_pooling_by] with every reduction in index order. *)
Lemma mean_pooling_index_order (B T H : nat) (te : Tensor3 F) (mask : IntTensor2) :
  rect3 B T H (data3 te) -> rect2 B T mask -> (1 <= B)%nat -> (1 <= T)%nat ->
  mean_pooling arith (mkOut te) mask
  = mean_pooling_by arith index_order (mkOut te) mask.
Proof.
  intros Hte Hmask HB HT. unfold mean_pooling, mean_pooling_by.
  cbn [last_hidden_state].
  rewrite (input_mask_expanded_rows arith te Hte Hmask HB HT). cbn [bind].
  unfold tf_mul3. cbn [dtype3 data3].
  destruct (dtype_eqb (dtype3 te) float32); [|reflexivity]. cbn [bind].
  assert (Hime : rect3 B T H (map (mask_row (arith float32) H) mask))
    by now apply mask_rect3.
  pose proof (zip3_rect (@f_mul F (arith (dtype3 te))) Hte Hime) as Hprod.
  rewrite (@reduce_sum_axis1_index_order F arith B T H (mkT3 (dtype3 te) _) Hprod HB HT).
  rewrite (@reduce_sum_axis1_index_order F arith B T H
             (mkT3 float32 (map (mask_row (arith float32) H) mask)) Hime HB HT).
  reflexivity.
Qed.

(** [normalize] is [normalize_by] with the reduction in index order. *)
Lemma normalize_index_order (B H : nat) (t : Tensor2 F) :
  rect2 B H (data2 t) ->
  normalize arith t = normalize_by arith index_order t.
Proof.
  intros Ht. unfold normalize, normalize_by, tf_linalg_normalize,
    tf_linalg_normalize_by, tf_mul2.
  destruct (dtype_eqb (dtype2 t) (dtype2 t)); [|reflexivity]. cbn [bind].
  rewrite (@reduce_sum_keepdims_index_order F arith B H
            (mkT2 (dtype2 t) (zip_with (zip_with f_mul) (data2 t) (data2 t)))).
  - reflexivity.
  - cbn [data2]. destruct Ht as [HB Hrows]. split; [rewrite zip_with_length; lia|].
    rewrite zip_with_combine. apply Forall_forall. intros r Hin.
    apply in_map_iff in Hin as ([x y] & <- & Hxy). cbn [fst snd].
    rewrite Forall_forall in Hrows.
    rewrite zip_with_length, (Hrows x (in_combine_l _ _ _ _ Hxy)),
      (Hrows y (in_combine_r _ _ _ _ Hxy)). lia.
Qed.
End IndexOrderModel.

(** ** Sums of numbers of both signs in binary32 *)

Module F32SignedFacts.
Import F32 F32Err F32ErrFacts F32Ops F32Signed.

Open Scope R_scope.

Lemma grid_int (m N e g : Z) :
  (e <= g)%Z -> IZR m * Exact.pow2 e = IZR N * Exact.pow2 g ->
  m = (N * 2 ^ (g - e))%Z.
Proof.
  intros Hle Heq. apply eq_IZR. rewrite mult_IZR, <- pow2_IZR by lia.
  assert (Hg : Exact.pow2 g = Exact.pow2 (g - e) * Exact.pow2 e).
  { rewrite <- pow2_add. f_equal. lia. }
  rewrite Hg in Heq. pose proof (pow2_pos e).
  apply (Rmult_eq_reg_r (Exact.pow2 e)); [|lra]. rewrite Heq. ring.
Qed.

Lemma bounded_24 (m : positive) (e : Z) :
  Zpos (digits2_pos m) = 24%Z -> (-149 <= e <= 104)%Z -> bounded 24 128 m e = true.
Proof.
  intros Hd He. unfold bounded, canonical_mantissa. rewrite Hd.
  apply andb_true_iff. split; [apply Z.eqb_eq; unfold fexp, emin; lia | apply Z.leb_le; lia].
Qed.

(** Rounding a multiple of 2^g, with g at least -126: the result is a normal
    number, a multiple of 2^g, within one unit in the last place. *)
Lemma binary_round_grid (s : bool) (m : positive) (e g N : Z) :
  (-126 <= g)%Z ->
  IZR (Zpos m) * Exact.pow2 e = IZR N * Exact.pow2 g ->
  IZR (Zpos m) * Exact.pow2 e < Exact.pow2 127 ->
  normal (binary_round 24 128 s m e)
  /\ on_grid g (binary_round 24 128 s m e)
  /\ Rabs (real_value (binary_round 24 128 s m e)
           - sgn s * (IZR (Zpos m) * Exact.pow2 e))
     <= u * (IZR (Zpos m) * Exact.pow2 e).
Proof.
  intros Hg HN Hmax.
  set (V := IZR (Zpos m) * Exact.pow2 e) in *.
  pose proof (digits2_bounds m) as [Hdl Hdh]. set (d := Zpos (digits2_pos m)) in *.
  assert (Hd1 : (1 <= d)%Z) by (unfold d; lia).
  pose proof (pow2_pos e) as Hpe. pose proof (pow2_pos g) as Hpg.
  pose proof u_pos as Hu.
  assert (HV0 : 0 < V).
  { unfold V. apply Rmult_lt_0_compat; [apply IZR_lt; lia | exact Hpe]. }
  assert (HN1 : (1 <= N)%Z).
  { destruct (Z_lt_le_dec N 1); [|assumption].
    assert (IZR N <= 0) by (apply IZR_le; lia). nra. }
  assert (HVg : Exact.pow2 g <= V).
  { rewrite HN. assert (1 <= IZR N) by (apply IZR_le; lia). nra. }
  assert (HVlo : Exact.pow2 (d - 1 + e) <= V).
  { rewrite pow2_add, (@pow2_IZR (d - 1)) by lia. unfold V.
    apply Rmult_le_compat_r; [lra|]. now apply IZR_le. }
  assert (HVhi : V < Exact.pow2 (d + e)).
  { rewrite pow2_add, (@pow2_IZR d) by lia. unfold V.
    apply Rmult_lt_compat_r; [lra|]. now apply IZR_lt. }
  assert (He1 : (-149 <= d + e - 24)%Z).
  { pose proof (@pow2_le (-126) g Hg).
    assert (-126 < d + e)%Z by (apply pow2_lt_inv; lra). lia. }
  assert (He2 : (d + e <= 127)%Z).
  { assert (d - 1 + e < 127)%Z by (apply pow2_lt_inv; lra). lia. }
  set (e1 := (d + e - 24)%Z) in *.
  assert (Hf : fexp 24 128 (d + e) = e1) by (unfold fexp, emin, e1; lia).
  (* the result when the value is a float [(m0, e1)] *)
  assert (Hexact : forall m0 : positive,
             Zpos (digits2_pos m0) = 24%Z ->
             IZR (Zpos m0) * Exact.pow2 e1 = V ->
             normal (S754_finite s m0 e1)
             /\ on_grid g (S754_finite s m0 e1)
             /\ Rabs (real_value (S754_finite s m0 e1) - sgn s * V) <= u * V).
  { intros m0 Hd0 HV'. split; [|split].
    - split; [apply bounded_24; trivial; unfold e1 in *; lia | exact Hd0].
    - exists (if s then (- N)%Z else N). rewrite real_value_finite, HV', HN.
      unfold sgn. destruct s; [rewrite opp_IZR|]; ring.
    - rewrite real_value_finite, HV'.
      replace (sgn s * V - sgn s * V) with 0 by ring. rewrite Rabs_R0. nra. }
  unfold binary_round. fold d. rewrite Hf.
  destruct (Z_le_gt_dec d 24) as [Hsmall | Hbig].
  - (* the mantissa is shifted to 24 digits *)
    pose proof (@shl_align_fst m e e1 ltac:(unfold e1; lia)) as Hm'.
    pose proof (shl_align_snd m e e1) as He'.
    destruct (shl_align m e e1) as [m' e']. cbn [fst snd] in Hm', He'.
    rewrite Z.min_r in He' by (unfold e1; lia). subst e'.
    replace (e - e1)%Z with (24 - d)%Z in Hm' by (unfold e1; lia).
    assert (Hp : (0 < 2 ^ (24 - d))%Z) by (apply Z.pow_pos_nonneg; lia).
    assert (H23 : (2 ^ 23 = 2 ^ (d - 1) * 2 ^ (24 - d))%Z).
    { rewrite <- Z.pow_add_r by lia. f_equal. lia. }
    assert (H24 : (2 ^ 24 = 2 ^ d * 2 ^ (24 - d))%Z).
    { rewrite <- Z.pow_add_r by lia. f_equal. lia. }
    assert (Hd' : Zpos (digits2_pos m') = 24%Z).
    { apply digits2_unique. change (24 - 1)%Z with 23%Z. rewrite H23, H24, Hm'. nia. }
    pose proof (@binary_round_aux_exact 24 128 s m' e1 0
                  (@bounded_24 m' e1 Hd' ltac:(unfold e1 in *; lia)) (Z.le_refl 0)) as Hex.
    change (2 ^ 0)%Z with 1%Z in Hex. rewrite Z.mul_1_r, Z.sub_0_r in Hex.
    rewrite Hex. apply Hexact; [exact Hd'|].
    rewrite Hm', mult_IZR, <- pow2_IZR by lia. rewrite Rmult_assoc, <- pow2_add.
    unfold V. do 2 f_equal. unfold e1. lia.
  - assert (Hsh : shl_align m e e1 = (m, e)).
    { unfold shl_align. destruct (e1 - e)%Z eqn:E; try reflexivity.
      unfold e1 in E. lia. }
    rewrite Hsh.
    destruct (Z_le_gt_dec g e1) as [Hge | Hlt].
    + (* rounding to a multiple of 2^e1 *)
      destruct (@round_normal s m e loc_Exact V ltac:(fold d; lia)) as [Hn Herr].
      { split; [unfold V; lra|]. unfold V. rewrite plus_IZR. nra. }
      { pose proof (@pow2_le (-126) g Hg). lra. }
      { exact Hmax. }
      split; [exact Hn|]. split; [|exact Herr].
      destruct (@binary_round_aux_normal s m e loc_Exact ltac:(fold d; lia)
                  ltac:(fold d; fold e1; lia) ltac:(fold d; lia))
        as (m' & e' & Heq & Hb & Hd' & Hee & _).
      fold d in Hee. fold e1 in Hee. rewrite Heq.
      exists ((if s then -1 else 1) * (Zpos m' * 2 ^ (e' - g)))%Z.
      rewrite real_value_finite, !mult_IZR, <- pow2_IZR by lia.
      rewrite !Rmult_assoc, <- pow2_add. replace (e' - g + g)%Z with e' by lia.
      unfold sgn. destruct s; reflexivity.
    + (* the value is a float *)
      assert (Hm : Zpos m = (N * 2 ^ (g - e))%Z)
        by (apply grid_int; [unfold e1 in Hlt; lia | exact HN]).
      set (j := (d - 24)%Z).
      assert (Hj : (0 < j)%Z) by (unfold j; lia).
      assert (Hsplit : (2 ^ (g - e) = 2 ^ (g - e - j) * 2 ^ j)%Z).
      { rewrite <- Z.pow_add_r by (unfold j, e1 in *; lia). f_equal. lia. }
      assert (Hpj : (0 < 2 ^ j)%Z) by (apply Z.pow_pos_nonneg; lia).
      assert (Hpq : (0 < 2 ^ (g - e - j))%Z)
        by (apply Z.pow_pos_nonneg; unfold j, e1 in *; lia).
      destruct (N * 2 ^ (g - e - j))%Z as [|m0|m0] eqn:Em0; try nia.
      assert (Hm0 : Zpos m = (Zpos m0 * 2 ^ j)%Z).
      { rewrite Hm, Hsplit, Z.mul_assoc, Em0. reflexivity. }
      assert (Hdd : (2 ^ d = 2 ^ 24 * 2 ^ j)%Z).
      { rewrite <- Z.pow_add_r by lia. f_equal. unfold j. lia. }
      assert (Hdd1 : (2 ^ (d - 1) = 2 ^ 23 * 2 ^ j)%Z).
      { rewrite <- Z.pow_add_r by lia. f_equal. unfold j. lia. }
      assert (Hd0 : Zpos (digits2_pos m0) = 24%Z).
      { apply digits2_unique. change (24 - 1)%Z with 23%Z. nia. }
      pose proof (@binary_round_aux_exact 24 128 s m0 e1 j
                    (@bounded_24 m0 e1 Hd0 ltac:(unfold e1 in *; lia)) ltac:(lia)) as Hex.
      rewrite <- Hm0 in Hex. replace (e1 - j)%Z with e in Hex by (unfold e1, j; lia).
      rewrite Hex. apply Hexact; [exact Hd0|].
      unfold V. rewrite Hm0, mult_IZR, <- pow2_IZR by lia.
      rewrite Rmult_assoc, <- pow2_add. do 2 f_equal. unfold e1, j. lia.
Qed.
End F32SignedFacts.

Module F32SignedAdd.
Import F32 F32Err F32ErrFacts F32Ops F32Ops2 F32m F32mFacts F32Tree F32TreeFacts
  F32Signed F32SignedFacts.

Open Scope R_scope.

Lemma zn_zero (s : bool) : zn (S754_zero s).
Proof. now left. Qed.

Lemma on_grid_zero (g : Z) (x : spec_float) : is_zero x = true -> on_grid g x.
Proof. intros Hz. exists 0%Z. rewrite (real_value_zero _ Hz). ring. Qed.

Lemma normal_not_zero (x : spec_float) : normal x -> real_value x <> 0.
Proof.
  intros Hn Hz. pose proof (normal_ge x Hn) as Hge. rewrite Hz, Rabs_R0 in Hge.
  pose proof (pow2_pos (-126)). lra.
Qed.

Lemma shl_align_value (m : positive) (e ez : Z) :
  (ez <= e)%Z ->
  IZR (Zpos (fst (shl_align m e ez))) * Exact.pow2 ez = IZR (Zpos m) * Exact.pow2 e.
Proof.
  intros Hle. rewrite (shl_align_fst m Hle), mult_IZR, <- pow2_IZR by lia.
  rewrite Rmult_assoc, <- pow2_add. do 2 f_equal. lia.
Qed.

(** The sum of two normal numbers, multiples of 2^g with g at least -126:
    a zero or a normal number, a multiple of 2^g, within one unit in the
    last place of the exact sum. *)
Lemma SFadd_grid (g : Z) (x y : spec_float) :
  (-126 <= g)%Z -> normal x -> normal y -> on_grid g x -> on_grid g y ->
  Rabs (real_value x + real_value y) < Exact.pow2 127 ->
  zn (SFadd 24 128 x y) /\ on_grid g (SFadd 24 128 x y)
  /\ Rabs (real_value (SFadd 24 128 x y) - (real_value x + real_value y))
     <= u * Rabs (real_value x + real_value y).
Proof.
  destruct x as [| | |sx mx ex]; try contradiction.
  destruct y as [| | |sy my ey]; try contradiction.
  intros Hg Hnx Hny [Nx HNx] [Ny HNy] Hmax.
  cbn [SFadd].
  set (ez := Z.min ex ey).
  pose proof (@shl_align_value mx ex ez ltac:(unfold ez; lia)) as Hax.
  pose proof (@shl_align_value my ey ez ltac:(unfold ez; lia)) as Hay.
  set (ax := fst (shl_align mx ex ez)) in *.
  set (ay := fst (shl_align my ey ez)) in *.
  set (M := (cond_Zopp sx (Zpos ax) + cond_Zopp sy (Zpos ay))%Z).
  set (S := real_value (S754_finite sx mx ex) + real_value (S754_finite sy my ey)) in *.
  assert (HM : IZR M * Exact.pow2 ez = S).
  { unfold M, S. rewrite !real_value_finite, <- Hax, <- Hay, plus_IZR.
    unfold sgn, cond_Zopp. destruct sx, sy; rewrite ?opp_IZR; ring. }
  assert (HMg : IZR M * Exact.pow2 ez = IZR (Nx + Ny) * Exact.pow2 g).
  { rewrite HM. unfold S. rewrite HNx, HNy, plus_IZR. ring. }
  pose proof (pow2_pos ez) as Hpz. pose proof u_pos as Hu.
  destruct M as [|p|p] eqn:EM; cbn [binary_normalize].
  - (* the exact sum is zero *)
    split; [apply zn_zero|]. split; [now apply on_grid_zero|].
    change (real_value (S754_zero false)) with 0.
    rewrite <- HM. replace (0 - 0 * Exact.pow2 ez) with 0 by ring.
    rewrite Rabs_R0. pose proof (Rabs_pos (0 * Exact.pow2 ez)). nra.
  - assert (HS0 : 0 < S).
    { rewrite <- HM. apply Rmult_lt_0_compat; [apply IZR_lt; lia | exact Hpz]. }
    rewrite (Rabs_right S) in * by lra.
    destruct (@binary_round_grid false p ez g (Nx + Ny) Hg HMg) as (Hn & Hgr & Herr).
    { now rewrite HM. }
    split; [now right|]. split; [exact Hgr|].
    rewrite HM in Herr. unfold sgn in Herr. rewrite Rmult_1_l in Herr. exact Herr.
  - assert (HS0 : S < 0).
    { rewrite <- HM. assert (IZR (Zneg p) < 0) by (apply IZR_lt; lia). nra. }
    rewrite (Rabs_left S) in * by lra.
    assert (HP : IZR (Zpos p) * Exact.pow2 ez = - S).
    { rewrite <- HM. change (Zneg p) with (- Zpos p)%Z. rewrite opp_IZR. ring. }
    destruct (@binary_round_grid true p ez g (- (Nx + Ny)) Hg) as (Hn & Hgr & Herr).
    { rewrite HP, <- HM, HMg, opp_IZR. ring. }
    { now rewrite HP. }
    split; [now right|]. split; [exact Hgr|].
    rewrite HP in Herr. unfold sgn in Herr.
    replace (-1 * - S) with S in Herr by ring. exact Herr.
Qed.

Section Mode.
Variable md : FlushMode.

Lemma flush_in_zn (x : spec_float) : zn x -> Flushed.flush_in md 24 x = x.
Proof.
  intros [Hz | Hn]; [|now apply flush_in_normal].
  destruct x; try discriminate. apply flush_in_zero.
Qed.

Lemma flush_out_zn (x : spec_float) : zn x -> Flushed.flush_out md 24 x = x.
Proof.
  intros [Hz | Hn]; [|now apply flush_out_normal].
  destruct x; try discriminate. apply flush_out_zero.
Qed.

(** The same with flushing, for zeros and normal numbers; the sum is exact
    when one of the two is a zero. *)
Lemma addm_grid (g : Z) (x y : spec_float) :
  (-126 <= g)%Z -> zn x -> zn y -> on_grid g x -> on_grid g y ->
  Rabs (real_value x + real_value y) < Exact.pow2 127 ->
  zn (Flushed.add md 24 128 x y) /\ on_grid g (Flushed.add md 24 128 x y)
  /\ Rabs (real_value (Flushed.add md 24 128 x y) - (real_value x + real_value y))
     <= u * Rabs (real_value x + real_value y)
  /\ (is_zero x = true \/ is_zero y = true ->
      real_value (Flushed.add md 24 128 x y) = real_value x + real_value y).
Proof.
  intros Hg Hx Hy Hgx Hgy Hmax. unfold Flushed.add.
  rewrite (flush_in_zn Hx), (flush_in_zn Hy).
  pose proof u_pos as Hu.
  assert (Hexact : forall r, zn r -> on_grid g r ->
            real_value r = real_value x + real_value y ->
            zn (Flushed.flush_out md 24 r) /\ on_grid g (Flushed.flush_out md 24 r)
            /\ Rabs (real_value (Flushed.flush_out md 24 r)
                     - (real_value x + real_value y))
               <= u * Rabs (real_value x + real_value y)
            /\ (is_zero x = true \/ is_zero y = true ->
                real_value (Flushed.flush_out md 24 r) = real_value x + real_value y)).
  { intros r Hr Hgr Hv. rewrite (flush_out_zn Hr). repeat split; trivial.
    rewrite Hv. replace (real_value x + real_value y - (real_value x + real_value y))
      with 0 by ring.
    rewrite Rabs_R0. pose proof (Rabs_pos (real_value x + real_value y)). nra. }
  destruct Hx as [Hzx | Hnx]; destruct Hy as [Hzy | Hny].
  - destruct x as [sx| | |]; try discriminate. destruct y as [sy| | |]; try discriminate.
    apply Hexact.
    + destruct sx, sy; apply zn_zero.
    + apply on_grid_zero. now destruct sx, sy.
    + destruct sx, sy; cbn; ring.
  - destruct x as [sx| | |]; try discriminate.
    destruct y as [| | |sy my ey]; try contradiction.
    cbn [SFadd]. apply Hexact; [now right | exact Hgy |].
    change (real_value (S754_zero sx)) with 0. ring.
  - destruct y as [sy| | |]; try discriminate.
    destruct x as [| | |sx mx ex]; try contradiction.
    cbn [SFadd]. apply Hexact; [now right | exact Hgx |].
    change (real_value (S754_zero sy)) with 0. ring.
  - destruct (SFadd_grid Hg Hnx Hny Hgx Hgy Hmax) as (Hz & Hgr & Herr).
    rewrite (flush_out_zn Hz). repeat split; trivial.
    intros [Hzx | Hzy]; [destruct x | destruct y]; try discriminate; contradiction.
Qed.
End Mode.
End F32SignedAdd.

Module F32SignedSum.
Import F32 F32Err F32ErrFacts F32Ops F32Ops2 F32m F32mFacts F32Tree F32TreeFacts
  F32Signed F32SignedFacts F32SignedAdd.

Open Scope R_scope.

Lemma nth_abs_values (xs : list spec_float) (i : nat) :
  nth i (abs_values xs) 0 = Rabs (real_value (nth i xs (cast 0))).
Proof.
  unfold abs_values. destruct (lt_dec i (length xs)) as [Hlt | Hge].
  - rewrite (nth_indep _ 0 (Rabs (real_value (cast 0)))) by now rewrite length_map.
    exact (map_nth (fun x => Rabs (real_value x)) xs (cast 0) i).
  - rewrite !nth_overflow by (rewrite ?length_map; lia).
    change (real_value (cast 0)) with 0. now rewrite Rabs_R0.
Qed.

Lemma tsum_abs_nonneg (xs : list spec_float) (t : SumTree) :
  0 <= tsum (abs_values xs) t.
Proof.
  apply tsum_nonneg. intros i. rewrite nth_abs_values. apply Rabs_pos.
Qed.

Lemma tsum_abs_le (xs : list spec_float) (t : SumTree) :
  Rabs (tsum (map real_value xs) t) <= tsum (abs_values xs) t.
Proof.
  induction t as [i| |l IHl r IHr]; cbn [tsum].
  - rewrite nth_real_value, nth_abs_values. lra.
  - rewrite Rabs_R0. lra.
  - eapply Rle_trans; [apply Rabs_triang|]. lra.
Qed.

Lemma nleaves_plus (l r : SumTree) :
  nleaves (Plus l r) = (nleaves l + nleaves r)%nat.
Proof. unfold nleaves. cbn [leaves]. apply length_app. Qed.

Lemma pow_1pu_ge_1pu (n : nat) : (1 <= n)%nat -> 1 + u <= (1 + u) ^ n.
Proof.
  intros Hn. pose proof u_pos.
  replace (1 + u) with ((1 + u) ^ 1) at 1 by ring.
  apply pow_le_mono_1pu; [lra | exact Hn].
Qed.

Section Mode.
Variable md : FlushMode.

(** The sum of zeros and normal numbers of both signs, multiples of 2^g, in
    binary32, in any order and with or without flushing: the error is at
    most [(1 + u)^n - 1] times the sum of the absolute values. *)
Lemma sum_by_grid (g : Z) (t : SumTree) (xs : list spec_float) :
  (-126 <= g)%Z ->
  (forall i, zn (nth i xs (cast 0)) /\ on_grid g (nth i xs (cast 0))) ->
  tsum (abs_values xs) t * (1 + u) ^ nleaves t < Exact.pow2 127 ->
  zn (sum_by (F32m.A md) t xs) /\ on_grid g (sum_by (F32m.A md) t xs)
  /\ Rabs (real_value (sum_by (F32m.A md) t xs) - tsum (map real_value xs) t)
     <= ((1 + u) ^ nleaves t - 1) * tsum (abs_values xs) t.
Proof.
  intros Hg Hxs. pose proof u_pos as Hu.
  induction t as [i| |l IHl r IHr]; intros Hov.
  - cbn [sum_by tsum]. change (@f_cast _ (F32m.A md) 0%Z) with (cast 0).
    destruct (Hxs i) as [Hz Hgr]. split; [exact Hz|]. split; [exact Hgr|].
    rewrite nth_real_value, nth_abs_values.
    replace (real_value (nth i xs (cast 0)) - real_value (nth i xs (cast 0)))
      with 0 by ring.
    rewrite Rabs_R0. change (nleaves (Leaf i)) with 1%nat. rewrite pow_1.
    pose proof (Rabs_pos (real_value (nth i xs (cast 0)))). nra.
  - cbn [sum_by tsum]. change (@f_cast _ (F32m.A md) 0%Z) with (cast 0).
    split; [now left|]. split; [now apply on_grid_zero|].
    change (real_value (cast 0)) with 0. replace (0 - 0) with 0 by ring.
    rewrite Rabs_R0. lra.
  - cbn [sum_by tsum] in *. rewrite nleaves_plus, pow_add in *.
    pose proof (tsum_abs_nonneg xs l) as HAl. pose proof (tsum_abs_nonneg xs r) as HAr.
    pose proof (tsum_abs_le xs l) as HSl. pose proof (tsum_abs_le xs r) as HSr.
    pose proof (@pow_1pu_ge_1 u (nleaves l) ltac:(lra)) as HPl.
    pose proof (@pow_1pu_ge_1 u (nleaves r) ltac:(lra)) as HPr.
    set (Sl := tsum (map real_value xs) l) in *.
    set (Sr := tsum (map real_value xs) r) in *.
    set (Al := tsum (abs_values xs) l) in *.
    set (Ar := tsum (abs_values xs) r) in *.
    set (Pl := (1 + u) ^ nleaves l) in *. set (Pr := (1 + u) ^ nleaves r) in *.
    assert (HPP : Pl <= Pl * Pr /\ Pr <= Pl * Pr) by (split; nra).
    destruct IHl as (Hzl & Hgl & Hel); [nra|].
    destruct IHr as (Hzr & Hgr & Her); [nra|].
    change (@f_add _ (F32m.A md)) with (Flushed.add md 24 128).
    set (fa := sum_by (F32m.A md) l xs) in *.
    set (fb := sum_by (F32m.A md) r xs) in *.
    apply Rabs_le_between in Hel, Her, HSl, HSr.
    assert (Ha : - (Pl * Al) <= real_value fa <= Pl * Al) by lra.
    assert (Hb : - (Pr * Ar) <= real_value fb <= Pr * Ar) by lra.
    assert (Hab : Rabs (real_value fa + real_value fb) <= Pl * Al + Pr * Ar)
      by (apply Rabs_le; lra).
    assert (Hmax : Rabs (real_value fa + real_value fb) < Exact.pow2 127) by nra.
    destruct (addm_grid md Hg Hzl Hzr Hgl Hgr Hmax) as (Hz & Hgrid & Herr & Hex).
    split; [exact Hz|]. split; [exact Hgrid|].
    assert (Hzero : is_zero fa = true \/ is_zero fb = true ->
              Rabs (real_value (Flushed.add md 24 128 fa fb) - (Sl + Sr))
              <= (Pl * Pr - 1) * (Al + Ar)).
    { intros Hz0. rewrite (Hex Hz0). apply Rabs_le. nra. }
    destruct Hzl as [Hzl | Hnl]; [now apply Hzero; left|].
    destruct Hzr as [Hzr | Hnr]; [now apply Hzero; right|].
    (* both partial sums are normal numbers: both trees have leaves *)
    assert (Hnl1 : (1 <= nleaves l)%nat).
    { destruct (nleaves l) as [|n] eqn:En; [|lia]. exfalso.
      apply (@normal_not_zero fa Hnl).
      unfold Sl, Al in *. unfold Pl in *. rewrite !(@tsum_no_leaf _ l En) in *.
      cbn [pow] in Hel. lra. }
    assert (Hnr1 : (1 <= nleaves r)%nat).
    { destruct (nleaves r) as [|n] eqn:En; [|lia]. exfalso.
      apply (@normal_not_zero fb Hnr).
      unfold Sr, Ar in *. unfold Pr in *. rewrite !(@tsum_no_leaf _ r En) in *.
      cbn [pow] in Her. lra. }
    pose proof (pow_1pu_ge_1pu Hnl1) as HPl1. pose proof (pow_1pu_ge_1pu Hnr1) as HPr1.
    fold Pl in HPl1. fold Pr in HPr1.
    apply Rabs_le_between in Herr.
    assert (HE : u * Rabs (real_value fa + real_value fb) <= u * (Pl * Al + Pr * Ar))
      by (apply Rmult_le_compat_l; lra).
    assert (H1 : (1 + u) * Pl <= Pl * Pr) by nra.
    assert (H2 : (1 + u) * Pr <= Pl * Pr) by nra.
    assert (H3 : ((1 + u) * Pl - 1) * Al <= (Pl * Pr - 1) * Al) by nra.
    assert (H4 : ((1 + u) * Pr - 1) * Ar <= (Pl * Pr - 1) * Ar) by nra.
    apply Rabs_le. split; nra.
Qed.
End Mode.
End F32SignedSum.

(** ** The mean of vectors in binary32 *)

Module F32Mean.
Import F32 F32Facts F32Sum F32Err F32ErrFacts F32Ops F32Ops2 F32m F32mFacts F32Tree F32TreeFacts
  F32TreeFacts F32Norm F32NormFacts F32Range F32RangeFacts
  F32Signed F32SignedFacts F32SignedAdd F32SignedSum.

Open Scope R_scope.

Lemma cast_normal_value (k : Z) :
  (1 <= k <= 2 ^ 24)%Z -> normal (cast k) /\ real_value (cast k) = IZR k.
Proof.
  intros Hk. destruct k as [|n|n]; try lia.
  destruct (@cast_normal n ltac:(lia)) as (m & e & -> & Hb & _ & He & Hz).
  split.
  - split; [exact Hb|]. unfold bounded, canonical_mantissa in Hb.
    apply andb_true_iff in Hb as [Hc _]. apply Z.eqb_eq in Hc.
    unfold fexp, emin in Hc. lia.
  - rewrite real_value_finite. unfold sgn. rewrite Rmult_1_l.
    specialize (Hz 23%Z ltac:(lia) ltac:(lia)).
    assert (E : IZR (Zpos n) * Exact.pow2 23 = IZR (Zpos m) * Exact.pow2 (e + 23)).
    { rewrite !pow2_IZR, <- !mult_IZR by lia. now rewrite Hz. }
    rewrite pow2_add in E. pose proof (pow2_pos 23).
    apply (Rmult_eq_reg_r (Exact.pow2 23)); [|lra]. rewrite E. ring.
Qed.

Lemma grid_abs_ge (g : Z) (x : spec_float) :
  on_grid g x -> real_value x <> 0 -> Exact.pow2 g <= Rabs (real_value x).
Proof.
  intros [N HN] Hnz. rewrite HN in *. pose proof (pow2_pos g) as Hp.
  rewrite Rabs_mult, (Rabs_right (Exact.pow2 g)) by lra.
  assert (HN0 : N <> 0%Z) by (intros ->; apply Hnz; ring).
  assert (1 <= Rabs (IZR N)).
  { rewrite <- abs_IZR. apply IZR_le. lia. }
  nra.
Qed.

Lemma in_rangeb_grid (p q : Z) (x : spec_float) :
  in_rangeb p q x = true ->
  zn x /\ on_grid (- p - 23) x /\ Rabs (real_value x) <= Exact.pow2 q.
Proof.
  intros Hb. pose proof (in_rangeb_in_range _ _ _ Hb) as Hr.
  destruct x as [s| | |s m e]; cbn [in_rangeb] in Hb; try discriminate.
  - split; [now left|]. split; [now apply on_grid_zero|].
    change (real_value (S754_zero s)) with 0. rewrite Rabs_R0.
    apply Rlt_le, pow2_pos.
  - destruct Hr as [Hz | [Hn [_ Hq]]]; [discriminate|].
    apply andb_true_iff in Hb as [Hb _]. apply andb_true_iff in Hb as [_ Hp].
    apply Z.leb_le in Hp.
    split; [now right|]. split; [|exact Hq].
    exists ((if s then -1 else 1) * (Zpos m * 2 ^ (e + p + 23)))%Z.
    rewrite real_value_finite, !mult_IZR, <- pow2_IZR by lia.
    rewrite !Rmult_assoc, <- pow2_add. replace (e + p + 23 + (- p - 23))%Z with e by lia.
    unfold sgn. destruct s; reflexivity.
Qed.

Section Mode.
Variable md : FlushMode.

(** The quotient of a zero or a normal number, a multiple of 2^g with g at
    least -101, by a count of at most 2^24. *)
Lemma divm_grid (g : Z) (s : spec_float) (k : Z) :
  (-101 <= g)%Z -> zn s -> on_grid g s ->
  Rabs (real_value s) < Exact.pow2 126 -> (1 <= k <= 2 ^ 24)%Z ->
  Rabs (real_value (Flushed.div md 24 128 s (cast k)) - real_value s / IZR k)
  <= u * Rabs (real_value s / IZR k).
Proof.
  intros Hg Hz Hgr Hmax Hk. unfold Flushed.div.
  rewrite (flush_in_zn md Hz), (@flush_in_cast md k) by lia.
  destruct (cast_normal_value Hk) as [Hnk Hvk].
  assert (Hk1 : 1 <= IZR k) by (apply IZR_le; lia).
  assert (Hk2 : IZR k <= Exact.pow2 24) by (rewrite pow2_IZR by lia; apply IZR_le; lia).
  pose proof u_pos as Hu.
  destruct Hz as [Hzs | Hns].
  - destruct s as [ss| | |]; try discriminate.
    destruct (cast k) as [| | |sk mk ek]; try contradiction.
    cbn [SFdiv]. rewrite flush_out_zero.
    change (real_value (S754_zero _)) with 0.
    replace (0 - 0 / IZR k) with 0 by (field; lra).
    rewrite Rabs_R0. pose proof (Rabs_pos (0 / IZR k)). nra.
  - pose proof (grid_abs_ge Hgr (@normal_not_zero s Hns)) as Hge.
    assert (Habs : Rabs (real_value s / IZR k) = Rabs (real_value s) / IZR k).
    { unfold Rdiv. rewrite Rabs_mult, Rabs_inv, (Rabs_right (IZR k)) by lra.
      reflexivity. }
    destruct (@SFdiv_normal s (cast k) Hns Hnk) as [Hn Herr].
    + rewrite Hvk, Habs.
      assert (Hp : Exact.pow2 (-125) * Exact.pow2 24 <= Exact.pow2 g).
      { rewrite <- pow2_add. apply pow2_le. lia. }
      pose proof (pow2_pos (-125)).
      apply Rmult_le_reg_r with (IZR k); [lra|].
      unfold Rdiv. rewrite Rmult_assoc, Rinv_l, Rmult_1_r by lra. nra.
    + rewrite Hvk, Habs.
      apply Rmult_lt_reg_r with (IZR k); [lra|].
      unfold Rdiv. rewrite Rmult_assoc, Rinv_l, Rmult_1_r by lra.
      pose proof (pow2_pos 126). pose proof (Rabs_pos (real_value s)). nra.
    + rewrite (@flush_out_normal md _ Hn). rewrite Hvk in Herr. exact Herr.
Qed.

(** The mean of k numbers in binary32: the sum in any order, divided by k. *)
Lemma mean_grid (g : Z) (t : SumTree) (xs : list spec_float) (k : Z) :
  (-101 <= g)%Z ->
  (forall i, zn (nth i xs (cast 0)) /\ on_grid g (nth i xs (cast 0))) ->
  tsum (abs_values xs) t * (1 + u) ^ nleaves t < Exact.pow2 126 ->
  (1 <= k <= 2 ^ 24)%Z ->
  Rabs (real_value (Flushed.div md 24 128 (sum_by (F32m.A md) t xs) (cast k))
        - tsum (map real_value xs) t / IZR k)
  <= ((1 + u) ^ (nleaves t + 1) - 1) * (tsum (abs_values xs) t / IZR k).
Proof.
  intros Hg Hxs Hov Hk. pose proof u_pos as Hu.
  assert (Hk1 : 1 <= IZR k) by (apply IZR_le; lia).
  pose proof (tsum_abs_nonneg xs t) as HA. pose proof (tsum_abs_le xs t) as HS.
  pose proof (@pow_1pu_ge_1 u (nleaves t) ltac:(lra)) as HP.
  destruct (@sum_by_grid md g t xs ltac:(lia) Hxs) as (Hz & Hgr & Herr).
  { eapply Rlt_trans; [exact Hov|]. apply pow2_lt. lia. }
  rewrite pow_add, pow_1.
  set (s := sum_by (F32m.A md) t xs) in *.
  set (S := tsum (map real_value xs) t) in *.
  set (A := tsum (abs_values xs) t) in *.
  set (P := (1 + u) ^ nleaves t) in *.
  apply Rabs_le_between in Herr, HS.
  assert (Hs : Rabs (real_value s) <= P * A) by (apply Rabs_le; lra).
  pose proof (@divm_grid g s k Hg Hz Hgr ltac:(nra) Hk) as Hd.
  assert (Hinv : 0 < / IZR k <= 1).
  { split; [apply Rinv_0_lt_compat; lra|].
    rewrite <- Rinv_1. apply Rinv_le_contravar; lra. }
  assert (Habs : Rabs (real_value s / IZR k) = Rabs (real_value s) * / IZR k).
  { unfold Rdiv. rewrite Rabs_mult, Rabs_inv, (Rabs_right (IZR k)) by lra.
    reflexivity. }
  rewrite Habs in Hd. apply Rabs_le_between in Hd.
  unfold Rdiv in *.
  assert (Hq : u * (Rabs (real_value s) * / IZR k) <= u * (P * A * / IZR k)).
  { apply Rmult_le_compat_l; [lra|]. apply Rmult_le_compat_r; lra. }
  assert (Hr : - ((P - 1) * A * / IZR k) <= (real_value s - S) * / IZR k
               <= (P - 1) * A * / IZR k).
  { split.
    - replace (- ((P - 1) * A * / IZR k)) with (- ((P - 1) * A) * / IZR k) by ring.
      apply Rmult_le_compat_r; lra.
    - apply Rmult_le_compat_r; lra. }
  apply Rabs_le. split.
  - replace (- ((P * (1 + u) - 1) * (A * / IZR k)))
      with (- (u * (P * A * / IZR k)) - (P - 1) * A * / IZR k) by ring.
    replace (real_value (Flushed.div md 24 128 s (cast k)) - S * / IZR k)
      with ((real_value (Flushed.div md 24 128 s (cast k)) - real_value s * / IZR k)
            + (real_value s - S) * / IZR k) by ring.
    lra.
  - replace ((P * (1 + u) - 1) * (A * / IZR k))
      with (u * (P * A * / IZR k) + (P - 1) * A * / IZR k) by ring.
    replace (real_value (Flushed.div md 24 128 s (cast k)) - S * / IZR k)
      with ((real_value (Flushed.div md 24 128 s (cast k)) - real_value s * / IZR k)
            + (real_value s - S) * / IZR k) by ring.
    lra.
Qed.
End Mode.
End F32Mean.

Module F32MeanRows.
Import F32 F32Facts F32Pool F32Sum F32Err F32ErrFacts F32Ops F32Ops2 F32m F32mFacts
  F32Tree F32TreeFacts F32Norm F32NormFacts F32Range F32RangeFacts F32Rows
  F32Signed F32SignedFacts F32SignedAdd F32SignedSum F32Mean F32PoolBy.

Open Scope R_scope.

Lemma feq_real_value (x y : spec_float) : feq x y -> real_value x = real_value y.
Proof.
  intros [-> | [Hx Hy]]; [reflexivity|].
  now rewrite (real_value_zero _ Hx), (real_value_zero _ Hy).
Qed.

Lemma Forall2_feq_nth (l l' : list spec_float) (h : nat) :
  Forall2 feq l l' -> feq (nth h l (cast 0)) (nth h l' (cast 0)).
Proof.
  intros HF. revert h. induction HF as [|x y l l' Hxy _ IH]; intros [|h]; cbn [nth];
    try apply feq_refl; [exact Hxy | apply IH].
Qed.

Lemma nth_default_or_in {A : Type} (P : A -> Prop) (l : list A) (d : A) (i : nat) :
  Forall P l -> P d -> P (nth i l d).
Proof.
  intros Hl Hd. destruct (nth_in_or_default i l d) as [Hin | ->]; [|exact Hd].
  rewrite Forall_forall in Hl. now apply Hl.
Qed.

Section Mode.
Variable md : FlushMode.

Lemma flushed_zn (x : spec_float) : zn x -> flushed md x = x.
Proof.
  intros Hz. unfold flushed. now rewrite (flush_in_zn md Hz), (flush_out_zn md Hz).
Qed.

Lemma flushed_in_range (p q : Z) (vs : list (list spec_float)) :
  Forall (Forall (fun x => in_rangeb p q x = true)) vs ->
  map (map (flushed md)) vs = vs.
Proof.
  induction 1 as [|v vs Hv _ IH]; [reflexivity|]. cbn [map]. rewrite IH. f_equal.
  induction Hv as [|x v Hx _ IHv]; [reflexivity|]. cbn [map]. rewrite IHv. f_equal.
  apply flushed_zn. now destruct (in_rangeb_grid _ _ _ Hx).
Qed.

(** The binary32 mean of at most 2^20 vectors whose components are zeros and
    normal numbers of magnitude between 2^-p and 2^q, the sums taken in any
    order, with or without flushing: each component is the arithmetic mean
    of the components, up to a relative error of 2 (k + 1) u of the mean of
    their absolute values. *)
Lemma mean_in_order_error (ts : nat -> SumTree) (H : nat)
    (vs : list (list spec_float)) (p q : Z) (h : nat) :
  (0 <= p <= 78)%Z -> (q <= 104)%Z ->
  (1 <= length vs)%nat -> (Z.of_nat (length vs) <= 2 ^ 20)%Z ->
  Forall (Forall (fun x => in_rangeb p q x = true)) vs ->
  (h < H)%nat -> covers (length vs) (ts h) ->
  Rabs (real_value (nth h (mean_in_order (F32m.A md) ts H vs) (cast 0))
        - real_mean h vs)
  <= 2 * INR (length vs + 1) * u * real_mean_abs h vs.
Proof.
  intros Hp Hq Hk1 Hk2 Hvs Hh Hc. pose proof u_bounds as Hu.
  set (k := length vs) in *.
  set (col := column (F32m.A md) h vs).
  assert (Hnth : nth h (mean_in_order (F32m.A md) ts H vs) (cast 0)
                 = Flushed.div md 24 128 (sum_by (F32m.A md) (ts h) col)
                     (cast (Z.of_nat k))).
  { unfold mean_in_order, sum_columns. rewrite map_map.
    set (f := fun x : nat => _).
    rewrite (nth_indep _ (cast 0) (f 0%nat)) by now rewrite length_map, length_seq.
    rewrite (map_nth f (seq 0 H) 0%nat h), seq_nth by exact Hh. reflexivity. }
  rewrite Hnth.
  assert (Hcol : Forall (fun x => in_rangeb p q x = true) col).
  { unfold col, column. apply Forall_forall. intros x Hin.
    apply in_map_iff in Hin as (v & <- & Hv).
    rewrite Forall_forall in Hvs.
    apply nth_default_or_in; [now apply Hvs | reflexivity]. }
  assert (Hlen : length col = k) by (unfold col, column; apply length_map).
  assert (Hentries : forall i, zn (nth i col (cast 0))
                               /\ on_grid (- p - 23) (nth i col (cast 0))).
  { intros i.
    assert (Hi : in_rangeb p q (nth i col (cast 0)) = true)
      by (apply nth_default_or_in; [exact Hcol | reflexivity]).
    destruct (in_rangeb_grid _ _ _ Hi) as (Hz & Hg & _). now split. }
  assert (HA : tsum (abs_values col) (ts h) = sumR (abs_values col)).
  { apply tsum_covers. unfold abs_values. now rewrite length_map, Hlen. }
  assert (HS : tsum (map real_value col) (ts h) = sumR (map real_value col)).
  { apply tsum_covers. now rewrite length_map, Hlen. }
  assert (Hn : nleaves (ts h) = k) by now apply nleaves_covers.
  assert (HA0 : 0 <= sumR (abs_values col)).
  { apply sumR_nonneg, Forall_forall. intros a Hin.
    apply in_map_iff in Hin as (x & <- & _). apply Rabs_pos. }
  assert (HAq : sumR (abs_values col) <= INR k * Exact.pow2 q).
  { rewrite <- Hlen, <- (length_map (fun x => Rabs (real_value x)) col).
    apply sumR_le_bound, Forall_forall. intros a Hin.
    apply in_map_iff in Hin as (x & <- & Hx).
    rewrite Forall_forall in Hcol.
    now destruct (in_rangeb_grid _ _ _ (Hcol x Hx)) as (_ & _ & Hb). }
  assert (HkR : 1 <= INR k <= Exact.pow2 20).
  { rewrite INR_IZR_INZ, pow2_IZR by lia. split; apply IZR_le; lia. }
  assert (HP : (1 + u) ^ k <= 2).
  { pose proof (@small_length k 0 Hk2 ltac:(lia)) as Hs.
    rewrite Nat.add_0_r in Hs.
    pose proof (@pow_1pu_le u k ltac:(lra) Hs). lra. }
  assert (HP1 : (1 + u) ^ (k + 1) <= 1 + 2 * INR (k + 1) * u).
  { apply pow_1pu_le; [lra|]. now apply small_length; [|lia]. }
  pose proof (@pow_1pu_ge_1 u k ltac:(lra)) as HP0.
  pose proof (@mean_grid md (- p - 23) (ts h) col (Z.of_nat k) ltac:(lia) Hentries)
    as Hm.
  rewrite HA, HS, Hn in Hm.
  assert (Hov : sumR (abs_values col) * (1 + u) ^ k < Exact.pow2 126).
  { assert (E : Exact.pow2 20 * Exact.pow2 q * Exact.pow2 1 <= Exact.pow2 125).
    { rewrite <- !pow2_add. apply pow2_le. lia. }
    change (Exact.pow2 1) with 2 in E.
    pose proof (@pow2_lt 125 126 ltac:(lia)). pose proof (pow2_pos q).
    assert (sumR (abs_values col) <= Exact.pow2 20 * Exact.pow2 q) by nra.
    nra. }
  specialize (Hm Hov ltac:(lia)).
  rewrite <- INR_IZR_INZ in Hm.
  unfold real_mean, real_mean_abs. fold k.
  assert (E1 : map real_value col
               = map (fun v => real_value (nth h v (cast 0))) vs)
    by (unfold col, column; now rewrite map_map).
  assert (E2 : abs_values col
               = map (fun v => Rabs (real_value (nth h v (cast 0)))) vs)
    by (unfold abs_values, col, column; now rewrite map_map).
  rewrite <- E1, <- E2.
  eapply Rle_trans; [exact Hm|].
  assert (0 <= sumR (abs_values col) / INR k).
  { unfold Rdiv. apply Rmult_le_pos; [exact HA0|].
    apply Rlt_le, Rinv_0_lt_compat. lra. }
  nra.
Qed.

(** The pooled row and the arithmetic mean of the unmasked vectors. *)
Lemma pool_row_by_real_mean (ts : nat -> SumTree) (H : nat)
    (row : list (list spec_float)) (mrow : list Z) (p q : Z) (h : nat) :
  Forall (fun v => length v = H) row -> length row = length mrow ->
  well_formed row -> masked_finite row mrow -> binary_mask mrow ->
  (forall h, (h < H)%nat -> covers (length mrow) (ts h)) ->
  (1 <= count_ones mrow)%nat -> (Z.of_nat (count_ones mrow) <= 2 ^ 20)%Z ->
  (0 <= p <= 78)%Z -> (q <= 104)%Z ->
  Forall (Forall (fun x => in_rangeb p q x = true)) (unmasked row mrow) ->
  (h < H)%nat ->
  Rabs (real_value (nth h (pool_row_by (F32m.A md) ts H row mrow) (cast 0))
        - real_mean h (unmasked row mrow))
  <= 2 * INR (count_ones mrow + 1) * u * real_mean_abs h (unmasked row mrow).
Proof.
  intros Hlen Hl Hwf Hfin Hm Hc Hk1 Hk2 Hp Hq Hr Hh.
  pose proof (@pool_row_by_mean md ts H row mrow Hlen Hl Hwf Hfin Hm Hc Hk1
                ltac:(lia)) as Hmean.
  rewrite (@flushed_in_range p q _ Hr) in Hmean.
  rewrite (feq_real_value (Forall2_feq_nth h Hmean)).
  rewrite <- (unmasked_length row mrow Hl).
  apply (@mean_in_order_error (fun h => restrict mrow (ts h)) H
           (unmasked row mrow) p q h); trivial.
  - rewrite (unmasked_length row mrow Hl). exact Hk1.
  - rewrite (unmasked_length row mrow Hl). exact Hk2.
  - rewrite (unmasked_length row mrow Hl). apply restrict_covers. now apply Hc.
Qed.
End Mode.
End F32MeanRows.

(** ** The order in four lanes *)

Lemma perm_insert (X1 X2 S : list nat) (n : nat) :
  Permutation (X1 ++ X2) S -> Permutation (X1 ++ n :: X2) (S ++ [n]).
Proof.
  intros HP. apply Permutation_sym.
  apply Permutation_trans with (n :: S);
    [apply Permutation_sym, Permutation_cons_append|].
  apply Permutation_cons_app. now apply Permutation_sym.
Qed.

Lemma lanes_leaves (n : nat) :
  Permutation ((leaves (lane 0 n) ++ leaves (lane 1 n))
               ++ (leaves (lane 2 n) ++ leaves (lane 3 n))) (seq 0 n).
Proof.
  induction n as [|n IH]; [constructor|].
  rewrite seq_S. cbn [Nat.add lane].
  pose proof (Nat.mod_upper_bound n 4 ltac:(lia)) as Hr.
  destruct (n mod 4)%nat as [|[|[|[|r]]]] eqn:E; try lia;
    cbn [Nat.eqb leaves].
  - rewrite <- !app_assoc. cbn [app]. apply perm_insert.
    now rewrite <- !app_assoc in IH.
  - rewrite <- !app_assoc. cbn [app]. rewrite (app_assoc (leaves (lane 0 n))).
    now apply perm_insert.
  - rewrite <- (app_assoc (leaves (lane 2 n))). cbn [app]. rewrite app_assoc.
    apply perm_insert. now rewrite <- app_assoc.
  - rewrite !app_assoc. apply Permutation_app_tail. now rewrite <- app_assoc.
Qed.

Lemma lanes4_covers (n : nat) : covers n (lanes4 n).
Proof.
  unfold covers, lanes4. destruct n as [|[|n]]; try apply lanes_leaves.
  apply Permutation_refl.
Qed.

Lemma lanes4_order_ok : order_ok lanes4_order.
Proof. split; intros; apply lanes4_covers. Qed.

(** ** The arithmetic without flushing *)

Lemma no_flushing_of_dtype : Flushed.of_dtype (mkMode false false) = IEEE.of_dtype.
Proof. reflexivity. Qed.

(** ** The sign of a zero

    A single token -1.0 under the mask: the product with the mask is -0.0;
    an order that copies an axis of size 1 pools it to -0.0, the index order
    adds it to the accumulator 0.0 and pools it to 0.0. *)
Lemma masked_negative_token :
  mean_pooling_by (Flushed.of_dtype RowExamples.flushing) lanes4_order
    (mkOut (mkT3 float32 [[[S754_finite true 8388608 (-23)]]])) [[0%Z]]
  = Ok (mkT2 float32 [[S754_zero true]])
  /\ mean_pooling_by (Flushed.of_dtype RowExamples.flushing) index_order
       (mkOut (mkT3 float32 [[[S754_finite true 8388608 (-23)]]])) [[0%Z]]
     = Ok (mkT2 float32 [[S754_zero false]]).
Proof. split; reflexivity. Qed.

(** ** Rows with the same unmasked vectors *)








Close Scope R_scope.
Close Scope Z_scope.

(** * The claims *)

(** ** C1: the pooled row is the mean of the unmasked vectors *)

(** With an infinite value at a masked position the product with the mask
    is NaN and so is the pooled value, although the mean of the unmasked
    vector [1.0] is [1.0]; with a zero at the same position the pooled value
    is [1.0]. *)
Lemma C1_masked_inf_counterexample :
  mean_pooling IEEE.of_dtype (mkOut Examples.te_masked_inf) Examples.mask_1_0
  = Ok (mkT2 float32 [[S754_nan]])
  /\ arithmetic_mean F32.A (unmasked [[F32.cast 1]; [F32.inf]] [1; 0]%Z)
     = [F32.cast 1]
  /\ agree_unmasked [[F32.cast 1]; [F32.inf]] [[F32.cast 1]; [F32.cast 0]] [1; 0]%Z
  /\ mean_pooling IEEE.of_dtype (mkOut Examples.te_masked_zero) Examples.mask_1_0
     = Ok (mkT2 float32 [[F32.cast 1]]).
Proof.
  split; [reflexivity|]. split; [reflexivity|]. split; [|reflexivity].
  split; [reflexivity|].
  intros [|[|t]] Ht; cbn in Ht; try discriminate; reflexivity.
Qed.

(** C1 (amended): for float32 token embeddings of shape (B, T, H) and a 0/1
    mask of shape (B, T), in any order of summation of [reduce_sum] and with
    or without flushing of subnormal numbers, take a row whose mask has k
    ones, 1 <= k <= 2^24, whose values are well-formed binary32 values and
    whose values at the masked positions are finite.  The row is pooled, up
    to the sign of a zero, to the binary32 mean of its k unmasked vectors
    (as the operations read them): their sum in some order, divided by k.
    If k <= 2^20 and the components of the unmasked vectors are zeros or
    normal numbers of magnitude at least 2^-64 and below 2^64, each pooled
    component differs from the arithmetic mean of the k components (a real
    number) by at most 2 (k + 1) 2^-23 times the mean of their absolute
    values.  Any other such row with the same vectors at the unmasked
    positions is pooled to the same row, up to the sign of a zero. *)
Theorem C1_pooled_row_is_unmasked_mean
    (md : FlushMode) (R : ReductionOrder) (B T H : nat)
    (te : Tensor3 spec_float) (mask : IntTensor2)
    (b : nat) (row : list (list spec_float)) (mrow : list Z) :
  order_ok R ->
  dtype3 te = float32 ->
  rect3 B T H (data3 te) -> rect2 B T mask ->
  nth_error (data3 te) b = Some row -> nth_error mask b = Some mrow ->
  binary_mask mrow ->
  (1 <= count_ones mrow)%nat -> (Z.of_nat (count_ones mrow) <= 2 ^ 24)%Z ->
  F32.well_formed row -> F32.masked_finite row mrow ->
  exists out orow ts,
    mean_pooling_by (Flushed.of_dtype md) R (mkOut te) mask = Ok out
    /\ nth_error (data2 out) b = Some orow
    /\ (forall h, (h < H)%nat -> covers (count_ones mrow) (ts h))
    /\ Forall2 F32m.feq orow
         (mean_in_order (F32m.A md) ts H
            (map (map (F32m.flushed md)) (unmasked row mrow)))
    /\ ((Z.of_nat (count_ones mrow) <= 2 ^ 20)%Z ->
        Forall (Forall (fun x => F32Range.in_rangeb 64 64 x = true))
          (unmasked row mrow) ->
        forall h, (h < H)%nat ->
          (Rabs (F32.real_value (nth h orow (F32.cast 0))
                 - real_mean h (unmasked row mrow))
           <= 2 * INR (count_ones mrow + 1) * F32Err.u
              * real_mean_abs h (unmasked row mrow))%R)
    /\ forall (te' : Tensor3 spec_float) (row' : list (list spec_float)),
        dtype3 te' = float32 -> rect3 B T H (data3 te') ->
        nth_error (data3 te') b = Some row' ->
        F32.well_formed row' -> F32.masked_finite row' mrow ->
        agree_unmasked row row' mrow ->
        exists out' orow',
          mean_pooling_by (Flushed.of_dtype md) R (mkOut te') mask = Ok out'
          /\ nth_error (data2 out') b = Some orow'
          /\ Forall2 F32m.feq orow' orow.
Proof.
  intros HR Hdt Hte Hmask Hrow Hmrow Hbin Hk1 Hk2 Hwf Hfin.
  assert (Hml : length mrow = T).
  { destruct Hmask as [_ HM]. rewrite Forall_forall in HM.
    apply (HM _ (nth_error_In _ _ Hmrow)). }
  assert (HT : (1 <= T)%nat).
  { rewrite <- Hml.
    pose proof (filter_length_le (fun m => Z.eqb m 1) mrow) as Hle.
    unfold count_ones in Hk1. lia. }
  assert (Hrect : forall (te0 : Tensor3 spec_float) row0, rect3 B T H (data3 te0) ->
            nth_error (data3 te0) b = Some row0 ->
            Forall (fun v => length v = H) row0 /\ length row0 = length mrow).
  { intros te0 row0 [_ HF] Hr0. apply nth_error_In in Hr0.
    rewrite Forall_forall in HF. destruct (HF _ Hr0) as [Hlen HF'].
    split; [exact HF' | congruence]. }
  assert (Hc : forall h, (h < H)%nat -> covers (length mrow) (order3 R B T H b h))
    by (intros h _; rewrite Hml; apply (proj1 HR)).
  set (ts := fun h => restrict mrow (order3 R B T H b h)).
  assert (Hpool : forall (te0 : Tensor3 spec_float) row0, dtype3 te0 = float32 ->
            rect3 B T H (data3 te0) ->
            nth_error (data3 te0) b = Some row0 ->
            F32.well_formed row0 -> F32.masked_finite row0 mrow ->
            exists out0,
              mean_pooling_by (Flushed.of_dtype md) R (mkOut te0) mask = Ok out0
              /\ nth_error (data2 out0) b
                 = Some (pool_row_by (F32m.A md) (order3 R B T H b) H row0 mrow)
              /\ Forall2 F32m.feq
                   (pool_row_by (F32m.A md) (order3 R B T H b) H row0 mrow)
                   (mean_in_order (F32m.A md) ts H
                      (map (map (F32m.flushed md)) (unmasked row0 mrow)))).
  { intros te0 row0 Hdt0 Hte0 Hr0 Hwf0 Hfin0.
    destruct (Hrect te0 row0 Hte0 Hr0) as [Hlen0 Hl0].
    destruct (@mean_pooling_by_row _ (Flushed.of_dtype md) R B T H b te0 mask
                row0 mrow Hdt0 Hte0 Hmask HT Hr0 Hmrow)
      as (out0 & Hout0 & _ & _ & Hb0).
    exists out0. split; [exact Hout0|]. split; [exact Hb0|].
    now apply F32PoolBy.pool_row_by_mean. }
  destruct (Hpool te row Hdt Hte Hrow Hwf Hfin) as (out & Hout & Hb & Hmean).
  exists out, (pool_row_by (F32m.A md) (order3 R B T H b) H row mrow), ts.
  split; [exact Hout|]. split; [exact Hb|]. split.
  { intros h Hh. unfold ts. apply restrict_covers. now apply Hc. }
  split; [exact Hmean|]. split.
  { intros Hk3 Hrange h Hh. destruct (Hrect te row Hte Hrow) as [Hlen Hl].
    apply (@F32MeanRows.pool_row_by_real_mean md (order3 R B T H b) H row mrow
             64 64 h); trivial; lia. }
  intros te' row' Hdt' Hte' Hrow' Hwf' Hfin' Hagree.
  destruct (Hpool te' row' Hdt' Hte' Hrow' Hwf' Hfin')
    as (out' & Hout' & Hb' & Hmean').
  exists out', (pool_row_by (F32m.A md) (order3 R B T H b) H row' mrow).
  split; [exact Hout'|]. split; [exact Hb'|].
  rewrite <- (agree_unmasked_eq Hagree) in Hmean'.
  exact (Forall2_feq_trans_sym Hmean' Hmean).
Qed.

Lemma C1_witness :
  exists out orow ts,
    mean_pooling_by (Flushed.of_dtype RowExamples.flushing) lanes4_order
      (mkOut Examples.te_scenario) [[1; 1; 0]%Z] = Ok out
    /\ nth_error (data2 out) 0 = Some orow
    /\ (forall h, (h < 4)%nat -> covers (count_ones [1; 1; 0]%Z) (ts h))
    /\ Forall2 F32m.feq orow
         (mean_in_order (F32m.A RowExamples.flushing) ts 4
            (map (map (F32m.flushed RowExamples.flushing))
               (unmasked [Examples.vec4 1; Examples.vec4 2; Examples.vec4 9]
                  [1; 1; 0]%Z)))
    /\ ((Z.of_nat (count_ones [1; 1; 0]%Z) <= 2 ^ 20)%Z ->
        Forall (Forall (fun x => F32Range.in_rangeb 64 64 x = true))
          (unmasked [Examples.vec4 1; Examples.vec4 2; Examples.vec4 9]
             [1; 1; 0]%Z) ->
        forall h, (h < 4)%nat ->
          (Rabs (F32.real_value (nth h orow (F32.cast 0))
                 - real_mean h
                     (unmasked [Examples.vec4 1; Examples.vec4 2; Examples.vec4 9]
                        [1; 1; 0]%Z))
           <= 2 * INR (count_ones [1; 1; 0]%Z + 1) * F32Err.u
              * real_mean_abs h
                  (unmasked [Examples.vec4 1; Examples.vec4 2; Examples.vec4 9]
                     [1; 1; 0]%Z))%R)
    /\ forall (te' : Tensor3 spec_float) (row' : list (list spec_float)),
        dtype3 te' = float32 -> rect3 1 3 4 (data3 te') ->
        nth_error (data3 te') 0 = Some row' ->
        F32.well_formed row' -> F32.masked_finite row' [1; 1; 0]%Z ->
        agree_unmasked [Examples.vec4 1; Examples.vec4 2; Examples.vec4 9] row'
          [1; 1; 0]%Z ->
        exists out' orow',
          mean_pooling_by (Flushed.of_dtype RowExamples.flushing) lanes4_order
            (mkOut te') [[1; 1; 0]%Z] = Ok out'
          /\ nth_error (data2 out') 0 = Some orow'
          /\ Forall2 F32m.feq orow' orow.
Proof.
  apply (@C1_pooled_row_is_unmasked_mean RowExamples.flushing lanes4_order 1 3 4
           Examples.te_scenario [[1; 1; 0]%Z] 0
           [Examples.vec4 1; Examples.vec4 2; Examples.vec4 9] [1; 1; 0]%Z).
  - apply lanes4_order_ok.
  - reflexivity.
  - split; [reflexivity|]. repeat constructor.
  - split; [reflexivity|]. repeat constructor.
  - reflexivity.
  - reflexivity.
  - repeat (constructor; [(now left) || (now right)|]). constructor.
  - cbn. lia.
  - cbn. lia.
  - repeat constructor.
  - unfold F32.masked_finite. cbn [combine Examples.vec4 repeat].
    repeat (constructor; [cbn [fst snd]; intros E; try discriminate E;
                          repeat constructor|]).
    constructor.
Defined.

(** ** C2: a fully masked row *)




(** ** C3: normalising a row of norm zero *)

(** A zero row is normalised to NaN in every component. *)
Lemma C3_zero_row_counterexample :
  normalize IEEE.of_dtype Examples.zero_row
  = Ok (mkT2 float32 [[S754_nan; S754_nan]]).
Proof. reflexivity. Qed.

(** C3 (amended): [normalize] raises no error on any tensor, of any float
    dtype; it has no zero-safety policy: the row is divided by its norm as
    it is, and every component of a row of zeros becomes NaN (0 / 0). *)
Theorem C3_normalize_zero_row_is_nan (t : Tensor2 spec_float) :
  exists out,
    normalize IEEE.of_dtype t = Ok out
    /\ dtype2 out = dtype2 t
    /\ forall (b : nat) (row : list spec_float),
        nth_error (data2 t) b = Some row ->
        Forall (fun x => F32.is_zero x = true) row ->
        nth_error (data2 out) b = Some (map (fun _ => S754_nan) row).
Proof.
  eexists. split; [apply normalize_rows|]. split; [reflexivity|].
  intros b row Hrow Hz. cbn [data2].
  rewrite nth_error_map, Hrow. cbn [option_map]. f_equal.
  apply normalize_row_zeros. exact Hz.
Qed.

Lemma C3_witness :
  exists out,
    normalize IEEE.of_dtype Examples.zero_row = Ok out
    /\ nth_error (data2 out) 0 = Some [S754_nan; S754_nan].
Proof.
  destruct (C3_normalize_zero_row_is_nan Examples.zero_row) as (out & Hout & _ & Hrows).
  exists out. split; [exact Hout|].
  apply (Hrows 0%nat [F32.pos_zero; F32.pos_zero]); [reflexivity|].
  repeat constructor.
Defined.

(** ** C4: the dtype of the expanded mask *)

(** On float64 token embeddings the mask is still cast to float32, and the
    product of the two tensors is refused. *)
Lemma C4_float64_counterexample :
  input_mask_expanded IEEE.of_dtype Examples.te_float64 Examples.mask_1_1
  = Ok (mkT3 float32 [[[F32.cast 1]; [F32.cast 1]]])
  /\ dtype3 Examples.te_float64 = float64
  /\ mean_pooling IEEE.of_dtype (mkOut Examples.te_float64) Examples.mask_1_1
     = Err InvalidArgument_dtype.
Proof. repeat split; reflexivity. Qed.

(** C4 (amended): for token embeddings of shape (B, T, H) and a mask of shape
    (B, T), in any arithmetic, the mask is broadcast along the hidden
    dimension to shape (B, T, H) and cast to float32, whatever the dtype of
    the token embeddings: the entry (b, t, h) of the expanded mask is the
    float32 value of the mask entry (b, t).  On float32 token embeddings the
    pooled output is a float32 tensor of shape (B, H), and on token
    embeddings of any other float dtype the product with the mask raises a
    dtype error. *)
Theorem C4_mask_is_cast_to_float32
    (F : Type) (arith : DType -> Arith F) (B T H : nat)
    (te : Tensor3 F) (mask : IntTensor2) :
  rect3 B T H (data3 te) -> rect2 B T mask -> (1 <= B)%nat -> (1 <= T)%nat ->
  (exists ime,
      input_mask_expanded arith te mask = Ok ime
      /\ dtype3 ime = float32 /\ rect3 B T H (data3 ime)
      /\ forall b t h, (b < B)%nat -> (t < T)%nat -> (h < H)%nat ->
           nth h (nth t (nth b (data3 ime) []) []) (@f_cast F (arith float32) 0%Z)
           = @f_cast F (arith float32) (nth t (nth b mask []) 0%Z))
  /\ (dtype3 te = float32 ->
      exists out,
        mean_pooling arith (mkOut te) mask = Ok out
        /\ dtype2 out = float32 /\ rect2 B H (data2 out))
  /\ (dtype3 te <> float32 ->
      mean_pooling arith (mkOut te) mask = Err InvalidArgument_dtype).
Proof.
  intros Hte Hmask HB HT. split; [|split].
  - eexists. split; [apply (input_mask_expanded_rows arith te Hte Hmask HB HT)|].
    split; [reflexivity|]. cbn [data3]. destruct Hmask as [HB' Hm]. split.
    + split; [now rewrite length_map|].
      apply Forall_forall. intros r Hin.
      apply in_map_iff in Hin as (mrow & <- & Hin').
      rewrite Forall_forall in Hm. rewrite <- (Hm _ Hin').
      apply mask_row_rect.
    + intros b t h Hb Ht Hh.
      set (A := arith float32).
      rewrite (nth_indep _ [] (mask_row A H [])) by (rewrite length_map; lia).
      rewrite (map_nth (mask_row A H) mask [] b).
      assert (Hl : length (nth b mask []) = T).
      { rewrite Forall_forall in Hm. apply Hm, nth_In. lia. }
      unfold mask_row. rewrite map_map.
      set (g := fun x : Z => map f_cast (repeat x H)).
      rewrite (nth_indep _ [] (g 0%Z)) by (rewrite length_map; lia).
      rewrite (map_nth g (nth b mask []) 0%Z t). unfold g.
      rewrite (nth_indep _ _ (f_cast (nth t (nth b mask []) 0%Z)))
        by (rewrite length_map, repeat_length; lia).
      rewrite (map_nth f_cast). now rewrite nth_repeat_lt.
  - intros Hdt. eexists.
    split; [apply (mean_pooling_rows arith te Hdt Hte Hmask HB HT)|].
    split; [reflexivity|]. cbn [data2]. now apply pool_rows_rect with (T := T).
  - intros Hdt. now apply mean_pooling_dtype_error with (B := B) (T := T) (H := H).
Qed.

Lemma C4_witness :
  (exists ime,
      input_mask_expanded IEEE.of_dtype Examples.te_float64 Examples.mask_1_1 = Ok ime
      /\ dtype3 ime = float32 /\ rect3 1 2 1 (data3 ime)
      /\ forall b t h, (b < 1)%nat -> (t < 2)%nat -> (h < 1)%nat ->
           nth h (nth t (nth b (data3 ime) []) [])
             (@f_cast spec_float (IEEE.of_dtype float32) 0%Z)
           = @f_cast spec_float (IEEE.of_dtype float32)
               (nth t (nth b Examples.mask_1_1 []) 0%Z))
  /\ (dtype3 Examples.te_float64 = float32 ->
      exists out,
        mean_pooling IEEE.of_dtype (mkOut Examples.te_float64) Examples.mask_1_1 = Ok out
        /\ dtype2 out = float32 /\ rect2 1 1 (data2 out))
  /\ (dtype3 Examples.te_float64 <> float32 ->
      mean_pooling IEEE.of_dtype (mkOut Examples.te_float64) Examples.mask_1_1
      = Err InvalidArgument_dtype).
Proof.
  apply (@C4_mask_is_cast_to_float32 spec_float IEEE.of_dtype 1 2 1
           Examples.te_float64 Examples.mask_1_1).
  - split; [reflexivity|]. repeat constructor.
  - split; [reflexivity|]. repeat constructor.
  - lia.
  - lia.
Defined.

(** ** C5: unit norm after normalisation *)




(** ** C6: without normalisation *)

(** C6: when the normalize flag is false, [call] returns the result of
    [mean_pooling] unmodified. *)
Theorem C6_no_normalize_returns_pooled
    (F : Type) (arith : DType -> Arith F)
    (model : Inputs -> ModelOutput F) (inputs : Inputs) :
  call arith model inputs false
  = mean_pooling arith (model inputs) (attention_mask inputs).
Proof. unfold call. apply bind_ok_r. Qed.

(** ** C7: the end-to-end scenario *)

(** C7: token vectors [1,1,1,1], [2,2,2,2], [9,9,9,9] with mask [1,1,0] are
    pooled to [1.5,1.5,1.5,1.5], and normalised to [0.5,0.5,0.5,0.5]. *)
Theorem C7_end_to_end_scenario :
  mean_pooling IEEE.of_dtype (mkOut Examples.te_scenario) [[1; 1; 0]%Z]
  = Ok (mkT2 float32 [repeat F32.f_1_5 4])
  /\ normalize IEEE.of_dtype (mkT2 float32 [repeat F32.f_1_5 4])
     = Ok (mkT2 float32 [repeat F32.f_0_5 4])
  /\ call IEEE.of_dtype (Examples.const_model Examples.te_scenario)
       Examples.inputs_scenario false
     = Ok (mkT2 float32 [repeat F32.f_1_5 4])
  /\ call IEEE.of_dtype (Examples.const_model Examples.te_scenario)
       Examples.inputs_scenario true
     = Ok (mkT2 float32 [repeat F32.f_0_5 4])
  /\ map F32.real_value [F32.cast 1; F32.cast 2; F32.cast 9; F32.f_1_5; F32.f_0_5]
     = [1; 2; 9; 3 / 2; 1 / 2]%R.
Proof.
  repeat (split; [reflexivity|]).
  eval_float (F32.cast 1). eval_float (F32.cast 2). eval_float (F32.cast 9).
  unfold F32.f_1_5, F32.f_0_5.
  cbn [map F32.real_value Exact.of_pyfloat Exact.pow2].
  eval_Z (Z.pow_pos 2 23). eval_Z (Z.pow_pos 2 22). eval_Z (Z.pow_pos 2 20).
  eval_Z (Z.pow_pos 2 24).
  repeat (apply f_equal2; [lra|]). reflexivity.
Qed.

(** ** C9: permutation of the positions *)




(** ** C10: normalising twice *)




(** * Further properties *)

(** ** The rows of the result of [call] *)

Lemma model_output_eta {F : Type} (o : ModelOutput F) :
  o = mkOut (last_hidden_state o).
Proof. now destruct o. Qed.

Lemma normalize_row_length {F : Type} (A : Arith F) (row : list F) :
  length (normalize_row A row) = length row.
Proof. unfold normalize_row, div_row. cbn [map]. apply length_map. Qed.

Lemma call_rows {F : Type} (arith : DType -> Arith F) (B T H : nat)
    (model : Inputs -> ModelOutput F) (inputs : Inputs) (flag : bool) :
  dtype3 (last_hidden_state (model inputs)) = float32 ->
  rect3 B T H (data3 (last_hidden_state (model inputs))) ->
  rect2 B T (attention_mask inputs) -> (1 <= B)%nat -> (1 <= T)%nat ->
  call arith model inputs flag
  = Ok (mkT2 float32
          (map (fun r => if flag then normalize_row (arith float32) r else r)
             (zip_with (pool_row (arith float32) H)
                (data3 (last_hidden_state (model inputs)))
                (attention_mask inputs)))).
Proof.
  intros Hdt Hte Hmask HB HT. unfold call.
  rewrite (model_output_eta (model inputs)) at 1.
  rewrite (mean_pooling_rows arith _ Hdt Hte Hmask HB HT). cbn [bind].
  destruct flag.
  - rewrite normalize_rows. reflexivity.
  - now rewrite map_id.
Qed.

(** ** X1: the shape of the output *)

(** X1: on float32 token embeddings of shape (B, T, H) and an attention mask
    of shape (B, T), [call] succeeds for both values of the normalize flag
    and returns a float32 tensor of shape (B, H). *)
Theorem X1_call_output_shape
    (F : Type) (arith : DType -> Arith F) (B T H : nat)
    (model : Inputs -> ModelOutput F) (inputs : Inputs) (flag : bool) :
  dtype3 (last_hidden_state (model inputs)) = float32 ->
  rect3 B T H (data3 (last_hidden_state (model inputs))) ->
  rect2 B T (attention_mask inputs) -> (1 <= B)%nat -> (1 <= T)%nat ->
  exists out,
    call arith model inputs flag = Ok out
    /\ dtype2 out = float32 /\ rect2 B H (data2 out).
Proof.
  intros Hdt Hte Hmask HB HT.
  eexists. split; [apply (call_rows arith model inputs flag Hdt Hte Hmask HB HT)|].
  split; [reflexivity|]. cbn [data2].
  destruct (pool_rows_rect (arith float32) Hte Hmask HT) as [Hl Hr].
  split; [now rewrite length_map|].
  apply Forall_forall. intros r Hin. apply in_map_iff in Hin as (r0 & <- & Hin0).
  rewrite Forall_forall in Hr. specialize (Hr _ Hin0).
  destruct flag; [now rewrite normalize_row_length | exact Hr].
Qed.

Lemma X1_witness :
  exists out,
    call IEEE.of_dtype (Examples.const_model MoreExamples.te_pair)
      MoreExamples.inputs_pair true = Ok out
    /\ dtype2 out = float32 /\ rect2 2 1 (data2 out).
Proof.
  apply (@X1_call_output_shape spec_float IEEE.of_dtype 2 2 1
           (Examples.const_model MoreExamples.te_pair)
           MoreExamples.inputs_pair true).
  - reflexivity.
  - split; [reflexivity|]. repeat constructor.
  - split; [reflexivity|]. repeat constructor.
  - lia.
  - lia.
Defined.

(** ** X2: a mask that cannot be broadcast *)

Lemma broadcast_hidden (H : nat) (mask : IntTensor2) :
  mapM (fun row => mapM (broadcast_axis H) row) (expand_dims mask)
  = Ok (map (fun mrow => map (fun x => repeat x H) mrow) mask).
Proof.
  unfold expand_dims.
  induction mask as [|mrow mask IH]; cbn [map mapM]; [reflexivity|].
  rewrite mapM_broadcast_hidden, IH. reflexivity.
Qed.

Lemma broadcast_axis_error {A : Type} (n : nat) (l : list A) :
  length l <> n -> length l <> 1%nat ->
  broadcast_axis n l = Err InvalidArgument_shape.
Proof.
  intros Hn H1. unfold broadcast_axis.
  destruct (Nat.eqb_spec (length l) n) as [E|_]; [contradiction|].
  destruct l as [|x [|y l]]; try reflexivity. cbn in H1. lia.
Qed.

Lemma mapM_length {A B : Type} (f : A -> result B) (l : list A) (l' : list B) :
  mapM f l = Ok l' -> length l' = length l.
Proof.
  revert l'. induction l as [|a l IH]; intros l' Hm; cbn in Hm.
  - now inversion Hm.
  - destruct (f a) as [b|e]; cbn in Hm; [|discriminate].
    destruct (mapM f l) as [bs|e]; cbn in Hm; [|discriminate].
    inversion Hm. cbn. now rewrite (IH bs eq_refl).
Qed.

Lemma mapM_broadcast_error {A : Type} (n : nat) (l : list (list A)) (e : TFError) :
  mapM (broadcast_axis n) l = Err e -> e = InvalidArgument_shape.
Proof.
  induction l as [|a l IH]; cbn; [discriminate|].
  unfold broadcast_axis at 1.
  destruct (Nat.eqb (length a) n).
  - cbn. destruct (mapM (broadcast_axis n) l) as [bs|e']; cbn; [discriminate|].
    intros E. inversion E. subst. now apply IH.
  - destruct a as [|x [|y a]]; cbn.
    + intros E. now inversion E.
    + destruct (mapM (broadcast_axis n) l) as [bs|e']; cbn; [discriminate|].
      intros E. inversion E. subst. now apply IH.
    + intros E. now inversion E.
Qed.

Lemma broadcast_to_error (B T H B' T' : nat) (mask : IntTensor2) :
  rect2 B' T' mask ->
  (B' <> B /\ B' <> 1%nat) \/ ((1 <= B')%nat /\ T' <> T /\ T' <> 1%nat) ->
  broadcast_to (expand_dims mask) (B, T, H) = Err InvalidArgument_shape.
Proof.
  intros [HB' HT'] Hbad. unfold broadcast_to.
  rewrite broadcast_hidden. cbn [bind].
  destruct Hbad as [[H1 H2] | (H0 & H1 & H2)].
  - destruct (mapM (broadcast_axis T)
                (map (fun mrow => map (fun x => repeat x H) mrow) mask))
      as [rows'|e] eqn:E; cbn [bind].
    + apply mapM_length in E. rewrite length_map in E.
      apply broadcast_axis_error; congruence.
    + f_equal. now apply mapM_broadcast_error in E.
  - destruct mask as [|mrow mask]; cbn in HB'; [lia|].
    pose proof (Forall_inv HT') as Hm. cbn beta in Hm.
    cbn [map mapM].
    rewrite broadcast_axis_error by (rewrite length_map; congruence).
    reflexivity.
Qed.

Lemma mean_pooling_shape_error {F : Type} (arith : DType -> Arith F)
    (B T H B' T' : nat) (te : Tensor3 F) (mask : IntTensor2) :
  rect3 B T H (data3 te) -> (1 <= B)%nat -> (1 <= T)%nat ->
  rect2 B' T' mask ->
  (B' <> B /\ B' <> 1%nat) \/ ((1 <= B')%nat /\ T' <> T /\ T' <> 1%nat) ->
  mean_pooling arith (mkOut te) mask = Err InvalidArgument_shape.
Proof.
  intros Hte HB HT Hmask Hbad. unfold mean_pooling, input_mask_expanded.
  cbn [last_hidden_state].
  rewrite (tf_shape_rect Hte HB HT), (broadcast_to_error H Hmask Hbad).
  reflexivity.
Qed.

(** X2: when the attention mask has a batch size that is neither that of the
    token embeddings nor 1, or a sequence length that is neither that of the
    token embeddings nor 1, [call] fails with a shape error, for both values
    of the normalize flag and whatever the dtype of the token embeddings. *)
Theorem X2_mask_shape_mismatch_is_an_error
    (F : Type) (arith : DType -> Arith F) (B T H B' T' : nat)
    (model : Inputs -> ModelOutput F) (inputs : Inputs) (flag : bool) :
  rect3 B T H (data3 (last_hidden_state (model inputs))) ->
  (1 <= B)%nat -> (1 <= T)%nat ->
  rect2 B' T' (attention_mask inputs) ->
  (B' <> B /\ B' <> 1%nat) \/ ((1 <= B')%nat /\ T' <> T /\ T' <> 1%nat) ->
  call arith model inputs flag = Err InvalidArgument_shape.
Proof.
  intros Hte HB HT Hmask Hbad. unfold call.
  rewrite (model_output_eta (model inputs)).
  rewrite (mean_pooling_shape_error arith _ Hte HB HT Hmask Hbad).
  reflexivity.
Qed.

Lemma X2_witness :
  call IEEE.of_dtype (Examples.const_model MoreExamples.te_pair)
    (mkIn [[101; 102; 103]; [101; 102; 103]]%Z [[1; 1; 1]; [1; 1; 0]]%Z) true
  = Err InvalidArgument_shape.
Proof.
  apply (@X2_mask_shape_mismatch_is_an_error spec_float IEEE.of_dtype 2 2 1 2 3
           (Examples.const_model MoreExamples.te_pair)
           (mkIn [[101; 102; 103]; [101; 102; 103]]%Z [[1; 1; 1]; [1; 1; 0]]%Z)
           true).
  - split; [reflexivity|]. repeat constructor.
  - lia.
  - lia.
  - split; [reflexivity|]. repeat constructor.
  - right. lia.
Defined.

(** ** X3: a mask axis of size 1 *)

Lemma mean_pooling_same_broadcast {F : Type} (arith : DType -> Arith F)
    (te : Tensor3 F) (m1 m2 : IntTensor2) :
  broadcast_to (expand_dims m1) (tf_shape (data3 te))
  = broadcast_to (expand_dims m2) (tf_shape (data3 te)) ->
  mean_pooling arith (mkOut te) m1 = mean_pooling arith (mkOut te) m2.
Proof.
  intros E. unfold mean_pooling, input_mask_expanded. cbn [last_hidden_state].
  now rewrite E.
Qed.

Lemma broadcast_to_column (B T H : nat) (ms : list Z) :
  length ms = B ->
  broadcast_to (expand_dims (map (fun m => [m]) ms)) (B, T, H)
  = Ok (map (fun m => repeat (repeat m H) T) ms).
Proof.
  intros HB. unfold broadcast_to. rewrite broadcast_hidden. cbn [bind].
  rewrite map_map. cbn [map].
  rewrite (@mapM_ok _ _ _ (fun l => repeat (hd [] l) T)).
  - cbn [bind]. rewrite map_map. cbn [hd].
    apply broadcast_axis_same. now rewrite length_map.
  - intros l Hin. apply in_map_iff in Hin as (m & <- & _).
    apply broadcast_axis_singleton.
Qed.

Lemma broadcast_to_single_row (B T H : nat) (mrow : list Z) :
  length mrow = T ->
  broadcast_to (expand_dims [mrow]) (B, T, H)
  = Ok (repeat (map (fun x => repeat x H) mrow) B).
Proof.
  intros HT. unfold broadcast_to. rewrite broadcast_hidden. cbn [bind map mapM].
  rewrite broadcast_axis_same by now rewrite length_map.
  cbn [bind]. apply broadcast_axis_singleton.
Qed.

(** X3: an attention mask of shape (B, 1) is accepted and applied to every
    position of its row, and an attention mask of shape (1, T) is accepted
    and applied to every row of the batch: [mean_pooling] returns what it
    returns on the mask written out in full. *)
Theorem X3_mask_axis_of_size_one_is_broadcast
    (F : Type) (arith : DType -> Arith F) (B T H : nat) (te : Tensor3 F) :
  rect3 B T H (data3 te) -> (1 <= B)%nat -> (1 <= T)%nat ->
  (forall ms : list Z, length ms = B ->
     mean_pooling arith (mkOut te) (map (fun m => [m]) ms)
     = mean_pooling arith (mkOut te) (map (fun m => repeat m T) ms))
  /\ (forall mrow : list Z, length mrow = T ->
        mean_pooling arith (mkOut te) [mrow]
        = mean_pooling arith (mkOut te) (repeat mrow B)).
Proof.
  intros Hte HB HT. split.
  - intros ms Hms. apply mean_pooling_same_broadcast.
    rewrite (tf_shape_rect Hte HB HT), (@broadcast_to_column B T H ms Hms).
    rewrite (@broadcast_to_mask B T H).
    + rewrite map_map. f_equal. apply map_ext. intros m. symmetry.
      exact (map_repeat_eq (fun x => repeat x H) m T).
    + split; [now rewrite length_map|].
      apply Forall_forall. intros r Hin. apply in_map_iff in Hin as (m & <- & _).
      apply repeat_length.
  - intros mrow Hm. apply mean_pooling_same_broadcast.
    rewrite (tf_shape_rect Hte HB HT), (@broadcast_to_single_row B T H mrow Hm).
    rewrite (@broadcast_to_mask B T H).
    + now rewrite map_repeat_eq.
    + split; [apply repeat_length|].
      apply Forall_forall. intros r Hin. apply repeat_spec in Hin. now subst.
Qed.

Lemma X3_witness :
  (forall ms : list Z, length ms = 2%nat ->
     mean_pooling IEEE.of_dtype (mkOut MoreExamples.te_pair) (map (fun m => [m]) ms)
     = mean_pooling IEEE.of_dtype (mkOut MoreExamples.te_pair)
         (map (fun m => repeat m 2) ms))
  /\ (forall mrow : list Z, length mrow = 2%nat ->
        mean_pooling IEEE.of_dtype (mkOut MoreExamples.te_pair) [mrow]
        = mean_pooling IEEE.of_dtype (mkOut MoreExamples.te_pair) (repeat mrow 2)).
Proof.
  apply (@X3_mask_axis_of_size_one_is_broadcast spec_float IEEE.of_dtype 2 2 1
           MoreExamples.te_pair).
  - split; [reflexivity|]. repeat constructor.
  - lia.
  - lia.
Defined.

(** ** X4: the rows of a batch *)



(** ** X5: padding *)



(** ** X6: a mask of ones *)



(** ** X7: the clamped denominator *)

(** X7: in float32, for a 0/1 mask row with at most 2^24 ones, the clamp
    changes the denominator only when the row is fully masked: each of its H
    entries is the number of ones of the row, and the float32 value of 1e-9
    when that number is 0; the upper bound [tf.float32.max] is never
    reached. *)
Theorem X7_denominator_is_the_count_or_the_floor
    (B T H : nat) (te : Tensor3 spec_float) (mask : IntTensor2)
    (b : nat) (mrow : list Z) :
  rect3 B T H (data3 te) -> rect2 B T mask -> (1 <= T)%nat ->
  nth_error mask b = Some mrow ->
  binary_mask mrow -> (Z.of_nat (count_ones mrow) <= 2 ^ 24)%Z ->
  exists den,
    pooling_denominator IEEE.of_dtype te mask = Ok den
    /\ nth_error (data2 den) b
       = Some (repeat (if Nat.eqb (count_ones mrow) 0
                       then S754_finite false 9007199 (-53)
                       else F32.cast (Z.of_nat (count_ones mrow))) H).
Proof.
  intros Hte Hmask HT Hmrow Hbin Hk.
  assert (HB : (1 <= B)%nat).
  { destruct Hmask as [HB _]. rewrite <- HB.
    assert (b < length mask)%nat by (apply nth_error_Some; congruence). lia. }
  assert (Hne : mrow <> []).
  { destruct Hmask as [_ HM]. rewrite Forall_forall in HM.
    pose proof (HM _ (nth_error_In _ _ Hmrow)) as Hl. cbn beta in Hl.
    intros ->. cbn in Hl. lia. }
  unfold pooling_denominator.
  rewrite (input_mask_expanded_rows IEEE.of_dtype te Hte Hmask HB HT).
  cbn [bind]. eexists. split; [reflexivity|].
  unfold tf_clip_by_value, reduce_sum_axis1. cbn [data2 data3 dtype2 dtype3].
  rewrite !nth_error_map, Hmrow. cbn [option_map]. f_equal.
  change (IEEE.of_dtype float32) with F32.A.
  rewrite F32Pool.mask_sum by assumption. rewrite map_repeat_eq. f_equal.
  destruct (Nat.eqb_spec (count_ones mrow) 0) as [E|E].
  - rewrite E. apply F32Pool.clip_zero.
  - apply F32Pool.clip_cast. lia.
Qed.

Lemma X7_witness :
  exists den,
    pooling_denominator IEEE.of_dtype MoreExamples.te_pair MoreExamples.mask_pair
    = Ok den
    /\ nth_error (data2 den) 1 = Some [F32.cast 1].
Proof.
  apply (@X7_denominator_is_the_count_or_the_floor 2 2 1
           MoreExamples.te_pair MoreExamples.mask_pair 1 [1; 0]%Z).
  - split; [reflexivity|]. repeat constructor.
  - split; [reflexivity|]. repeat constructor.
  - lia.
  - reflexivity.
  - repeat (constructor; [(now left) || (now right)|]). constructor.
  - cbn. lia.
Defined.

(** ** X8: a NaN under the mask *)

Lemma SFadd_nan_r (prec emax : Z) (a : spec_float) :
  SFadd prec emax a S754_nan = S754_nan.
Proof. now destruct a. Qed.

Lemma SFmul_nan_l (prec emax : Z) (x : spec_float) :
  SFmul prec emax S754_nan x = S754_nan.
Proof. reflexivity. Qed.

Lemma SFdiv_nan_l (prec emax : Z) (x : spec_float) :
  SFdiv prec emax S754_nan x = S754_nan.
Proof. reflexivity. Qed.

Lemma SFdiv_nan_r (prec emax : Z) (x : spec_float) :
  SFdiv prec emax x S754_nan = S754_nan.
Proof. now destruct x. Qed.

Lemma nth_error_repeat_lt {A : Type} (a : A) (n h : nat) :
  (h < n)%nat -> nth_error (repeat a n) h = Some a.
Proof.
  revert h. induction n as [|n IH]; intros [|h] Hh; cbn; try lia; [reflexivity|].
  apply IH. lia.
Qed.

Lemma nth_error_lt_ex {A : Type} (l : list A) (h : nat) :
  (h < length l)%nat -> exists x, nth_error l h = Some x.
Proof.
  intros Hh. destruct (nth_error l h) as [x|] eqn:E; [now exists x|].
  apply nth_error_None in E. lia.
Qed.

Lemma nan_stays (h : nat) (l : list (list spec_float)) (acc : list spec_float) :
  nth_error acc h = Some S754_nan ->
  Forall (fun v => (h < length v)%nat) l ->
  nth_error (fold_left (zip_with F32.add) l acc) h = Some S754_nan.
Proof.
  revert acc. induction l as [|v l IH]; intros acc Hacc Hl; [exact Hacc|].
  cbn [fold_left]. apply IH; [|eapply Forall_inv_tail; eassumption].
  destruct (nth_error_lt_ex v (Forall_inv Hl)) as [x Hx].
  rewrite (nth_error_zip_with _ _ _ _ Hacc Hx). reflexivity.
Qed.

Lemma nan_enters (H h : nat) (v : list spec_float) (t : nat)
    (row : list (list spec_float)) (mrow : list Z) (acc : list spec_float) :
  length acc = H -> Forall (fun r => length r = H) row ->
  (t < length mrow)%nat ->
  nth_error row t = Some v -> nth_error v h = Some S754_nan ->
  nth_error
    (fold_left (zip_with F32.add)
       (zip_with (zip_with F32.mul) row (mask_row F32.A H mrow)) acc) h
  = Some S754_nan.
Proof.
  revert t mrow acc. induction row as [|r0 row IH]; intros t mrow acc
    Hacc Hlen Ht Hv Hnan; [destruct t; discriminate|].
  destruct mrow as [|m mrow]; [cbn in Ht; lia|].
  rewrite F32Pool.mask_row_cons. cbn [zip_with fold_left].
  fold (@zip_with (list spec_float) (list spec_float) (list spec_float)).
  pose proof (Forall_inv Hlen) as Hr0. cbn beta in Hr0.
  pose proof (Forall_inv_tail Hlen) as Hlen'.
  destruct t as [|t].
  - cbn in Hv. inversion Hv. subst r0.
    assert (Hh : (h < H)%nat)
      by (rewrite <- Hr0; apply nth_error_Some; congruence).
    apply nan_stays.
    + destruct (@nth_error_lt_ex _ acc h ltac:(lia)) as [a Ha].
      rewrite (nth_error_zip_with _ _ _ _ Ha
                 (nth_error_zip_with F32.mul _ _ _ Hnan
                    (nth_error_repeat_lt (F32.cast m) Hh))).
      unfold F32.mul, F32.add. now rewrite SFmul_nan_l, SFadd_nan_r.
    + rewrite zip_with_combine. apply Forall_forall. intros p Hin.
      apply in_map_iff in Hin as ([x y] & <- & Hxy). cbn [fst snd].
      rewrite zip_with_length.
      destruct (mask_row_rect F32.A H mrow) as [_ Hmv].
      rewrite Forall_forall in Hlen', Hmv.
      rewrite (Hlen' x (in_combine_l _ _ _ _ Hxy)), (Hmv y (in_combine_r _ _ _ _ Hxy)).
      lia.
  - cbn in Hv, Ht. apply (IH t); trivial; try lia.
    rewrite !zip_with_length, repeat_length. lia.
Qed.

Lemma nth_error_div_row {F : Type} (A : Arith F) (a b : list F) (h : nat) (x y : F) :
  length a = length b ->
  nth_error a h = Some x -> nth_error b h = Some y ->
  nth_error (div_row A a b) h = Some (f_div x y).
Proof.
  intros Hl Ha Hb. unfold div_row. destruct b as [|n [|n' b]].
  - destruct h; discriminate.
  - destruct a as [|a0 [|a1 a]]; cbn in Hl; try discriminate.
    destruct h as [|[|h]]; cbn in *; try discriminate. congruence.
  - now apply nth_error_zip_with.
Qed.

(** X8: in float32, the attention mask does not hide a NaN: when a token
    vector of a row holds a NaN at component h, component h of the pooled
    row is NaN, whatever the mask value at that position (and at the other
    positions). *)
Theorem X8_mask_does_not_hide_nan
    (B T H : nat) (te : Tensor3 spec_float) (mask : IntTensor2)
    (b t h : nat) (row : list (list spec_float)) (v : list spec_float) :
  dtype3 te = float32 ->
  rect3 B T H (data3 te) -> rect2 B T mask ->
  nth_error (data3 te) b = Some row ->
  nth_error row t = Some v -> nth_error v h = Some S754_nan ->
  exists out orow,
    mean_pooling IEEE.of_dtype (mkOut te) mask = Ok out
    /\ nth_error (data2 out) b = Some orow
    /\ nth_error orow h = Some S754_nan.
Proof.
  intros Hdt Hte Hmask Hrow Hv Hnan.
  assert (HB : (1 <= B)%nat).
  { destruct Hte as [HB _]. rewrite <- HB.
    assert (b < length (data3 te))%nat by (apply nth_error_Some; congruence). lia. }
  assert (Hr : rect2 T H row).
  { destruct Hte as [_ HF]. rewrite Forall_forall in HF.
    apply HF. eapply nth_error_In; eassumption. }
  destruct Hr as [HrT HrH].
  assert (Ht : (t < T)%nat) by (rewrite <- HrT; apply nth_error_Some; congruence).
  assert (HT : (1 <= T)%nat) by lia.
  assert (Hb : (b < length mask)%nat).
  { destruct Hmask as [HBm _], Hte as [HBt _].
    rewrite HBm, <- HBt. apply nth_error_Some. congruence. }
  destruct (nth_error_lt_ex mask Hb) as [mrow Hmrow].
  assert (Hml : length mrow = T).
  { destruct Hmask as [_ HM]. rewrite Forall_forall in HM.
    apply HM. eapply nth_error_In; eassumption. }
  assert (HvH : length v = H).
  { rewrite Forall_forall in HrH. apply HrH. eapply nth_error_In; eassumption. }
  assert (Hh : (h < H)%nat) by (rewrite <- HvH; apply nth_error_Some; congruence).
  eexists. eexists.
  split; [apply (mean_pooling_rows IEEE.of_dtype te Hdt Hte Hmask HB HT)|].
  cbn [data2]. split; [apply (nth_error_zip_with _ _ _ _ Hrow Hmrow)|].
  change (IEEE.of_dtype float32) with F32.A. unfold pool_row.
  assert (Hdl : length (sum_rows F32.A (mask_row F32.A H mrow)) = H).
  { destruct (mask_row_rect F32.A H mrow) as [Hml' Hmv].
    apply sum_rows_length; [exact Hmv|].
    intros E. apply (f_equal (@length _)) in E. rewrite Hml' in E. cbn in E. lia. }
  assert (Hnum : nth_error
                   (sum_rows F32.A
                      (zip_with (zip_with (@f_mul _ F32.A)) row (mask_row F32.A H mrow)))
                   h = Some S754_nan).
  { unfold sum_rows.
    change (@f_add _ F32.A) with F32.add. change (@f_mul _ F32.A) with F32.mul.
    apply nan_enters with (t := t) (v := v); trivial; [|lia].
    rewrite repeat_length.
    destruct row as [|r0 row]; [destruct t; discriminate|].
    destruct mrow as [|m mrow]; [cbn in Hml; lia|].
    rewrite F32Pool.mask_row_cons. cbn [zip_with hd].
    rewrite zip_with_length, repeat_length.
    pose proof (Forall_inv HrH) as Hr0. cbn beta in Hr0. lia. }
  assert (Hnl : length (sum_rows F32.A
                          (zip_with (zip_with (@f_mul _ F32.A)) row
                             (mask_row F32.A H mrow))) = H).
  { apply sum_rows_length.
    - rewrite zip_with_combine. apply Forall_forall. intros p Hin.
      apply in_map_iff in Hin as ([x y] & <- & Hxy). cbn [fst snd].
      rewrite zip_with_length.
      destruct (mask_row_rect F32.A H mrow) as [_ Hmv].
      rewrite Forall_forall in HrH, Hmv.
      rewrite (HrH x (in_combine_l _ _ _ _ Hxy)), (Hmv y (in_combine_r _ _ _ _ Hxy)).
      lia.
    - intros E. apply (f_equal (@length _)) in E.
      destruct (mask_row_rect F32.A H mrow) as [Hml' _].
      rewrite zip_with_length, Hml' in E. cbn in E. lia. }
  destruct (@nth_error_lt_ex _
              (map (clip F32.A py_1e_9 py_float32_max)
                 (sum_rows F32.A (mask_row F32.A H mrow))) h
              ltac:(rewrite length_map; lia)) as [d Hd].
  assert (Hll : length (sum_rows F32.A
                          (zip_with (zip_with (@f_mul _ F32.A)) row
                             (mask_row F32.A H mrow)))
                = length (map (clip F32.A py_1e_9 py_float32_max)
                            (sum_rows F32.A (mask_row F32.A H mrow))))
    by (rewrite length_map; congruence).
  rewrite (nth_error_div_row F32.A _ _ h Hll Hnum Hd).
  reflexivity.
Qed.

Lemma X8_witness :
  exists out orow,
    mean_pooling IEEE.of_dtype (mkOut MoreExamples.te_nan) [[1; 0]%Z] = Ok out
    /\ nth_error (data2 out) 0 = Some orow
    /\ nth_error orow 0 = Some S754_nan.
Proof.
  apply (@X8_mask_does_not_hide_nan 1 2 1 MoreExamples.te_nan [[1; 0]%Z] 0 1 0
           [[F32.cast 1]; [S754_nan]] [S754_nan]).
  - reflexivity.
  - split; [reflexivity|]. repeat constructor.
  - split; [reflexivity|]. repeat constructor.
  - reflexivity.
  - reflexivity.
  - reflexivity.
Defined.

(** ** X9: a NaN in a row to normalise *)

Section NanRow.
Variables prec emax : Z.

Lemma sum_nan_acc (l : list spec_float) :
  fold_left (SFadd prec emax) l S754_nan = S754_nan.
Proof. induction l as [|x l IH]; [reflexivity | exact IH]. Qed.

Lemma sum_with_nan (l : list spec_float) (a : spec_float) :
  In S754_nan l -> fold_left (SFadd prec emax) l a = S754_nan.
Proof.
  revert a. induction l as [|x l IH]; intros a Hin; [contradiction|].
  cbn [fold_left]. destruct Hin as [->|Hin].
  - rewrite SFadd_nan_r. apply sum_nan_acc.
  - now apply IH.
Qed.

Lemma normalize_row_nan (row : list spec_float) :
  In S754_nan row ->
  normalize_row (IEEE.arith prec emax) row = map (fun _ => S754_nan) row.
Proof.
  intros Hin. unfold normalize_row, sum_list, div_row. cbn [map].
  change (@f_add _ (IEEE.arith prec emax)) with (SFadd prec emax).
  change (@f_mul _ (IEEE.arith prec emax)) with (SFmul prec emax).
  change (@f_div _ (IEEE.arith prec emax)) with (SFdiv prec emax).
  rewrite sum_with_nan.
  - change (@f_sqrt _ (IEEE.arith prec emax) S754_nan) with S754_nan.
    apply map_ext. intros x. apply SFdiv_nan_r.
  - rewrite zip_with_self. apply in_map_iff. exists S754_nan. now split.
Qed.
End NanRow.

(** X9: in every float dtype, a single NaN in a row spreads over the whole
    normalised row: its norm is NaN, and [normalize] returns NaN in every
    component of that row, without an error. *)
Theorem X9_nan_spreads_over_the_normalized_row
    (t : Tensor2 spec_float) (b : nat) (row : list spec_float) :
  nth_error (data2 t) b = Some row -> In S754_nan row ->
  exists out,
    normalize IEEE.of_dtype t = Ok out
    /\ nth_error (data2 out) b = Some (map (fun _ => S754_nan) row).
Proof.
  intros Hrow Hin. eexists. split; [apply normalize_rows|].
  cbn [data2]. rewrite nth_error_map, Hrow. cbn [option_map]. f_equal.
  now apply normalize_row_nan.
Qed.

Lemma X9_witness :
  exists out,
    normalize IEEE.of_dtype MoreExamples.pooled_nan = Ok out
    /\ nth_error (data2 out) 0 = Some [S754_nan; S754_nan; S754_nan].
Proof.
  apply (@X9_nan_spreads_over_the_normalized_row MoreExamples.pooled_nan 0
           [F32.cast 1; S754_nan; F32.cast 2]).
  - reflexivity.
  - right. left. reflexivity.
Defined.

(** ** X10: a fully masked sequence with normalisation *)

(** X10: in float32 with the normalize flag true (the default), a sequence
    whose mask is all zeros and whose values are finite is embedded as NaN in
    every component: it is pooled to the zero vector, which is then divided
    by its zero norm. *)
Theorem X10_fully_masked_row_is_normalized_to_nan
    (B T H : nat) (model : Inputs -> ModelOutput spec_float) (inputs : Inputs)
    (b : nat) (row : list (list spec_float)) (mrow : list Z) :
  dtype3 (last_hidden_state (model inputs)) = float32 ->
  rect3 B T H (data3 (last_hidden_state (model inputs))) ->
  rect2 B T (attention_mask inputs) -> (1 <= T)%nat ->
  nth_error (data3 (last_hidden_state (model inputs))) b = Some row ->
  nth_error (attention_mask inputs) b = Some mrow ->
  Forall (fun m => m = 0%Z) mrow ->
  Forall (Forall (fun x => F32.is_finite x = true)) row ->
  exists out,
    call IEEE.of_dtype model inputs true = Ok out
    /\ nth_error (data2 out) b = Some (repeat S754_nan H).
Proof.
  intros Hdt Hte Hmask HT Hrow Hmrow Hzero Hfin.
  assert (HB : (1 <= B)%nat).
  { destruct Hte as [HB _]. rewrite <- HB.
    assert (b < length (data3 (last_hidden_state (model inputs))))%nat
      by (apply nth_error_Some; congruence). lia. }
  eexists.
  split; [apply (call_rows IEEE.of_dtype model inputs true Hdt Hte Hmask HB HT)|].
  cbn [data2]. rewrite nth_error_map, (nth_error_zip_with _ _ _ _ Hrow Hmrow).
  cbn [option_map]. f_equal.
  destruct Hte as [_ HF]. destruct Hmask as [_ HM].
  rewrite Forall_forall in HF, HM.
  destruct (HF _ (nth_error_In _ _ Hrow)) as [Hlen HF'].
  pose proof (HM _ (nth_error_In _ _ Hmrow)) as Hml. cbn beta in Hml.
  change (IEEE.of_dtype float32) with F32.A.
  rewrite F32PoolZero.pool_row_all_masked; trivial; try congruence.
  - change F32.A with (IEEE.arith 24 128).
    rewrite normalize_row_zeros.
    + apply map_repeat_eq.
    + apply Forall_forall. intros x Hx. apply repeat_spec in Hx. now subst.
  - intros ->. cbn in Hml. lia.
Qed.

Lemma X10_witness :
  exists out,
    call IEEE.of_dtype (Examples.const_model Examples.te_scenario)
      (mkIn [[0; 0; 0]]%Z [[0; 0; 0]]%Z) true = Ok out
    /\ nth_error (data2 out) 0 = Some (repeat S754_nan 4).
Proof.
  apply (@X10_fully_masked_row_is_normalized_to_nan 1 3 4
           (Examples.const_model Examples.te_scenario)
           (mkIn [[0; 0; 0]]%Z [[0; 0; 0]]%Z) 0
           [Examples.vec4 1; Examples.vec4 2; Examples.vec4 9] [0; 0; 0]%Z).
  - reflexivity.
  - split; [reflexivity|]. repeat constructor.
  - split; [reflexivity|]. repeat constructor.
  - lia.
  - reflexivity.
  - reflexivity.
  - repeat constructor.
  - repeat constructor.
Defined.

(** ** X11: the end-to-end model *)

(** X11: [E2ESentenceTransformer.call] always normalises: it returns what
    [normalize] returns on the pooled embeddings that [call] gives for the
    tokenized text with the normalize flag false, and any error of the
    pooling is its error; when the tokenizer returns a mask of shape (B, T)
    and the transformer float32 token embeddings of shape (B, T, H), the
    result is a float32 tensor of shape (B, H). *)
Theorem X11_e2e_call_is_normalized_pooling
    (F : Type) (arith : DType -> Arith F) (Text : Type)
    (tokenizer : Text -> Inputs) (model : Inputs -> ModelOutput F)
    (text : Text) :
  e2e_call arith tokenizer model text
  = (pooled <- call arith model (tokenizer text) false ;; normalize arith pooled)
  /\ forall B T H : nat,
      dtype3 (last_hidden_state (model (tokenizer text))) = float32 ->
      rect3 B T H (data3 (last_hidden_state (model (tokenizer text)))) ->
      rect2 B T (attention_mask (tokenizer text)) ->
      (1 <= B)%nat -> (1 <= T)%nat ->
      exists out,
        e2e_call arith tokenizer model text = Ok out
        /\ dtype2 out = float32 /\ rect2 B H (data2 out).
Proof.
  split.
  - unfold e2e_call, call.
    destruct (mean_pooling arith (model (tokenizer text))
                (attention_mask (tokenizer text))); reflexivity.
  - intros B T H Hdt Hte Hmask HB HT. unfold e2e_call.
    eexists.
    split; [apply (call_rows arith model (tokenizer text) true Hdt Hte Hmask HB HT)|].
    split; [reflexivity|]. cbn [data2].
    destruct (pool_rows_rect (arith float32) Hte Hmask HT) as [Hl Hr].
    split; [now rewrite length_map|].
    apply Forall_forall. intros r Hin. apply in_map_iff in Hin as (r0 & <- & Hin0).
    rewrite Forall_forall in Hr. rewrite normalize_row_length. now apply Hr.
Qed.

Lemma X11_witness :
  exists out,
    e2e_call IEEE.of_dtype (MoreExamples.const_tokenizer MoreExamples.inputs_pair)
      (Examples.const_model MoreExamples.te_pair) tt = Ok out
    /\ dtype2 out = float32 /\ rect2 2 1 (data2 out).
Proof.
  destruct (@X11_e2e_call_is_normalized_pooling spec_float IEEE.of_dtype unit
              (MoreExamples.const_tokenizer MoreExamples.inputs_pair)
              (Examples.const_model MoreExamples.te_pair) tt) as [_ Hshape].
  apply (Hshape 2%nat 2%nat 1%nat).
  - reflexivity.
  - split; [reflexivity|]. repeat constructor.
  - split; [reflexivity|]. repeat constructor.
  - lia.
  - lia.
Defined.
